(** * Caption compositor and touch-up canvas: a shallow embedding

    The development embeds the client-side code of the content studio
    ([src/utils/fileUtils.ts], [src/components/PostCard.tsx],
    [src/App.tsx], [src/components/ComicEditor.tsx],
    [src/services/geminiService.ts]) and states the properties of its
    specification over that embedding.

    Conventions.
    - A JavaScript number is a rational ([Q]); integer-valued quantities
      (image sizes, [Math.round] results, indices) are in [Z].  The
      geometry of the compositor is computed exactly; the display size
      of the editor, whose properties depend on it, is computed with the
      rounding of IEEE 754 binary64 and the integer conversion of the
      canvas attributes ([JsNumber]).
    - A JavaScript string is a [string]; its code units are the
      characters below 256.
    - The 2D context is an explicit record threaded through a small state
      monad; what a canvas shows is the ordered log of its drawing calls.
    - The platform (text measurement, image decoding, context creation) is
      a parameter of the functions that depend on it. *)

From Stdlib Require Import String Ascii List ZArith QArith Qround Qminmax Bool Lia Lqa.
From Stdlib Require Import Qpower.
From Stdlib Require Import Floats.SpecFloat.
Import ListNotations.

Local Open Scope string_scope.
Local Open Scope Q_scope.

(* ================================================================== *)
(** * Part I: the program                                              *)
(* ================================================================== *)

(** ** JavaScript string primitives used by the sources *)

Module JsString.

(** [String.prototype.split(sep)] for a separator of one character:
    the pieces between separators.  The empty string yields one empty
    piece. *)
Fixpoint split (sep : ascii) (s : string) : list string :=
  match s with
  | EmptyString => [EmptyString]
  | String c rest =>
      if Ascii.eqb c sep then EmptyString :: split sep rest
      else match split sep rest with
           | [] => [String c EmptyString]
           | w :: ws => String c w :: ws
           end
  end.

(** ECMAScript white space and line terminators among the code units
    below 256: TAB, LF, VT, FF, CR, SP and NBSP. *)
Definition is_white_space (c : ascii) : bool :=
  let n := nat_of_ascii c in
  ((9 <=? n) && (n <=? 13) || (n =? 32) || (n =? 160))%nat.

Fixpoint trimStart (s : string) : string :=
  match s with
  | EmptyString => EmptyString
  | String c rest => if is_white_space c then trimStart rest else s
  end.

Fixpoint trimEnd (s : string) : string :=
  match s with
  | EmptyString => EmptyString
  | String c rest =>
      match trimEnd rest with
      | EmptyString => if is_white_space c then EmptyString
                       else String c EmptyString
      | rest' => String c rest'
      end
  end.

(** [String.prototype.trim]. *)
Definition trim (s : string) : string := trimEnd (trimStart s).

End JsString.

(** ** Comparison of JavaScript numbers *)

(** [a > b] on numbers. *)
Definition Qgtb (a b : Q) : bool := negb (Qle_bool a b).

(** ** JavaScript numbers where rounding matters

    A number is an IEEE 754 binary64 value.  Its finite values are
    rationals, and an arithmetic operation returns the exact result
    rounded to the nearest representable value, ties going to the even
    significand.  The quantities computed this way below are sizes in
    pixels, far inside the finite range: infinities and NaN are not
    modelled. *)

Module JsNumber.

(** The integer part of the binary logarithm of a positive rational:
    [2 ^ flog2 q <= q < 2 ^ (flog2 q + 1)]. *)
Definition flog2 (q : Q) : Z :=
  let k := (Z.log2 (Qnum q) - Z.log2 (Zpos (Qden q)))%Z in
  if Qle_bool (2 ^ k) q then k else (k - 1)%Z.

(** The nearest integer, a tie going to the even one. *)
Definition round_half_even (x : Q) : Z :=
  let f := Qfloor x in
  match Qcompare (x - inject_Z f) (1 # 2) with
  | Lt => f
  | Gt => (f + 1)%Z
  | Eq => if Z.even f then f else (f + 1)%Z
  end.

(** The exponent of the unit in the last place: 53 significant bits,
    and no exponent below that of the subnormal numbers. *)
Definition ulp_exponent (q : Q) : Z := Z.max (flog2 q - 52) (-1074).

Definition round_pos (q : Q) : Q :=
  let e := ulp_exponent q in
  inject_Z (round_half_even (q / 2 ^ e)) * 2 ^ e.

(** The binary64 value nearest to [q]; also the value of a decimal
    literal such as [0.8]. *)
Definition binary64 (q : Q) : Q :=
  match Qcompare q 0 with
  | Eq => 0
  | Gt => round_pos q
  | Lt => - round_pos (- q)
  end.

(** The normal range starts at [2^-1022]; a positive rational is a
    binary64 value when it is a multiple of its unit in the last
    place. *)
Definition normal (q : Q) : Prop := 2 ^ (-1022) <= q.

Definition representable (x : Q) : Prop :=
  exists m : Z, x == inject_Z m * 2 ^ ulp_exponent x.

(** [a * b] and [a / b] on numbers. *)
Definition mul (a b : Q) : Q := binary64 (a * b).
Definition div (a b : Q) : Q := binary64 (a / b).

(** Conversion of a number to a Web IDL [unsigned long]: the integer
    part, modulo [2^32]. *)
Definition integer_part (x : Q) : Z :=
  if Qle_bool 0 x then Qfloor x else Qceiling x.

Definition to_unsigned_long (x : Q) : Z := (integer_part x mod 2 ^ 32)%Z.

(** *** The same operations in the Standard Library's specification of
    IEEE 754, for comparison on concrete values *)

Definition ieee_of_Z (z : Z) : spec_float := binary_normalize 53 1024 z 0 false.
Definition ieee_mul (a b : spec_float) : spec_float := SFmul 53 1024 a b.
Definition ieee_div (a b : spec_float) : spec_float := SFdiv 53 1024 a b.

Definition ieee_value (x : spec_float) : option Q :=
  match x with
  | S754_zero _ => Some 0
  | S754_finite s m e =>
      Some ((if s then -1 else 1) * inject_Z (Zpos m) * 2 ^ e)
  | S754_infinity _ => None
  | S754_nan => None
  end.

Definition ieee_agrees (x : spec_float) (q : Q) : bool :=
  match ieee_value x with
  | Some v => Qeq_bool v q
  | None => false
  end.

End JsNumber.

(** ** [wrapText] of [src/utils/fileUtils.ts] *)

Module WrapText.
Import JsString.

Section Loop.
(** [measure s] is [context.measureText(s).width] under the font the
    context carries when [wrapText] is called. *)
Variable measure : string -> Q.
Variable maxW : Q.

(** The [for] loop, from index [n] on, over the words not yet visited;
    [line] and [lines] are the two mutable locals. *)
Fixpoint wrap_loop (words : list string) (n : nat)
         (line : string) (lines : list string) : list string :=
  match words with
  | [] => lines ++ [trim line]
  | w :: rest =>
      let testLine := line ++ w ++ " " in
      if Qgtb (measure testLine) maxW && (0 <? n)%nat
      then wrap_loop rest (S n) (w ++ " ") (lines ++ [trim line])
      else wrap_loop rest (S n) testLine lines
  end.

(** [wrapText(context, textToWrap, x, y, maxW, lineH)]; the source
    never reads [x], [y] and [lineH]. *)
Definition wrapText (textToWrap : string) (x y lineH : Q) : list string :=
  wrap_loop (split " " textToWrap) 0 "" [].

(** *** The wrapping rule of the loop, in closed form

    A line is a run of consecutive words.  [line_text] is what the
    loop measures for a run, its [testLine]: every word followed by
    one space, the last included. *)
Definition line_text (g : list string) : string :=
  fold_right (fun w acc => w ++ " " ++ acc) "" g.

Definition fits (g : list string) : bool :=
  Qle_bool (measure (line_text g)) maxW.

(** Greedy layout: the next word joins the current run while the run
    then still fits; otherwise the run is closed and the word opens a
    new one.  A run that holds no word yet always takes the word. *)
Fixpoint greedy (cur : list string) (ws : list string)
  : list (list string) :=
  match ws with
  | [] => [cur]
  | w :: rest =>
      match cur with
      | [] => greedy [w] rest
      | _ :: _ =>
          if fits (cur ++ [w]) then greedy (cur ++ [w]) rest
          else cur :: greedy [w] rest
      end
  end.

Definition render_run (g : list string) : string := trim (line_text g).

(** *** The wrapping rule as the specification words it

    The specification compares the measured width of a line -- its
    words joined by single spaces, nothing after the last -- with the
    maximum. *)
Definition joined (g : list string) : string := String.concat " " g.

Definition spec_fits (g : list string) : bool :=
  Qle_bool (measure (joined g)) maxW.

Fixpoint spec_greedy (cur : list string) (ws : list string)
  : list (list string) :=
  match ws with
  | [] => [cur]
  | w :: rest =>
      match cur with
      | [] => spec_greedy [w] rest
      | _ :: _ =>
          if spec_fits (cur ++ [w]) then spec_greedy (cur ++ [w]) rest
          else cur :: spec_greedy [w] rest
      end
  end.

End Loop.
End WrapText.

(** ** The platform *)

(** A decoded image: [image.width], [image.height] and the source it
    was decoded from. *)
Record Image := {
  image_width : Z;
  image_height : Z;
  image_src : string
}.

(** What assigning [image.src] leads to: [onload] or [onerror]. *)
Inductive LoadResult :=
| Loaded (image : Image)
| LoadError (event : string).

Module Canvas2D.

(** [ctx.font] is always [`${weight} ${size}px sans-serif`]. *)
Record Font := { font_weight : Z; font_px : Z }.

Inductive FillStyle :=
| CssColor (css : string)
| LinearGradient (x0 y0 x1 y1 : Q) (stops : list (Q * string)).

Inductive TextAlign := AlignStart | AlignLeft.
Inductive TextBaseline := BaselineAlphabetic | BaselineBottom | BaselineMiddle.

Inductive PathItem :=
| RoundRect (x y w h radii : Q).

Inductive CompositeOp := SourceOver | DestinationOut.
Inductive LineCap := CapButt | CapRound.
Inductive LineJoin := JoinMiter | JoinRound.

(** What the touch-up editor paints on its drawing canvas. *)
Inductive EditOp :=
| ClearRect (x y w h : Q)
| Stroke (op : CompositeOp) (style : string) (width : Z)
         (cap : LineCap) (join : LineJoin) (from to : Q * Q).

(** One entry per call that paints; the painted surface is the log in
    call order. *)
Inductive DrawOp :=
| DrawImage (image : Image) (dx dy : Q)
| DrawImageScaled (image : Image) (dx dy dw dh : Q)
| DrawCanvas (content : list EditOp) (dx dy dw dh : Q)
| FillRect (style : FillStyle) (x y w h : Q)
| Fill (style : FillStyle) (path : list PathItem)
| FillText (font : Font) (style : FillStyle) (align : TextAlign)
           (baseline : TextBaseline) (text : string) (x y : Q).

(** The registers of a 2D context that the compositor writes, the
    current path, and the log of paint calls. *)
Record Ctx2D := {
  ctx_font : Font;
  ctx_fillStyle : FillStyle;
  ctx_textAlign : TextAlign;
  ctx_textBaseline : TextBaseline;
  ctx_path : list PathItem;
  ctx_log : list DrawOp
}.

(** The context of a canvas that has just been created or resized. *)
Definition fresh_ctx : Ctx2D := {|
  ctx_font := {| font_weight := 400; font_px := 10 |};
  ctx_fillStyle := CssColor "#000000";
  ctx_textAlign := AlignStart;
  ctx_textBaseline := BaselineAlphabetic;
  ctx_path := [];
  ctx_log := []
|}.

(** A canvas bitmap: its size and what was painted on it. *)
Record Surface := {
  surface_width : Q;
  surface_height : Q;
  surface_ops : list DrawOp
}.

(** *** Drawing code runs in a state monad over the context *)

Definition M (A : Type) : Type := Ctx2D -> A * Ctx2D.

Definition ret {A} (a : A) : M A := fun c => (a, c).

Definition bind {A B} (m : M A) (k : A -> M B) : M B :=
  fun c => let (a, c') := m c in k a c'.

Definition exec {A} (m : M A) (c : Ctx2D) : Ctx2D := snd (m c).

Definition set_font (f : Font) : M unit := fun c =>
  (tt, {| ctx_font := f; ctx_fillStyle := ctx_fillStyle c;
          ctx_textAlign := ctx_textAlign c;
          ctx_textBaseline := ctx_textBaseline c;
          ctx_path := ctx_path c; ctx_log := ctx_log c |}).

Definition set_fillStyle (s : FillStyle) : M unit := fun c =>
  (tt, {| ctx_font := ctx_font c; ctx_fillStyle := s;
          ctx_textAlign := ctx_textAlign c;
          ctx_textBaseline := ctx_textBaseline c;
          ctx_path := ctx_path c; ctx_log := ctx_log c |}).

Definition set_textAlign (a : TextAlign) : M unit := fun c =>
  (tt, {| ctx_font := ctx_font c; ctx_fillStyle := ctx_fillStyle c;
          ctx_textAlign := a;
          ctx_textBaseline := ctx_textBaseline c;
          ctx_path := ctx_path c; ctx_log := ctx_log c |}).

Definition set_textBaseline (b : TextBaseline) : M unit := fun c =>
  (tt, {| ctx_font := ctx_font c; ctx_fillStyle := ctx_fillStyle c;
          ctx_textAlign := ctx_textAlign c;
          ctx_textBaseline := b;
          ctx_path := ctx_path c; ctx_log := ctx_log c |}).

Definition set_path (p : list PathItem) : M unit := fun c =>
  (tt, {| ctx_font := ctx_font c; ctx_fillStyle := ctx_fillStyle c;
          ctx_textAlign := ctx_textAlign c;
          ctx_textBaseline := ctx_textBaseline c;
          ctx_path := p; ctx_log := ctx_log c |}).

Definition paint (op : DrawOp) : M unit := fun c =>
  (tt, {| ctx_font := ctx_font c; ctx_fillStyle := ctx_fillStyle c;
          ctx_textAlign := ctx_textAlign c;
          ctx_textBaseline := ctx_textBaseline c;
          ctx_path := ctx_path c; ctx_log := ctx_log c ++ [op] |}).

Definition get : M Ctx2D := fun c => (c, c).

Definition drawImage (image : Image) (dx dy : Q) : M unit :=
  paint (DrawImage image dx dy).

Definition fillRect (x y w h : Q) : M unit :=
  bind get (fun c => paint (FillRect (ctx_fillStyle c) x y w h)).

Definition beginPath : M unit := set_path [].

Definition roundRect (x y w h radii : Q) : M unit :=
  bind get (fun c => set_path (ctx_path c ++ [RoundRect x y w h radii])).

Definition fill : M unit :=
  bind get (fun c => paint (Fill (ctx_fillStyle c) (ctx_path c))).

Definition fillText (text : string) (x y : Q) : M unit :=
  bind get (fun c =>
    paint (FillText (ctx_font c) (ctx_fillStyle c) (ctx_textAlign c)
                    (ctx_textBaseline c) text x y)).

End Canvas2D.

(** What the browser supplies to the code. *)
Record Platform := {
  (** [ctx.measureText(s).width] under a given [ctx.font] *)
  measureText : Canvas2D.Font -> string -> Q;
  (** the event that follows [image.src = url] *)
  loadImage : string -> LoadResult;
  (** whether [canvas.getContext('2d')] yields a context *)
  getContext2d : bool;
  (** [canvas.toDataURL('image/png')] *)
  toDataURL : Canvas2D.Surface -> string
}.

(** [Math.round]: the nearest integer, halves towards plus infinity. *)
Definition Math_round (x : Q) : Z := Qfloor (x + 0.5).

(** The value a promise is rejected with: [new Error(message)] or the
    event handed to [image.onerror]. *)
Inductive Rejection :=
| ErrorObject (message : string)
| ErrorEvent (event : string).

(** How a promise has settled. *)
Inductive Settled (A : Type) :=
| Resolved (value : A)
| Rejected (reason : Rejection).
Arguments Resolved {A} value.
Arguments Rejected {A} reason.

(** ** [types.ts]

    The interfaces of [types.ts] are in the sources at the end of
    [src/components/VideoCreator.tsx] (lines 230 to 261). *)

(** [StructuredText] (lines 230 to 234). *)
Record StructuredText := {
  tag : string;
  headline : string;
  cta : string
}.

(** [Post] (lines 236 to 242). *)
Record Post := {
  id : string;
  image : string;
  imageMimeType : string;
  texts : list StructuredText;
  activeTextIndex : Z
}.

(** ** [mergeTextAndImage] of [src/utils/fileUtils.ts] *)

Module FileUtils.
Import Canvas2D.

Notation "x <- m ;; k" := (bind m (fun x => k))
  (at level 61, m at next level, right associativity).
Notation "m ;; k" := (bind m (fun _ => k))
  (at level 61, right associativity).

Section Compose.
Variable env : Platform.

(** [context.measureText(s).width] *)
Definition measureWidth (s : string) : M Q :=
  c <- get ;; ret (measureText env (ctx_font c) s).

(** The call [wrapText(ctx, ...)]: the closure measures with the font
    the context carries at that moment. *)
Definition wrapTextM (textToWrap : string) (x y maxW lineH : Q)
  : M (list string) :=
  c <- get ;;
  ret (WrapText.wrapText (measureText env (ctx_font c)) maxW
                         textToWrap x y lineH).

(** The [for] loop that paints the headline lines, from index [i]. *)
Fixpoint fill_headline (remaining : list string) (i : nat) (len : nat)
         (padding headlineY headlineLineHeight : Q) : M unit :=
  match remaining with
  | [] => ret tt
  | l :: rest =>
      fillText l padding
               (headlineY
                - (inject_Z (Z.of_nat len) - 1 - inject_Z (Z.of_nat i))
                  * headlineLineHeight) ;;
      fill_headline rest (S i) len padding headlineY headlineLineHeight
  end.

(** The geometry the [onload] handler derives from the image size. *)
Definition padding_of (width : Z) : Q := inject_Z width * 0.08.
Definition maxWidth_of (width : Z) : Q :=
  inject_Z width - padding_of width * 2.
Definition headlineFontSize_of (width : Z) : Z :=
  Z.max 32 (Math_round (inject_Z width / 15)).
Definition ctaFontSize_of (width : Z) : Z :=
  Z.max 18 (Math_round (inject_Z width / 30)).
Definition tagFontSize_of (width : Z) : Z :=
  Z.max 16 (Math_round (inject_Z width / 35)).

(** The body of [image.onload] between sizing the canvas and
    [resolve]. *)
Definition draw_caption (image : Image) (text : StructuredText) : M unit :=
  let canvas_width := image_width image in
  let canvas_height := image_height image in
  drawImage image 0 0 ;;
  let padding := padding_of canvas_width in
  let maxWidth := maxWidth_of canvas_width in
  let gradient :=
    LinearGradient 0 (inject_Z canvas_height * 0.4) 0 (inject_Z canvas_height)
      [(0, "rgba(0, 0, 0, 0)"); (1, "rgba(0, 0, 0, 0.8)")] in
  set_fillStyle gradient ;;
  fillRect 0 0 (inject_Z canvas_width) (inject_Z canvas_height) ;;
  (* headline metrics *)
  let headlineFontSize := headlineFontSize_of canvas_width in
  set_font {| font_weight := 900; font_px := headlineFontSize |} ;;
  set_fillStyle (CssColor "white") ;;
  set_textAlign AlignLeft ;;
  set_textBaseline BaselineBottom ;;
  let headlineLineHeight := inject_Z headlineFontSize * 1.1 in
  headlineLines <- wrapTextM (headline text) padding 0 maxWidth
                             headlineLineHeight ;;
  let headlineTotalHeight :=
    inject_Z (Z.of_nat (length headlineLines)) * headlineLineHeight in
  (* call to action *)
  let ctaFontSize := ctaFontSize_of canvas_width in
  set_font {| font_weight := 700; font_px := ctaFontSize |} ;;
  ctaMetrics <- measureWidth (cta text) ;;
  let ctaHeight := inject_Z ctaFontSize * 1.6 in
  let ctaY := inject_Z canvas_height - padding in
  let ctaBgPadding := inject_Z ctaFontSize * 0.4 in
  set_fillStyle (CssColor "#DC2626") ;;
  beginPath ;;
  roundRect padding (ctaY - ctaHeight + ctaBgPadding / 2)
            (ctaMetrics + ctaBgPadding * 2) ctaHeight 8 ;;
  fill ;;
  set_fillStyle (CssColor "white") ;;
  set_textBaseline BaselineMiddle ;;
  fillText (cta text) (padding + ctaBgPadding)
           (ctaY - ctaHeight / 2 + ctaBgPadding / 2) ;;
  (* headline *)
  let headlineY := ctaY - ctaHeight - padding * 0.5 in
  set_font {| font_weight := 900; font_px := headlineFontSize |} ;;
  set_textBaseline BaselineBottom ;;
  fill_headline headlineLines 0 (length headlineLines) padding headlineY
                headlineLineHeight ;;
  (* tag *)
  let tagY := headlineY - headlineTotalHeight - padding * 0.5 in
  let tagFontSize := tagFontSize_of canvas_width in
  set_font {| font_weight := 600; font_px := tagFontSize |} ;;
  tagMetrics <- measureWidth (tag text) ;;
  let tagHeight := inject_Z tagFontSize * 1.8 in
  set_fillStyle (CssColor "#F97316") ;;
  beginPath ;;
  roundRect padding (tagY - tagHeight)
            (tagMetrics + inject_Z tagFontSize * 1.5) tagHeight 8 ;;
  fill ;;
  set_fillStyle (CssColor "white") ;;
  set_textBaseline BaselineMiddle ;;
  fillText (tag text) (padding + inject_Z tagFontSize * 0.75)
           (tagY - tagHeight / 2).

(** *** The composed image in closed form

    The layers of the composed image from bottom to top, with the
    context registers resolved at each paint call. *)
Fixpoint headline_layers (font : Font) (remaining : list string)
         (i : nat) (len : nat) (padding headlineY headlineLineHeight : Q)
  : list DrawOp :=
  match remaining with
  | [] => []
  | l :: rest =>
      FillText font (CssColor "white") AlignLeft BaselineBottom l padding
               (headlineY
                - (inject_Z (Z.of_nat len) - 1 - inject_Z (Z.of_nat i))
                  * headlineLineHeight)
      :: headline_layers font rest (S i) len padding headlineY
                         headlineLineHeight
  end.

Definition headline_font (width : Z) : Font :=
  {| font_weight := 900; font_px := headlineFontSize_of width |}.
Definition cta_font (width : Z) : Font :=
  {| font_weight := 700; font_px := ctaFontSize_of width |}.
Definition tag_font (width : Z) : Font :=
  {| font_weight := 600; font_px := tagFontSize_of width |}.

(** The lines [wrapText] returns for the headline. *)
Definition headline_lines (image : Image) (text : StructuredText)
  : list string :=
  let w := image_width image in
  WrapText.wrapText (measureText env (headline_font w)) (maxWidth_of w)
                    (headline text) (padding_of w) 0
                    (inject_Z (headlineFontSize_of w) * 1.1).

Definition caption_layers (image : Image) (text : StructuredText)
  : list DrawOp :=
  let w := image_width image in
  let h := image_height image in
  let padding := padding_of w in
  let headlineLineHeight := inject_Z (headlineFontSize_of w) * 1.1 in
  let lines := headline_lines image text in
  let headlineTotalHeight :=
    inject_Z (Z.of_nat (length lines)) * headlineLineHeight in
  let ctaHeight := inject_Z (ctaFontSize_of w) * 1.6 in
  let ctaY := inject_Z h - padding in
  let ctaBgPadding := inject_Z (ctaFontSize_of w) * 0.4 in
  let headlineY := ctaY - ctaHeight - padding * 0.5 in
  let tagY := headlineY - headlineTotalHeight - padding * 0.5 in
  let tagHeight := inject_Z (tagFontSize_of w) * 1.8 in
  ([DrawImage image 0 0;
    FillRect (LinearGradient 0 (inject_Z h * 0.4) 0 (inject_Z h)
                [(0, "rgba(0, 0, 0, 0)"); (1, "rgba(0, 0, 0, 0.8)")])
             0 0 (inject_Z w) (inject_Z h);
    Fill (CssColor "#DC2626")
         [RoundRect padding (ctaY - ctaHeight + ctaBgPadding / 2)
                    (measureText env (cta_font w) (cta text)
                     + ctaBgPadding * 2)
                    ctaHeight 8];
    FillText (cta_font w) (CssColor "white") AlignLeft BaselineMiddle
             (cta text) (padding + ctaBgPadding)
             (ctaY - ctaHeight / 2 + ctaBgPadding / 2)]
   ++ headline_layers (headline_font w) lines 0 (length lines) padding
                      headlineY headlineLineHeight
   ++ [Fill (CssColor "#F97316")
            [RoundRect padding (tagY - tagHeight)
                       (measureText env (tag_font w) (tag text)
                        + inject_Z (tagFontSize_of w) * 1.5)
                       tagHeight 8];
       FillText (tag_font w) (CssColor "white") AlignLeft BaselineMiddle
                (tag text)
                (padding + inject_Z (tagFontSize_of w) * 0.75)
                (tagY - tagHeight / 2)])%list.

(** A context whose registers are whatever earlier drawing left in
    them, on a cleared bitmap. *)
Definition cleared (c : Ctx2D) : Ctx2D :=
  {| ctx_font := ctx_font c; ctx_fillStyle := ctx_fillStyle c;
     ctx_textAlign := ctx_textAlign c;
     ctx_textBaseline := ctx_textBaseline c;
     ctx_path := ctx_path c; ctx_log := [] |}.

(** The canvas once [onload] has run, starting from the context [c]
    of the canvas. *)
Definition compose_surface_from (c : Ctx2D) (image : Image)
           (text : StructuredText) : Surface :=
  {| surface_width := inject_Z (image_width image);
     surface_height := inject_Z (image_height image);
     surface_ops := ctx_log (exec (draw_caption image text) c) |}.

(** [document.createElement('canvas')] gives a new canvas each call. *)
Definition compose_surface (image : Image) (text : StructuredText)
  : Surface :=
  compose_surface_from fresh_ctx image text.

Definition data_url (mimeType base64 : string) : string :=
  "data:" ++ mimeType ++ ";base64," ++ base64.

(** The promise [mergeTextAndImage] returns, once settled. *)
Definition mergeTextAndImage (base64Image mimeType : string)
           (text : StructuredText) : Settled string :=
  if negb (getContext2d env) then
    Rejected (ErrorObject "Could not get canvas context")
  else
    match loadImage env (data_url mimeType base64Image) with
    | Loaded image => Resolved (toDataURL env (compose_surface image text))
    | LoadError event => Rejected (ErrorEvent event)
    end.

End Compose.
End FileUtils.

(** ** Reading a composed surface *)

Module Layout.
Import Canvas2D.





End Layout.

(** ** Sample environments, for evaluating the code on concrete inputs *)

Module Samples.
Import Canvas2D.

(** A fixed-pitch measure: one unit per character. *)
Definition pitch_measure (s : string) : Q :=
  inject_Z (Z.of_nat (String.length s)).

(** A fixed-pitch font whose advance is half the font size. *)
Definition sample_measureText (f : Font) (s : string) : Q :=
  inject_Z (font_px f) * 0.5 * inject_Z (Z.of_nat (String.length s)).

Definition square_image (url : string) : Image :=
  {| image_width := 1000; image_height := 1000; image_src := url |}.

(** Every image decodes, to 1000 by 1000 pixels. *)
Definition decoding_platform : Platform := {|
  measureText := sample_measureText;
  loadImage := fun url => Loaded (square_image url);
  getContext2d := true;
  toDataURL := fun _ => "data:image/png;base64,iVBORw0KGgo="
|}.

(** No image decodes. *)
Definition failing_platform : Platform := {|
  measureText := sample_measureText;
  loadImage := fun _ => LoadError "error";
  getContext2d := true;
  toDataURL := fun _ => "data:image/png;base64,iVBORw0KGgo="
|}.

(** A platform that measures like [decoding_platform] except in the
    fonts of weight 400 -- the weight of the font a context starts
    with --, where every text measures nothing. *)
Definition unlike_platform : Platform := {|
  measureText := fun f s =>
    if (font_weight f =? 400)%Z then 0 else sample_measureText f s;
  loadImage := fun url => Loaded (square_image url);
  getContext2d := true;
  toDataURL := fun _ => "data:image/png;base64,iVBORw0KGgo="
|}.

(** A platform whose glyphs are twice as wide. *)
Definition wide_platform : Platform := {|
  measureText := fun f s => 2 * sample_measureText f s;
  loadImage := fun url => Loaded (square_image url);
  getContext2d := true;
  toDataURL := fun _ => "data:image/png;base64,iVBORw0KGgo="
|}.

Definition sample_caption : StructuredText := {|
  tag := "DICA";
  headline := "Como crescer no Instagram em 2024";
  cta := "SAIBA MAIS"
|}.

Definition empty_headline_caption : StructuredText := {|
  tag := "DICA";
  headline := "";
  cta := "SAIBA MAIS"
|}.

End Samples.

(** ** [src/components/PostCard.tsx] and [src/App.tsx] *)

Module PostCard.

(** [array[i]] for a number [i]: [undefined] outside the array. *)
Definition js_index {A} (l : list A) (i : Z) : option A :=
  if (i <? 0)%Z then None else nth_error l (Z.to_nat i).

(** What a handler does to the outside. *)
Inductive Effect :=
| DownloadImage (imageDataUrl fileName : string)
| ConsoleError (message : string) (reason : Rejection)
| Alert (message : string).

(** [activeText]; [null] and [undefined] are both [None]: the only use
    of a missing value is the test [!activeText]. *)
Definition activeText (post : Post) : option StructuredText :=
  if (0 <? length (texts post))%nat
  then js_index (texts post) (activeTextIndex post)
  else None.

Definition fileName_of (post : Post) : string :=
  "genius-post-" ++ substring 0 8 (id post) ++ ".png".

(** [handleDownload], by its effects in order.  The [isDownloading] flag
    drives the spinner only and is left out. *)
Definition handleDownload (env : Platform) (post : Post) : list Effect :=
  match activeText post with
  | None =>
      [DownloadImage (FileUtils.data_url (imageMimeType post) (image post))
                     (fileName_of post)]
  | Some text =>
      match FileUtils.mergeTextAndImage env (image post)
                                        (imageMimeType post) text with
      | Resolved mergedImageDataUrl =>
          [DownloadImage mergedImageDataUrl (fileName_of post)]
      | Rejected error =>
          [ConsoleError "Failed to merge image and text:" error;
           Alert "Desculpe, ocorreu um erro ao criar a imagem do seu post."]
      end
  end.

(** [handleCycleCaption]: the arguments it passes to [onCaptionChange].
    [%] is the remainder with the sign of the dividend.  (With no caption
    the source computes [NaN]; the button that calls the handler is
    rendered for more than one caption only.) *)
Definition handleCycleCaption (post : Post) : string * Z :=
  let newIndex :=
    Z.rem (activeTextIndex post + 1) (Z.of_nat (length (texts post))) in
  (id post, newIndex).

(** [{ ...p, activeTextIndex: newIndex }] *)
Definition with_activeTextIndex (p : Post) (newIndex : Z) : Post :=
  {| id := id p; image := image p; imageMimeType := imageMimeType p;
     texts := texts p; activeTextIndex := newIndex |}.

(** [handleCaptionChange] of [App.tsx], on the [posts] state. *)
Definition handleCaptionChange (currentPosts : option (list Post))
           (postId : string) (newIndex : Z) : option (list Post) :=
  match currentPosts with
  | None => None
  | Some ps =>
      Some (map (fun p => if String.eqb (id p) postId
                          then with_activeTextIndex p newIndex else p) ps)
  end.

(** One click on the cycle button of the card of [post]. *)
Definition cycle_click (currentPosts : option (list Post)) (post : Post)
  : option (list Post) :=
  let '(postId, newIndex) := handleCycleCaption post in
  handleCaptionChange currentPosts postId newIndex.

(** The post of a card after one click on its cycle button: the entry
    [handleCaptionChange] writes in its place. *)
Definition cycled (post : Post) : Post :=
  with_activeTextIndex post (snd (handleCycleCaption post)).

(** Whether an effect reports a failure to the user or the console. *)
Definition is_failure (e : Effect) : bool :=
  match e with
  | DownloadImage _ _ => false
  | ConsoleError _ _ => true
  | Alert _ => true
  end.

Definition stale_post : Post := {|
  id := "3f2b8c1a-7d4e-4b6f-9a01-5c2d8e7f6a90";
  image := "aW1n";
  imageMimeType := "image/png";
  texts := [Samples.sample_caption];
  activeTextIndex := 3
|}.

Definition three_caption_post : Post := {|
  id := "3f2b8c1a-7d4e-4b6f-9a01-5c2d8e7f6a90";
  image := "aW1n";
  imageMimeType := "image/png";
  texts := [Samples.sample_caption; Samples.empty_headline_caption;
            Samples.sample_caption];
  activeTextIndex := 1
|}.

End PostCard.

(** ** [src/components/ComicEditor.tsx] *)

Module ComicEditor.
Import Canvas2D.

Inductive Tool := Brush | Eraser.

(** The registers of the drawing canvas' context that the editor writes,
    and the log of what was painted on the drawing canvas. *)
Record EditCtx := {
  globalCompositeOperation : CompositeOp;
  strokeStyle : string;
  lineWidth : Z;
  lineCap : LineCap;
  lineJoin : LineJoin;
  edit_log : list EditOp
}.

(** The context of a canvas that has just been created or resized. *)
Definition fresh_edit_ctx : EditCtx := {|
  globalCompositeOperation := SourceOver;
  strokeStyle := "#000000";
  lineWidth := 1;
  lineCap := CapButt;
  lineJoin := JoinMiter;
  edit_log := []
|}.

(** The inline style the editor writes on the container. *)
Record ContainerStyle := {
  style_width : Q;
  style_height : Q;
  backgroundImage : string;
  backgroundSize : string;
  backgroundRepeat : string;
  backgroundPosition : string
}.

(** The component: its React state, the [lastPos] ref, and the two DOM
    elements behind [canvasRef] and [containerRef].  [canvas_width] and
    [canvas_height] are what [canvas.width] and [canvas.height] read,
    the size of the bitmap in whole pixels; [context] is what
    [getContext('2d')] returns on it. *)
Record Editor := {
  isDrawing : bool;
  tool : Tool;
  brushSize : Z;
  brushColor : string;
  lastPos : Q * Q;
  canvas_width : Q;
  canvas_height : Q;
  context : option EditCtx;
  container_style : option ContainerStyle
}.

Definition mount (has_context : bool) : Editor := {|
  isDrawing := false;
  tool := Brush;
  brushSize := 10;
  brushColor := "#000000";
  lastPos := (0, 0);
  canvas_width := 300;
  canvas_height := 150;
  context := if has_context then Some fresh_edit_ctx else None;
  container_style := None
|}.

Record Viewport := { innerWidth : Z; innerHeight : Z }.

Record MouseEvent := {
  clientX : Q; clientY : Q;
  (** [getBoundingClientRect()] of the canvas when the event fires *)
  rect_left : Q; rect_top : Q
}.

(** *** Field updates *)

Definition set_isDrawing (b : bool) (s : Editor) : Editor :=
  {| isDrawing := b; tool := tool s; brushSize := brushSize s;
     brushColor := brushColor s; lastPos := lastPos s;
     canvas_width := canvas_width s; canvas_height := canvas_height s;
     context := context s; container_style := container_style s |}.

Definition set_tool (t : Tool) (s : Editor) : Editor :=
  {| isDrawing := isDrawing s; tool := t; brushSize := brushSize s;
     brushColor := brushColor s; lastPos := lastPos s;
     canvas_width := canvas_width s; canvas_height := canvas_height s;
     context := context s; container_style := container_style s |}.

Definition set_brushSize (n : Z) (s : Editor) : Editor :=
  {| isDrawing := isDrawing s; tool := tool s; brushSize := n;
     brushColor := brushColor s; lastPos := lastPos s;
     canvas_width := canvas_width s; canvas_height := canvas_height s;
     context := context s; container_style := container_style s |}.

Definition set_brushColor (c : string) (s : Editor) : Editor :=
  {| isDrawing := isDrawing s; tool := tool s; brushSize := brushSize s;
     brushColor := c; lastPos := lastPos s;
     canvas_width := canvas_width s; canvas_height := canvas_height s;
     context := context s; container_style := container_style s |}.

Definition set_lastPos (p : Q * Q) (s : Editor) : Editor :=
  {| isDrawing := isDrawing s; tool := tool s; brushSize := brushSize s;
     brushColor := brushColor s; lastPos := p;
     canvas_width := canvas_width s; canvas_height := canvas_height s;
     context := context s; container_style := container_style s |}.

Definition set_context (c : option EditCtx) (s : Editor) : Editor :=
  {| isDrawing := isDrawing s; tool := tool s; brushSize := brushSize s;
     brushColor := brushColor s; lastPos := lastPos s;
     canvas_width := canvas_width s; canvas_height := canvas_height s;
     context := c; container_style := container_style s |}.

Definition set_gco (op : CompositeOp) (c : EditCtx) : EditCtx :=
  {| globalCompositeOperation := op; strokeStyle := strokeStyle c;
     lineWidth := lineWidth c; lineCap := lineCap c;
     lineJoin := lineJoin c; edit_log := edit_log c |}.

Definition set_strokeStyle (st : string) (c : EditCtx) : EditCtx :=
  {| globalCompositeOperation := globalCompositeOperation c;
     strokeStyle := st;
     lineWidth := lineWidth c; lineCap := lineCap c;
     lineJoin := lineJoin c; edit_log := edit_log c |}.

Definition set_line (w : Z) (cap : LineCap) (join : LineJoin)
           (c : EditCtx) : EditCtx :=
  {| globalCompositeOperation := globalCompositeOperation c;
     strokeStyle := strokeStyle c;
     lineWidth := w; lineCap := cap; lineJoin := join;
     edit_log := edit_log c |}.

(** [beginPath(); moveTo(from); lineTo(to)] ... [stroke(); closePath()]:
    one segment painted with the registers as they are at [stroke()]. *)
Definition stroke_segment (from to : Q * Q) (c : EditCtx) : EditCtx :=
  {| globalCompositeOperation := globalCompositeOperation c;
     strokeStyle := strokeStyle c;
     lineWidth := lineWidth c; lineCap := lineCap c;
     lineJoin := lineJoin c;
     edit_log := edit_log c
                 ++ [Stroke (globalCompositeOperation c) (strokeStyle c)
                            (lineWidth c) (lineCap c) (lineJoin c)
                            from to] |}.

(** *** Opening: the [useEffect] on [imageDataUrl] *)

(** The display size computed in [image.onload], in the arithmetic of
    numbers: every product and quotient is rounded, and [0.8] and [0.7]
    are the binary64 values of the literals.  [image.width] and
    [image.height] are integers, which are numbers as they are.  (On an
    image of height zero the source divides by zero; the properties
    below concern images of positive size.) *)
Definition display_size (vp : Viewport) (image : Image) : Q * Q :=
  let maxWidth :=
    JsNumber.mul (inject_Z (innerWidth vp)) (JsNumber.binary64 0.8) in
  let maxHeight :=
    JsNumber.mul (inject_Z (innerHeight vp)) (JsNumber.binary64 0.7) in
  let width := inject_Z (image_width image) in
  let height := inject_Z (image_height image) in
  let ratio := JsNumber.div width height in
  let '(width, height) :=
    if Qgtb width maxWidth then (maxWidth, JsNumber.div maxWidth ratio)
    else (width, height) in
  let '(width, height) :=
    if Qgtb height maxHeight then (JsNumber.mul maxHeight ratio, maxHeight)
    else (width, height) in
  (width, height).

(** Assigning a number to [canvas.width] or [canvas.height].  The
    attribute is an [unsigned long] that reflects the content attribute:
    the number is converted to an integer, and an integer above
    [2^31 - 1] gives the default of the attribute. *)
Definition canvas_dimension (default : Z) (x : Q) : Z :=
  let n := JsNumber.to_unsigned_long x in
  if (n <=? 2147483647)%Z then n else default.

(** [image.onload]: sizes the container and the canvas, puts the image
    behind the canvas as the container's CSS background, clears the
    canvas.  The container takes the display size as it is, the canvas
    its integer part.  Resizing a canvas resets its context and
    bitmap. *)
Definition onload (vp : Viewport) (imageDataUrl : string) (image : Image)
           (s : Editor) : Editor :=
  let '(width, height) := display_size vp image in
  {| isDrawing := isDrawing s; tool := tool s; brushSize := brushSize s;
     brushColor := brushColor s; lastPos := lastPos s;
     canvas_width := inject_Z (canvas_dimension 300 width);
     canvas_height := inject_Z (canvas_dimension 150 height);
     context :=
       Some {| globalCompositeOperation := SourceOver;
               strokeStyle := "#000000";
               lineWidth := 1; lineCap := CapButt; lineJoin := JoinMiter;
               edit_log := [ClearRect 0 0 width height] |};
     container_style :=
       Some {| style_width := width; style_height := height;
               backgroundImage := "url(" ++ imageDataUrl ++ ")";
               backgroundSize := "contain";
               backgroundRepeat := "no-repeat";
               backgroundPosition := "center" |} |}.

(** The effect itself: nothing is set up without a context, and the
    image has an [onload] handler only. *)
Definition open (env : Platform) (vp : Viewport) (imageDataUrl : string)
           (s : Editor) : Editor :=
  match context s with
  | None => s
  | Some _ =>
      match loadImage env imageDataUrl with
      | Loaded image => onload vp imageDataUrl image s
      | LoadError _ => s
      end
  end.

(** *** Pointer handlers *)

Definition getMousePos (e : MouseEvent) : Q * Q :=
  (clientX e - rect_left e, clientY e - rect_top e).

Definition startDrawing (e : MouseEvent) (s : Editor) : Editor :=
  set_isDrawing true (set_lastPos (getMousePos e) s).

Definition draw (e : MouseEvent) (s : Editor) : Editor :=
  if negb (isDrawing s) then s
  else
    match context s with
    | None => s
    | Some c =>
        let currentPos := getMousePos e in
        let c := set_line (brushSize s) CapRound JoinRound c in
        let c :=
          match tool s with
          | Brush => set_strokeStyle (brushColor s) (set_gco SourceOver c)
          | Eraser => set_gco DestinationOut c
          end in
        let c := stroke_segment (lastPos s) currentPos c in
        set_lastPos currentPos (set_context (Some c) s)
    end.

Definition stopDrawing (s : Editor) : Editor :=
  if isDrawing s then
    let s :=
      match context s with
      | Some c => set_context (Some (set_gco SourceOver c)) s
      | None => s
      end in
    set_isDrawing false s
  else s.

(** *** Saving and closing *)

(** The props [onSave] and [onClose]. *)
Inductive Callback :=
| OnSave (newImageBase64 : option string)
| OnClose.

(** [handleSave]: the callbacks it ends up invoking.  It writes no
    component state.  [getContext2d env] stands for the context of the
    canvas it creates; the two refs are the mounted elements. *)
Definition handleSave (env : Platform) (imageDataUrl : string)
           (s : Editor) : list Callback :=
  if getContext2d env then
    let width := canvas_width s in
    let height := canvas_height s in
    match loadImage env imageDataUrl with
    | Loaded image =>
        let drawing :=
          match context s with Some c => edit_log c | None => [] end in
        let finalCanvas :=
          {| surface_width := width; surface_height := height;
             surface_ops := [DrawImageScaled image 0 0 width height;
                             DrawCanvas drawing 0 0 width height] |} in
        let dataUrl :=
          nth_error (JsString.split "," (toDataURL env finalCanvas)) 1 in
        [OnSave dataUrl]
    | LoadError _ => []
    end
  else [].

(** *** The component as a transition system *)

Inductive Event :=
| MouseDown (e : MouseEvent)
| MouseMove (e : MouseEvent)
| MouseUp
| MouseLeave
| ClickBrush
| ClickEraser
| PickColor (c : string)
| SlideSize (n : Z)
| ImageLoaded (vp : Viewport) (image : Image)
| ClickSave.

Definition step (imageDataUrl : string) (s : Editor) (ev : Event) : Editor :=
  match ev with
  | MouseDown e => startDrawing e s
  | MouseMove e => draw e s
  | MouseUp => stopDrawing s
  | MouseLeave => stopDrawing s
  | ClickBrush => set_tool Brush s
  | ClickEraser => set_tool Eraser s
  | PickColor c => set_brushColor c s
  | SlideSize n => set_brushSize n s
  | ImageLoaded vp image =>
      match context s with
      | Some _ => onload vp imageDataUrl image s
      | None => s
      end
  | ClickSave => s
  end.

Definition run (imageDataUrl : string) (s : Editor) (evs : list Event)
  : Editor :=
  fold_left (step imageDataUrl) evs s.

(** The invariant of the transition system: between strokes the
    context composites normally. *)
Definition idle_source_over (s : Editor) : Prop :=
  isDrawing s = false ->
  forall c, context s = Some c -> globalCompositeOperation c = SourceOver.

(** Two pointer positions and a window, for concrete runs. *)
Definition pointer_a : MouseEvent :=
  {| clientX := 120; clientY := 90; rect_left := 100; rect_top := 50 |}.
Definition pointer_b : MouseEvent :=
  {| clientX := 160; clientY := 95; rect_left := 100; rect_top := 50 |}.
Definition sample_viewport : Viewport :=
  {| innerWidth := 1001; innerHeight := 800 |}.
Definition hd_window : Viewport :=
  {| innerWidth := 1280; innerHeight := 720 |}.
Definition laptop_window : Viewport :=
  {| innerWidth := 1366; innerHeight := 768 |}.

(** An image of a given size, and a platform that decodes every data
    URL to a given image. *)
Definition sized (width height : Z) : Image :=
  {| image_width := width; image_height := height;
     image_src := "data:image/png;base64,aW1n" |}.

Definition decoding_to (image : Image) : Platform := {|
  measureText := Samples.sample_measureText;
  loadImage := fun _ => Loaded image;
  getContext2d := true;
  toDataURL := fun _ => "data:image/png;base64,iVBORw0KGgo="
|}.

End ComicEditor.


(** ** Reading painted texts *)

Module Painted.
Import Canvas2D.



End Painted.

(** ** Thrown values and outcomes of awaited calls *)

(** What a [catch] clause can receive: an [Error] instance with its
    [name] and [message], or any other value, with what [toString()]
    gives for it ([None] for [null] and [undefined], which have no
    [toString]). *)
Inductive Thrown :=
| ThrownError (name message : string)
| ThrownValue (text : option string).

(** How an awaited call ends. *)
Inductive Outcome (A : Type) :=
| Returned (value : A)
| Threw (e : Thrown).
Arguments Returned {A} value.
Arguments Threw {A} e.

(** ** The handlers of [src/App.tsx] on the [posts] state *)

Module App.
Import PostCard.

(** [keyof StructuredText] *)
Inductive CaptionPart := PartTag | PartHeadline | PartCta.

(** [text[part]] *)
Definition get_part (part : CaptionPart) (t : StructuredText) : string :=
  match part with
  | PartTag => tag t
  | PartHeadline => headline t
  | PartCta => cta t
  end.

(** [text[part] = value] *)
Definition set_part (part : CaptionPart) (value : string)
           (t : StructuredText) : StructuredText :=
  match part with
  | PartTag => {| tag := value; headline := headline t; cta := cta t |}
  | PartHeadline => {| tag := tag t; headline := value; cta := cta t |}
  | PartCta => {| tag := tag t; headline := headline t; cta := value |}
  end.

(** [newTexts[i][part] = value] on an array that has an element at [i]. *)
Fixpoint set_part_at (i : nat) (part : CaptionPart) (value : string)
         (ts : list StructuredText) : list StructuredText :=
  match ts, i with
  | [], _ => []
  | t :: rest, O => set_part part value t :: rest
  | t :: rest, S i' => t :: set_part_at i' part value rest
  end.

(** [{ ...p, texts: newTexts }] *)
Definition with_texts (p : Post) (newTexts : list StructuredText) : Post :=
  {| id := id p; image := image p; imageMimeType := imageMimeType p;
     texts := newTexts; activeTextIndex := activeTextIndex p |}.

(** [{ ...p, image: newImageBase64 }] *)
Definition with_image (p : Post) (newImageBase64 : string) : Post :=
  {| id := id p; image := newImageBase64; imageMimeType := imageMimeType p;
     texts := texts p; activeTextIndex := activeTextIndex p |}.

(** The callback mapped over the posts by [handleCaptionPartChange].
    The copy through [JSON.parse(JSON.stringify(...))] yields captions
    with the same three strings. *)
Definition change_part (postId : string) (part : CaptionPart)
           (value : string) (p : Post) : Post :=
  if String.eqb (id p) postId then
    match js_index (texts p) (activeTextIndex p) with
    | Some _ =>
        with_texts p (set_part_at (Z.to_nat (activeTextIndex p)) part value
                                  (texts p))
    | None => p
    end
  else p.

Definition handleCaptionPartChange (currentPosts : option (list Post))
           (postId : string) (part : CaptionPart) (value : string)
  : option (list Post) :=
  match currentPosts with
  | None => None
  | Some ps => Some (map (change_part postId part value) ps)
  end.

(** What [App]'s handlers do besides updating state. *)
Inductive AppEffect :=
| LogError (e : Thrown)
| ShowAlert (message : string).

(** [e instanceof Error ? e.message : fallback] *)
Definition message_or (fallback : string) (e : Thrown) : string :=
  match e with
  | ThrownError _ message => message
  | ThrownValue _ => fallback
  end.

(** [handleImageEdit]: [posts] is the state the callback closed over,
    [currentPosts] the state when the edit comes back; [editImageAPI] is
    the awaited call.  The result is the state afterwards and the effects
    in order. *)
Definition handleImageEdit
           (editImageAPI : string -> string -> string -> Outcome string)
           (posts currentPosts : option (list Post))
           (postId editPrompt : string)
  : option (list Post) * list AppEffect :=
  let postToEdit :=
    match posts with
    | Some ps => find (fun p => String.eqb (id p) postId) ps
    | None => None
    end in
  match postToEdit with
  | None => (currentPosts, [])
  | Some postToEdit =>
      match editImageAPI (image postToEdit) (imageMimeType postToEdit)
                         editPrompt with
      | Returned newImageBase64 =>
          (match currentPosts with
           | Some ps =>
               Some (map (fun p => if String.eqb (id p) postId
                                   then with_image p newImageBase64 else p)
                         ps)
           | None => None
           end, [])
      | Threw e =>
          (currentPosts,
           [LogError e;
            ShowAlert
              (message_or
                 "Falha ao editar a imagem. Por favor, tente novamente." e)])
      end
  end.

(** *** The card's own handlers ([src/components/PostCard.tsx]) *)

(** [handleTextUpdate]: the call to [onCaptionPartChange] it makes, if
    any; [textContent] is [e.currentTarget.textContent], which may be
    [null]. *)
Definition handleTextUpdate (post : Post) (part : CaptionPart)
           (textContent : option string)
  : option (string * CaptionPart * string) :=
  match activeText post with
  | None => None
  | Some t =>
      let differs :=
        match textContent with
        | Some c => negb (String.eqb c (get_part part t))
        | None => true
        end in
      if differs then
        Some (id post, part,
              match textContent with
              | Some c => c
              | None => ""
              end)
      else None
  end.

(** *** The state as a transition system *)

(** The index of a post points at one of its captions, when it has
    any. *)
Definition index_ok (p : Post) : Prop :=
  texts p = [] \/ (0 <= activeTextIndex p < Z.of_nat (length (texts p)))%Z.

(** What can happen to a list of posts once generated: a click on the
    cycle button of the card of a post (rendered for more than one
    caption), an edited caption part, an image edit with whatever the
    service answers. *)
Inductive Action :=
| CycleCaption (post : Post)
| EditPart (postId : string) (part : CaptionPart) (value : string)
| EditImage (editImageAPI : string -> string -> string -> Outcome string)
            (postId editPrompt : string).

Definition enabled (ps : list Post) (a : Action) : Prop :=
  match a with
  | CycleCaption post => In post ps /\ (1 < length (texts post))%nat
  | _ => True
  end.

Definition act (ps : list Post) (a : Action) : list Post :=
  let next :=
    match a with
    | CycleCaption post => cycle_click (Some ps) post
    | EditPart postId part value =>
        handleCaptionPartChange (Some ps) postId part value
    | EditImage editImageAPI postId editPrompt =>
        fst (handleImageEdit editImageAPI (Some ps) (Some ps) postId
                             editPrompt)
    end in
  match next with
  | Some ps' => ps'
  | None => ps
  end.

Definition two_posts : list Post :=
  [three_caption_post;
   {| id := "9b1d4c7e-2a6f-4e13-8c55-0f7a3d9e1b24";
      image := "b3V0cmE="; imageMimeType := "image/jpeg";
      texts := []; activeTextIndex := 0 |}].

End App.

(** ** [src/services/geminiService.ts] *)

Module Gemini.

(** *** String primitives *)

(** The string of the one code unit [n], for the letters outside
    ASCII in the messages of the source. *)
Definition latin1 (n : nat) : string := String (ascii_of_nat n) "".

(** [String.prototype.toLowerCase] on code units below 256: [A]-[Z] and
    the capital letters from 192 to 222 (215 is the multiplication sign)
    move up by 32. *)
Definition lower_char (c : ascii) : ascii :=
  let n := nat_of_ascii c in
  if ((65 <=? n) && (n <=? 90)
      || (192 <=? n) && (n <=? 222) && negb (n =? 215))%nat
  then ascii_of_nat (n + 32) else c.

Fixpoint toLowerCase (s : string) : string :=
  match s with
  | EmptyString => EmptyString
  | String c rest => String (lower_char c) (toLowerCase rest)
  end.

(** [hay.includes(needle)] *)
Fixpoint includes (hay needle : string) : bool :=
  String.prefix needle hay
  || match hay with
     | EmptyString => false
     | String _ rest => includes rest needle
     end.

(** [e.toString()]: for an [Error], the name and the message joined by
    a colon, or the one of them that is not empty. *)
Definition thrown_toString (e : Thrown) : option string :=
  match e with
  | ThrownError name message =>
      Some (if String.eqb name "" then message
            else if String.eqb message "" then name
            else name ++ ": " ++ message)
  | ThrownValue text => text
  end.

(** *** [withRetry] *)

(** [e?.toString().toLowerCase() || ''] and the test made on it. *)
Definition errorMessage_of (e : Thrown) : string :=
  match thrown_toString e with
  | Some s => toLowerCase s
  | None => ""
  end.

Definition is_rate_limit (e : Thrown) : bool :=
  includes (errorMessage_of e) "429"
  || includes (errorMessage_of e) "resource_exhausted".

(** What [withRetry] does besides returning, in order: an invocation of
    [apiCall], the [console.warn], the wait. *)
Inductive RetryEvent :=
| Attempt (i : nat)
| Warn (delaySeconds : Q) (attempt maxRetries : nat)
| Sleep (delay : Q).

Definition RATE_LIMIT_MESSAGE : string :=
  "Voc" ++ latin1 234 ++ " atingiu o limite de solicita" ++ latin1 231
  ++ latin1 245
  ++ "es. Por favor, aguarde um pouco e tente novamente.".

(** The [for] loop of [withRetry] from iteration [i], with [remaining]
    iterations to go; [apiCall i] is how invocation number [i] of the
    wrapped call ends. *)
Fixpoint withRetry_from {A} (apiCall : nat -> Outcome A)
         (remaining i maxRetries : nat) (delay : Q)
  : Outcome A * list RetryEvent :=
  match remaining with
  | O => (Threw (ThrownError "Error" RATE_LIMIT_MESSAGE), [])
  | S remaining' =>
      match apiCall i with
      | Returned value => (Returned value, [Attempt i])
      | Threw e =>
          if is_rate_limit e then
            let (result, trace) :=
              withRetry_from apiCall remaining' (S i) maxRetries
                             (delay * 2) in
            (result,
             Attempt i :: Warn (delay / 1000) (S i) maxRetries
             :: Sleep delay :: trace)
          else (Threw e, [Attempt i])
      end
  end.

Definition withRetry {A} (apiCall : nat -> Outcome A)
           (maxRetries : nat) (initialDelay : Q)
  : Outcome A * list RetryEvent :=
  withRetry_from apiCall maxRetries 0 maxRetries initialDelay.

(** The defaults [maxRetries = 3], [initialDelay = 5000]. *)
Definition withRetry_default {A} (apiCall : nat -> Outcome A)
  : Outcome A * list RetryEvent :=
  withRetry apiCall 3 5000.

(** The attempts and the waits of a trace. *)
Definition attempts (trace : list RetryEvent) : list nat :=
  flat_map (fun ev => match ev with Attempt i => [i] | _ => [] end) trace.

Definition sleeps (trace : list RetryEvent) : list Q :=
  flat_map (fun ev => match ev with Sleep d => [d] | _ => [] end) trace.

(** The waits of an exponential backoff: [k] delays from [d], each
    twice the one before. *)
Fixpoint backoff (d : Q) (k : nat) : list Q :=
  match k with
  | O => []
  | S k' => d :: backoff (d * 2) k'
  end.

(** [2^k] as a number. *)
Fixpoint pow2 (k : nat) : Q :=
  match k with
  | O => 1
  | S k' => 2 * pow2 k'
  end.

Definition total (l : list Q) : Q := fold_right Qplus 0 l.

(** *** The remote service *)

Definition MODEL_IMAGE_GENERATION : string := "imagen-4.0-generate-001".
Definition MODEL_IMAGE_EDITING : string := "gemini-2.5-flash-image".

(** The request of [editImage]: the model, the two parts of the
    contents, the response modalities. *)
Record EditRequest := {
  edit_model : string;
  edit_inlineData : string;
  edit_mimeType : string;
  edit_text : string;
  edit_responseModalities : list string
}.

(** The request of [generateImage]. *)
Record ImagesRequest := {
  images_model : string;
  images_prompt : string;
  images_numberOfImages : Z;
  images_outputMimeType : string;
  images_aspectRatio : string
}.

Record InlineData := { inline_data : string; inline_mimeType : string }.

(** A part of a candidate: its [inlineData], if it has one. *)
Record Part := { inlineData : option InlineData; part_text : option string }.

(** A candidate: [finishReason] and [content?.parts]. *)
Record Candidate := {
  finishReason : option string;
  content_parts : option (list Part)
}.

(** What [editImage] reads of a [GenerateContentResponse]:
    [candidates] and [promptFeedback?.blockReason]. *)
Record ContentResponse := {
  candidates : option (list Candidate);
  blockReason : option string
}.

(** A generated image: [image?.imageBytes] and [image?.mimeType]. *)
Record GeneratedImage := {
  imageBytes : option string;
  generated_mimeType : option string
}.

(** [response.generatedImages] *)
Record ImagesResponse := { generatedImages : option (list GeneratedImage) }.

(** The service and the environment: how invocation [i] of a request
    ends, and [process.env.API_KEY]. *)
Record Service := {
  generateContent : EditRequest -> nat -> Outcome ContentResponse;
  generateImages : ImagesRequest -> nat -> Outcome ImagesResponse;
  API_KEY : option string
}.

(** A string in a condition: [undefined] and the empty string are
    falsy. *)
Definition truthy (s : option string) : bool :=
  match s with
  | Some v => negb (String.eqb v "")
  | None => false
  end.

(** [createAIInstance]: the error it throws, if it does. *)
Definition createAIInstance (svc : Service) : option Thrown :=
  if truthy (API_KEY svc) then None
  else Some (ThrownError "Error" "API_KEY environment variable is not set.").

(** *** [editImage] *)

Definition edicao : string :=
  "edi" ++ latin1 231 ++ latin1 227 ++ "o".
Definition nao : string := "n" ++ latin1 227 ++ "o".

Definition BLOCKED_MESSAGE (blockReason : string) : string :=
  "A " ++ edicao ++ " da imagem foi bloqueada por motivos de seguran"
  ++ latin1 231 ++ "a: " ++ blockReason
  ++ ". Por favor, tente um prompt diferente.".

Definition EMPTY_RESPONSE_MESSAGE : string :=
  "A " ++ edicao
  ++ " da imagem falhou: A API retornou uma resposta vazia ou inv"
  ++ latin1 225 ++ "lida.".

Definition NO_IMAGE_MESSAGE : string :=
  "A IA " ++ nao
  ++ " conseguiu editar a imagem com este comando. Tente ser mais claro ou alterar o seu pedido.".

Definition NO_DATA_MESSAGE : string :=
  "A " ++ edicao ++ " da imagem falhou ou " ++ nao ++ " retornou dados.".

(** What [editImage] does with the response once it has it.  (The
    [console.error] calls before two of the throws are left out.) *)
Definition read_edit_response (response : ContentResponse) : Outcome string :=
  let firstCandidate :=
    match candidates response with
    | Some (c :: _) => Some c
    | _ => None
    end in
  if truthy (blockReason response) then
    Threw (ThrownError "Error"
             (BLOCKED_MESSAGE match blockReason response with
                              | Some r => r
                              | None => ""
                              end))
  else
    match firstCandidate with
    | None => Threw (ThrownError "Error" EMPTY_RESPONSE_MESSAGE)
    | Some firstCandidate =>
        if match finishReason firstCandidate with
           | Some r => String.eqb r "NO_IMAGE"
           | None => false
           end
        then Threw (ThrownError "Error" NO_IMAGE_MESSAGE)
        else
          let imagePart :=
            match content_parts firstCandidate with
            | Some parts =>
                find (fun part => match inlineData part with
                                  | Some _ => true
                                  | None => false
                                  end) parts
            | None => None
            end in
          match imagePart with
          | Some {| inlineData := Some d |} => Returned (inline_data d)
          | _ => Threw (ThrownError "Error" NO_DATA_MESSAGE)
          end
    end.

Definition edit_request (base64Image mimeType editPrompt : string)
  : EditRequest :=
  {| edit_model := MODEL_IMAGE_EDITING;
     edit_inlineData := base64Image;
     edit_mimeType := mimeType;
     edit_text := editPrompt;
     edit_responseModalities := ["IMAGE"] |}.

Definition editImage (svc : Service)
           (base64Image mimeType editPrompt : string)
  : Outcome string * list RetryEvent :=
  match createAIInstance svc with
  | Some e => (Threw e, [])
  | None =>
      let (response, trace) :=
        withRetry_default
          (generateContent svc (edit_request base64Image mimeType editPrompt))
      in
      match response with
      | Returned response => (read_edit_response response, trace)
      | Threw e => (Threw e, trace)
      end
  end.

(** *** [generateImage] *)

Inductive AspectRatio := Ratio_1_1 | Ratio_4_5 | Ratio_9_16.

Definition ratio_string (r : AspectRatio) : string :=
  match r with
  | Ratio_1_1 => "1:1"
  | Ratio_4_5 => "4:5"
  | Ratio_9_16 => "9:16"
  end.

Definition apiAspectRatio (aspectRatio : AspectRatio) : string :=
  match aspectRatio with
  | Ratio_4_5 => "3:4"
  | _ => ratio_string aspectRatio
  end.

Definition NO_GENERATED_IMAGE_MESSAGE : string :=
  "A IA " ++ nao
  ++ " conseguiu gerar uma imagem para este comando. Tente ser mais descritivo ou alterar o seu pedido.".

Definition images_request (prompt : string) (aspectRatio : AspectRatio)
  : ImagesRequest :=
  {| images_model := MODEL_IMAGE_GENERATION;
     images_prompt := prompt;
     images_numberOfImages := 1;
     images_outputMimeType := "image/png";
     images_aspectRatio := apiAspectRatio aspectRatio |}.

(** What [generateImage] does with the response: the pair
    [{ image, mimeType }] or the error. *)
Definition read_images_response (response : ImagesResponse)
  : Outcome (string * string) :=
  let generatedImage :=
    match generatedImages response with
    | Some (g :: _) => Some g
    | _ => None
    end in
  match generatedImage with
  | Some g =>
      if truthy (imageBytes g) then
        Returned (match imageBytes g with Some b => b | None => "" end,
                  if truthy (generated_mimeType g)
                  then match generated_mimeType g with
                       | Some m => m
                       | None => ""
                       end
                  else "image/png")
      else Threw (ThrownError "Error" NO_GENERATED_IMAGE_MESSAGE)
  | None => Threw (ThrownError "Error" NO_GENERATED_IMAGE_MESSAGE)
  end.

Definition generateImage (svc : Service) (prompt : string)
           (aspectRatio : AspectRatio)
  : Outcome (string * string) * list RetryEvent :=
  match createAIInstance svc with
  | Some e => (Threw e, [])
  | None =>
      let (response, trace) :=
        withRetry_default (generateImages svc (images_request prompt aspectRatio))
      in
      match response with
      | Returned response => (read_images_response response, trace)
      | Threw e => (Threw e, trace)
      end
  end.

(** *** [generateHqPanel] *)

(** [array.map(d => `"${d}"`).join(sep)] *)
Fixpoint join_quoted (sep : string) (l : list string) : string :=
  match l with
  | [] => ""
  | [d] => String (ascii_of_nat 34) d ++ String (ascii_of_nat 34) ""
  | d :: rest =>
      String (ascii_of_nat 34) d ++ String (ascii_of_nat 34) ""
      ++ sep ++ join_quoted sep rest
  end.

Definition panel_prompt (description : string) (dialogue : list string)
           (artStyle : string) : string :=
  let dialogueText :=
    if (0 <? length dialogue)%nat
    then " Di" ++ latin1 225 ++ "logos no quadro: "
         ++ join_quoted ", " dialogue ++ "."
    else "" in
  "Crie uma imagem para um quadro de hist" ++ latin1 243
  ++ "ria em quadrinhos. Estilo de arte: " ++ artStyle
  ++ ". Descri" ++ latin1 231 ++ latin1 227 ++ "o da cena: " ++ description
  ++ "." ++ dialogueText ++ " A imagem deve ser vibrante e clara.".

Definition generateHqPanel (svc : Service) (description : string)
           (dialogue : list string) (artStyle : string)
  : Outcome (string * string) * list RetryEvent :=
  generateImage svc (panel_prompt description dialogue artStyle) Ratio_1_1.

(** *** Sample services *)

(** A service that answers every request with a rate-limit error. *)
Definition exhausted_service : Service := {|
  generateContent := fun _ _ =>
    Threw (ThrownError "ApiError" "got status: 429 Too Many Requests");
  generateImages := fun _ _ =>
    Threw (ThrownValue (Some "RESOURCE_EXHAUSTED"));
  API_KEY := Some "k"
|}.

Definition image_part (d : string) : Part :=
  {| inlineData := Some {| inline_data := d; inline_mimeType := "image/png" |};
     part_text := None |}.

Definition text_part (t : string) : Part :=
  {| inlineData := None; part_text := Some t |}.

(** A service whose second answer to an edit carries a text part and
    then two images, after one rate-limit error. *)
Definition recovering_service : Service := {|
  generateContent := fun _ i =>
    match i with
    | O => Threw (ThrownValue (Some "Error: 429"))
    | _ =>
        Returned
          {| candidates :=
               Some [{| finishReason := Some "STOP";
                        content_parts :=
                          Some [text_part "ok"; image_part "QUJD";
                                image_part "REVG"] |}];
             blockReason := None |}
    end;
  generateImages := fun _ _ =>
    Returned {| generatedImages :=
                  Some [{| imageBytes := Some "aW1n";
                           generated_mimeType := None |}] |};
  API_KEY := Some "k"
|}.

End Gemini.

(** ** The comic creator (second component of
    [src/components/PostCard.tsx]) *)

Module ComicCreator.

(** [Scene] of [types.ts] *)
Record Scene := {
  sceneNumber : Z;
  description : string;
  dialogue : list string
}.

(** [PanelState]: a placeholder -- an object with the key [isLoading],
    and perhaps [error] -- or a generated panel. *)
Inductive PanelState :=
| Placeholder (isLoading : bool) (sceneNumber : Z) (error : option string)
| GeneratedPanel (imageBase64 mimeType : string) (sceneNumber : Z).

Definition panel_sceneNumber (p : PanelState) : Z :=
  match p with
  | Placeholder _ n _ => n
  | GeneratedPanel _ _ n => n
  end.

(** ['isLoading' in p] *)
Definition has_isLoading (p : PanelState) : bool :=
  match p with
  | Placeholder _ _ _ => true
  | GeneratedPanel _ _ _ => false
  end.

(** ['isLoading' in panel && panel.isLoading], the test for the
    spinner. *)
Definition shows_spinner (p : PanelState) : bool :=
  match p with
  | Placeholder isLoading _ _ => isLoading
  | GeneratedPanel _ _ _ => false
  end.

(** The two updates of the [panels] state, for one scene. *)
Definition panel_done (scene : Scene) (image mimeType : string)
           (p : PanelState) : PanelState :=
  if has_isLoading p && (panel_sceneNumber p =? sceneNumber scene)%Z
  then GeneratedPanel image mimeType (sceneNumber scene)
  else p.

Definition panel_failed (scene : Scene) (p : PanelState) : PanelState :=
  if has_isLoading p && (panel_sceneNumber p =? sceneNumber scene)%Z
  then Placeholder false (sceneNumber scene) (Some "Falha ao gerar")
  else p.

Section Panels.
(** The awaited call [generateHqPanel(description, dialogue, artStyle)]. *)
Variable generateHqPanel :
  string -> list string -> string -> Outcome (string * string).
Variable artStyle : string.

(** The body of the loop for one scene, after the wait. *)
Definition panel_step (scene : Scene) (p : PanelState) : PanelState :=
  match generateHqPanel (description scene) (dialogue scene) artStyle with
  | Returned (image, mimeType) => panel_done scene image mimeType p
  | Threw _ => panel_failed scene p
  end.

(** The loop over [script.scenes.entries()], from [index]: the panels at
    the end and the waits made. *)
Fixpoint panels_loop (scenes : list Scene) (index : nat)
         (panels : list PanelState) : list PanelState * list Q :=
  match scenes with
  | [] => (panels, [])
  | scene :: rest =>
      let waits := if (0 <? index)%nat then [2000] else [] in
      let (final, later) :=
        panels_loop rest (S index) (map (panel_step scene) panels) in
      (final, (waits ++ later)%list)
  end.

(** [handleGeneratePanels] for a script with these scenes. *)
Definition handleGeneratePanels (scenes : list Scene)
  : list PanelState * list Q :=
  panels_loop scenes 0
              (map (fun scene => Placeholder true (sceneNumber scene) None)
                   scenes).

(** The panel a scene ends up as. *)
Definition panel_of_scene (scene : Scene) : PanelState :=
  match generateHqPanel (description scene) (dialogue scene) artStyle with
  | Returned (image, mimeType) =>
      GeneratedPanel image mimeType (sceneNumber scene)
  | Threw _ => Placeholder false (sceneNumber scene) (Some "Falha ao gerar")
  end.

End Panels.

Definition sample_scenes : list Scene :=
  [{| sceneNumber := 1; description := "um quintal"; dialogue := [] |};
   {| sceneNumber := 2; description := "um rob" ++ Gemini.latin1 244;
      dialogue := ["Oi!"] |};
   {| sceneNumber := 3; description := "amigos"; dialogue := [] |}].

(** A generator that fails on the second scene. *)
Definition sample_generate (description : string) (dialogue : list string)
           (artStyle : string) : Outcome (string * string) :=
  if (0 <? length dialogue)%nat
  then Threw (ThrownError "Error" "sem imagem")
  else Returned ("aW1n", "image/png").

End ComicCreator.

(** ** Uploads: [fileToBase64] of [src/utils/fileUtils.ts] *)

Module Upload.

(** How [reader.readAsDataURL(file)] ends: [onload] with
    [reader.result], or [onerror]. *)
Inductive ReadResult :=
| ReadDone (result : string)
| ReadFailed (error : string).

(** [fileToBase64]: the promise once settled; [read] is the outcome of
    the read.  [result.split(',')[1]] is [undefined] for a result
    without a comma. *)
Definition fileToBase64 (read : ReadResult) : Settled (option string) :=
  match read with
  | ReadDone result => Resolved (nth_error (JsString.split "," result) 1)
  | ReadFailed error => Rejected (ErrorEvent error)
  end.

(** Whether a character occurs in a string. *)
Fixpoint occurs (c : ascii) (s : string) : bool :=
  match s with
  | EmptyString => false
  | String c' rest => Ascii.eqb c' c || occurs c rest
  end.

End Upload.

(** ** Strokes of the touch-up editor *)

Module Strokes.
Import Canvas2D ComicEditor.

(** The segments of a polyline from [from] through [points], as the
    editor with this tool, colour and size paints them. *)
Fixpoint segments (t : Tool) (color : string) (size : Z)
         (from : Q * Q) (points : list (Q * Q)) : list EditOp :=
  match points with
  | [] => []
  | p :: rest =>
      Stroke (match t with Brush => SourceOver | Eraser => DestinationOut end)
             color size CapRound JoinRound from p
      :: segments t color size p rest
  end.

(** The last point of a polyline. *)
Definition last_point (from : Q * Q) (points : list (Q * Q)) : Q * Q :=
  last points from.

(** An editor that has painted with the brush before. *)
Definition used_editor : Editor :=
  run "" (mount true)
      [MouseDown pointer_a; MouseMove pointer_b; MouseUp].

End Strokes.

(** ** More sample environments *)

Module MoreSamples.



End MoreSamples.

(* ================================================================== *)
(** * Part II: properties                                              *)
(* ================================================================== *)

Module WrapTextFacts.
Import JsString WrapText.

Lemma append_assoc (a b c : string) : (a ++ b) ++ c = a ++ (b ++ c).
Proof.
  induction a as [|ch a IH]; simpl; [reflexivity | now rewrite IH].
Qed.

Lemma append_empty_r (a : string) : a ++ "" = a.
Proof.
  induction a as [|ch a IH]; simpl; [reflexivity | now rewrite IH].
Qed.

Lemma line_text_app (g h : list string) :
  line_text (g ++ h) = line_text g ++ line_text h.
Proof.
  induction g as [|w g IH]; simpl; [reflexivity|].
  rewrite IH. now rewrite !append_assoc.
Qed.

Lemma line_text_snoc (g : list string) (w : string) :
  line_text (g ++ [w]) = line_text g ++ w ++ " ".
Proof.
  rewrite line_text_app. reflexivity.
Qed.

(** The pieces of [split_space], each followed by a space, spell the
    text followed by a space. *)
Lemma split_nonempty (sep : ascii) (s : string) : split sep s <> [].
Proof.
  induction s as [|c s IH]; simpl; [discriminate|].
  destruct (Ascii.eqb c sep); [discriminate|].
  destruct (split sep s); discriminate.
Qed.

Lemma line_text_split (s : string) :
  line_text (split " " s) = s ++ " ".
Proof.
  induction s as [|c s IH]; simpl; [reflexivity|].
  destruct (Ascii.eqb_spec c " ") as [->|Hc].
  - simpl. now rewrite IH.
  - destruct (split " " s) as [|w ws] eqn:E.
    + now destruct (split_nonempty " " s).
    + simpl in *. now rewrite IH.
Qed.

Section Refinement.
Variable measure : string -> Q.
Variable maxW : Q.

Lemma Qgtb_fits (g : list string) :
  Qgtb (measure (line_text g)) maxW = negb (fits measure maxW g).
Proof. reflexivity. Qed.

(** The loop computes the greedy layout: with [line] the text of the
    current run and [n] zero exactly when the run is empty. *)
Lemma wrap_loop_greedy (ws : list string) :
  forall (n : nat) (cur : list string) (lines : list string),
    (n = 0%nat <-> cur = []) ->
    wrap_loop measure maxW ws n (line_text cur) lines
    = (lines ++ map render_run (greedy measure maxW cur ws))%list.
Proof.
  induction ws as [|w rest IH]; intros n cur lines Hn; simpl.
  - reflexivity.
  - rewrite <- line_text_snoc, Qgtb_fits.
    destruct cur as [|c cur'].
    + assert (n = 0%nat) as -> by now apply Hn.
      rewrite andb_false_r. simpl app.
      apply IH. split; discriminate.
    + assert (n <> 0%nat) as Hn0 by (intros E; apply Hn in E; discriminate).
      assert ((0 <? n)%nat = true) as -> by (apply Nat.ltb_lt; lia).
      rewrite andb_true_r.
      destruct (fits measure maxW ((c :: cur') ++ [w])%list) eqn:F; simpl negb; cbv iota.
      * apply IH. split; [discriminate|].
        intros E. destruct cur'; discriminate.
      * change (w ++ " ") with (line_text [w]).
        rewrite IH by (split; discriminate).
        rewrite <- app_assoc. reflexivity.
Qed.

Lemma wrapText_greedy (text : string) (x y lineH : Q) :
  wrapText measure maxW text x y lineH
  = map render_run (greedy measure maxW [] (split " " text)).
Proof.
  unfold wrapText. change "" with (line_text []) at 1.
  now rewrite wrap_loop_greedy.
Qed.

Lemma greedy_nil_cons (w : string) (rest : list string) :
  greedy measure maxW [] (w :: rest) = greedy measure maxW [w] rest.
Proof. reflexivity. Qed.

Lemma greedy_cons_cons (c w : string) (cur rest : list string) :
  greedy measure maxW (c :: cur) (w :: rest)
  = if fits measure maxW ((c :: cur) ++ [w])%list
    then greedy measure maxW ((c :: cur) ++ [w])%list rest
    else (c :: cur) :: greedy measure maxW [w] rest.
Proof. reflexivity. Qed.

(** No word is lost, duplicated, reordered or cut. *)
Lemma greedy_concat (ws cur : list string) :
  concat (greedy measure maxW cur ws) = (cur ++ ws)%list.
Proof.
  revert cur. induction ws as [|w rest IH]; intros cur; simpl.
  - now rewrite app_nil_r.
  - destruct cur as [|c cur'].
    + now rewrite IH.
    + destruct (fits measure maxW ((c :: cur') ++ [w])%list).
      * rewrite IH. now rewrite <- app_assoc.
      * simpl. rewrite IH. reflexivity.
Qed.

Section Monotone.
(** Text measurement does not shrink when text is added around. *)
Hypothesis measure_mono :
  forall a b c : string, measure b <= measure (a ++ b ++ c).

Lemma overlong_unfit (w : string) (pre post : list string) :
  maxW < measure w ->
  fits measure maxW (pre ++ w :: post)%list = false.
Proof.
  intros Hw. unfold fits.
  destruct (Qle_bool (measure (line_text (pre ++ w :: post))) maxW) eqn:E;
    [|reflexivity].
  apply Qle_bool_iff in E.
  rewrite line_text_app in E. simpl in E.
  pose proof (measure_mono (line_text pre) w (" " ++ line_text post)) as M.
  exfalso. apply (Qlt_irrefl maxW).
  eapply Qlt_le_trans; [exact Hw|].
  eapply Qle_trans; [exact M | exact E].
Qed.

(** A run opened by an overlong word is closed at once. *)
Lemma greedy_overlong_head (w : string) (post : list string) :
  maxW < measure w ->
  exists G2, greedy measure maxW [w] post = [w] :: G2
             /\ concat G2 = post.
Proof.
  intros Hw. destruct post as [|w' rest]; simpl.
  - exists []. split; reflexivity.
  - pose proof (overlong_unfit w [] [w'] Hw) as U. simpl in U.
    rewrite U.
    exists (greedy measure maxW [w'] rest). split; [reflexivity|].
    apply greedy_concat.
Qed.

Lemma greedy_overlong (w : string) (pre post : list string) :
  maxW < measure w ->
  forall cur,
    exists G1 G2,
      greedy measure maxW cur (pre ++ w :: post)%list
      = (G1 ++ [w] :: G2)%list
      /\ concat G1 = (cur ++ pre)%list /\ concat G2 = post.
Proof.
  intros Hw. induction pre as [|p pre IH]; intros cur.
  - destruct (greedy_overlong_head w post Hw) as (G2 & E2 & C2).
    destruct cur as [|c cur'].
    + exists [], G2. rewrite app_nil_l, greedy_nil_cons, E2.
      repeat split; auto.
    + exists [c :: cur'], G2.
      rewrite app_nil_l, greedy_cons_cons.
      rewrite (overlong_unfit w (c :: cur') [] Hw), E2.
      simpl. rewrite !app_nil_r. repeat split; auto.
  - rewrite <- app_comm_cons. destruct cur as [|c cur'].
    + rewrite greedy_nil_cons.
      destruct (IH [p]) as (G1 & G2 & E & C1 & C2).
      exists G1, G2. rewrite E, C1. repeat split; auto.
    + rewrite greedy_cons_cons.
      destruct (fits measure maxW ((c :: cur') ++ [p])%list).
      * destruct (IH ((c :: cur') ++ [p])%list)
          as (G1 & G2 & E & C1 & C2).
        exists G1, G2. rewrite E, C1, <- app_assoc.
        repeat split; auto.
      * destruct (IH [p]) as (G1 & G2 & E & C1 & C2).
        exists ((c :: cur') :: G1), G2. rewrite E. simpl.
        rewrite C1. repeat split; auto.
Qed.

(** Words that fit together form one run. *)
Lemma greedy_all_fit (ws : list string) :
  forall cur,
    fits measure maxW (cur ++ ws)%list = true ->
    (cur ++ ws)%list <> [] ->
    greedy measure maxW cur ws = [(cur ++ ws)%list].
Proof.
  induction ws as [|w rest IH]; intros cur F NE; simpl.
  - now rewrite app_nil_r.
  - assert (fits measure maxW (cur ++ [w])%list = true) as Fw.
    { unfold fits in *. apply Qle_bool_iff. apply Qle_bool_iff in F.
      replace (cur ++ w :: rest)%list with ((cur ++ [w]) ++ rest)%list in F
        by now rewrite <- app_assoc.
      rewrite line_text_app in F.
      pose proof (measure_mono "" (line_text (cur ++ [w])%list)
                    (line_text rest)) as M.
      simpl in M. eapply Qle_trans; [exact M | exact F]. }
    replace (cur ++ w :: rest)%list with ((cur ++ [w]) ++ rest)%list in *
      by now rewrite <- app_assoc.
    destruct cur as [|c cur'].
    + apply (IH [w]); auto.
    + rewrite Fw. apply IH; auto.
Qed.
End Monotone.
End Refinement.
End WrapTextFacts.

(** ** Word wrapping *)

Module WrapTextSpec.
Import JsString WrapText WrapTextFacts.

Lemma pitch_measure_mono (a b c : string) :
  Samples.pitch_measure b <= Samples.pitch_measure (a ++ b ++ c).
Proof.
  unfold Samples.pitch_measure.
  rewrite <- Zle_Qle. apply inj_le.
  induction a as [|ch a IH]; simpl.
  - induction b as [|ch b IH]; simpl; lia.
  - lia.
Qed.

(** The claim of C1 fails for a headline that just fits.  With one unit
    per character, the seven characters of the two words "um dois" are
    within a maximum of seven, and the rule as the specification words
    it keeps them on one line; [wrapText] measures the candidate line
    with a space after its last word, eight units, and returns two
    lines. *)
Lemma trailing_space_counterexample :
  Samples.pitch_measure (joined (split " " "um dois")) <= 7
  /\ map joined (spec_greedy Samples.pitch_measure 7 [] (split " " "um dois"))
     = ["um dois"]
  /\ Samples.pitch_measure (line_text (split " " "um dois")) == 8
  /\ wrapText Samples.pitch_measure 7 "um dois" 0 0 0 = ["um"; "dois"].
Proof.
  split; [vm_compute; discriminate|].
  split; [vm_compute; reflexivity|].
  split; vm_compute; reflexivity.
Qed.

(** The two rules differ by the width of that one space only: where a
    space at the end of a text measures nothing they build the same
    lines. *)
Lemma greedy_spec_greedy (measure : string -> Q) (maxW : Q) :
  (forall s, measure (s ++ " ") == measure s) ->
  forall ws cur,
    greedy measure maxW cur ws = spec_greedy measure maxW cur ws.
Proof.
  intros Hsp.
  assert (forall g, g <> [] -> line_text g = joined g ++ " ") as Hj.
  { induction g as [|w g IH]; [congruence|]. intros _.
    destruct g as [|w' g'].
    - reflexivity.
    - change (line_text (w :: w' :: g'))
        with (w ++ " " ++ line_text (w' :: g')).
      rewrite IH by discriminate.
      change (joined (w :: w' :: g')) with (w ++ " " ++ joined (w' :: g')).
      now rewrite !append_assoc. }
  assert (forall g, g <> [] -> fits measure maxW g = spec_fits measure maxW g)
    as Hf.
  { intros g Hg. unfold fits, spec_fits. rewrite (Hj g Hg).
    destruct (Qle_bool (measure (joined g ++ " ")) maxW) eqn:A;
    destruct (Qle_bool (measure (joined g)) maxW) eqn:B; try reflexivity.
    - apply Qle_bool_iff in A. rewrite Hsp in A.
      apply Qle_bool_iff in A. congruence.
    - apply Qle_bool_iff in B. rewrite <- Hsp in B.
      apply Qle_bool_iff in B. congruence. }
  induction ws as [|w rest IH]; intros cur; [reflexivity|].
  destruct cur as [|c cur']; cbn [greedy spec_greedy].
  - apply IH.
  - rewrite Hf by (destruct cur'; discriminate).
    rewrite !IH. reflexivity.
Qed.

(** C1, amended.  [wrapText] wraps greedily: its lines are the runs of
    the greedy layout of the words of the headline, in which a word
    joins the current line while the line followed by one space -- the
    candidate line as the loop measures it -- stays within [maxW], and
    otherwise closes it and opens the next; the runs spell the words in
    order, whole.  When measuring is monotone, a word wider than [maxW]
    is alone on its line, the words before it on the lines before and
    the words after it on the lines after; and a headline whose measured
    width, with one space after its last word, is within [maxW] comes
    out as exactly one line. *)
Theorem wrapText_greedy_lines
        (measure : string -> Q) (maxW : Q) (headline : string)
        (x y lineH : Q) :
  let words := split " " headline in
  wrapText measure maxW headline x y lineH
  = map render_run (greedy measure maxW [] words)
  /\ concat (greedy measure maxW [] words) = words
  /\ ((forall a b c : string, measure b <= measure (a ++ b ++ c)) ->
      (forall pre w post,
          words = (pre ++ w :: post)%list ->
          maxW < measure w ->
          exists G1 G2,
            concat G1 = pre /\ concat G2 = post
            /\ wrapText measure maxW headline x y lineH
               = (map render_run G1
                  ++ trim (w ++ " ") :: map render_run G2)%list)
      /\ (measure (headline ++ " ") <= maxW ->
          wrapText measure maxW headline x y lineH
          = [trim (headline ++ " ")])).
Proof.
  intros words. split; [apply wrapText_greedy|].
  split; [apply greedy_concat|].
  intros mono. split.
  - intros pre w post Hw Hlong.
    destruct (greedy_overlong measure maxW mono w pre post Hlong [])
      as (G1 & G2 & E & C1 & C2).
    exists G1, G2. repeat split; auto.
    rewrite wrapText_greedy. fold words. rewrite Hw, E.
    rewrite map_app. reflexivity.
  - intros Hfit. rewrite wrapText_greedy. fold words.
    rewrite (greedy_all_fit measure maxW mono words []).
    + simpl. unfold render_run, words. now rewrite line_text_split.
    + simpl. unfold fits, words. rewrite line_text_split.
      now apply Qle_bool_iff.
    + apply split_nonempty.
Qed.

Lemma wrapText_greedy_lines_witness :
  (exists G1 G2,
      concat G1 = ["um"] /\ concat G2 = ["fim"]
      /\ wrapText Samples.pitch_measure 10 "um extraordinariamente fim" 0 0 0
         = (map render_run G1
            ++ trim ("extraordinariamente" ++ " ") :: map render_run G2)%list)
  /\ wrapText Samples.pitch_measure 10 "um dois" 0 0 0
     = [trim ("um dois" ++ " ")].
Proof.
  split.
  - apply (wrapText_greedy_lines Samples.pitch_measure 10
             "um extraordinariamente fim" 0 0 0).
    + exact pitch_measure_mono.
    + reflexivity.
    + vm_compute. reflexivity.
  - apply (wrapText_greedy_lines Samples.pitch_measure 10 "um dois" 0 0 0).
    + exact pitch_measure_mono.
    + vm_compute. discriminate.
Defined.

Example wrapText_three_lines :
  wrapText Samples.pitch_measure 10 "um extraordinariamente fim" 0 0 0
  = ["um"; "extraordinariamente"; "fim"].
Proof. vm_compute. reflexivity. Qed.

Example wrapText_leading_overlong :
  wrapText Samples.pitch_measure 10 "extraordinariamente um dois" 0 0 0
  = ["extraordinariamente"; "um dois"].
Proof. vm_compute. reflexivity. Qed.

(** The width compared with [maxW] is that of the candidate line with
    its trailing space: seven characters do not stay on one line of
    width seven. *)
Example wrapText_trailing_space_counts :
  Samples.pitch_measure "um dois" == 7
  /\ wrapText Samples.pitch_measure 7 "um dois" 0 0 0 = ["um"; "dois"].
Proof. split; vm_compute; reflexivity. Qed.

Example wrapText_one_line :
  wrapText Samples.pitch_measure 10 "um dois" 0 0 0 = ["um dois"].
Proof. vm_compute. reflexivity. Qed.

End WrapTextSpec.

(** ** The caption compositor *)

Module ComposeFacts.
Import Canvas2D FileUtils Layout.

Section Layers.
Variable env : Platform.

(** Painting the headline leaves the registers alone and appends one
    text per line. *)
Lemma fill_headline_log (lines : list string) :
  forall (i len : nat) (padding headlineY lh : Q) (c : Ctx2D),
    ctx_fillStyle c = CssColor "white" ->
    ctx_textAlign c = AlignLeft ->
    ctx_textBaseline c = BaselineBottom ->
    fill_headline lines i len padding headlineY lh c
    = (tt, {| ctx_font := ctx_font c; ctx_fillStyle := ctx_fillStyle c;
              ctx_textAlign := ctx_textAlign c;
              ctx_textBaseline := ctx_textBaseline c;
              ctx_path := ctx_path c;
              ctx_log := (ctx_log c
                          ++ headline_layers (ctx_font c) lines i len
                               padding headlineY lh)%list |}).
Proof.
  induction lines as [|l rest IH]; intros i len padding headlineY lh c Hs Ha Hb.
  - simpl. rewrite app_nil_r. now destruct c.
  - cbn [fill_headline headline_layers].
    unfold bind at 1. unfold fillText at 1.
    unfold bind at 1. unfold get at 1. unfold paint at 1.
    rewrite IH by assumption. cbn [ctx_font ctx_fillStyle ctx_textAlign
      ctx_textBaseline ctx_path ctx_log].
    rewrite Hs, Ha, Hb. rewrite <- app_assoc. reflexivity.
Qed.

(** What [draw_caption] adds to the log does not depend on the
    registers it starts from. *)
Lemma draw_caption_log (image : Image) (text : StructuredText)
      (c : Ctx2D) :
  ctx_log (exec (draw_caption env image text) c)
  = (ctx_log c ++ caption_layers env image text)%list.
Proof.
  unfold exec, draw_caption.
  cbv [bind ret get set_font set_fillStyle set_textAlign set_textBaseline
       set_path paint drawImage fillRect beginPath roundRect fill fillText
       measureWidth wrapTextM
       ctx_font ctx_fillStyle ctx_textAlign ctx_textBaseline ctx_path
       ctx_log].
  rewrite fill_headline_log by reflexivity.
  cbn [snd ctx_font ctx_fillStyle ctx_textAlign ctx_textBaseline ctx_path
       ctx_log].
  unfold caption_layers, headline_lines, headline_font, cta_font, tag_font.
  repeat rewrite <- app_assoc. reflexivity.
Qed.




End Layers.
End ComposeFacts.

Module ComposeSpec.
Import Canvas2D FileUtils Layout ComposeFacts.





(** *** The empty headline *)





(** *** Decode failure *)

(** C5.  When the image does not decode, [mergeTextAndImage] never
    resolves, and rejects with the error event of the image. *)
Theorem mergeTextAndImage_decode_error (env : Platform)
        (base64Image mimeType : string) (text : StructuredText)
        (event : string) :
  loadImage env (data_url mimeType base64Image) = LoadError event ->
  (forall output, mergeTextAndImage env base64Image mimeType text
                  <> Resolved output)
  /\ (getContext2d env = true ->
      mergeTextAndImage env base64Image mimeType text
      = Rejected (ErrorEvent event)).
Proof.
  intros Hload. unfold mergeTextAndImage. rewrite Hload.
  split.
  - intros output. destruct (getContext2d env); simpl; discriminate.
  - intros ->. reflexivity.
Qed.

Lemma mergeTextAndImage_decode_error_witness :
  mergeTextAndImage Samples.failing_platform "Z2FyYmFnZQ==" "image/png"
                    Samples.sample_caption
  = Rejected (ErrorEvent "error").
Proof.
  apply (mergeTextAndImage_decode_error Samples.failing_platform
           "Z2FyYmFnZQ==" "image/png" Samples.sample_caption "error");
    reflexivity.
Defined.

(** *** Determinism *)

(** The greedy layout looks at the measure only on the candidate
    lines: runs of consecutive words, each word followed by a space. *)
Lemma greedy_agree (m1 m2 : string -> Q) (maxW : Q) (all : list string) :
  (forall pre g post,
      all = (pre ++ g ++ post)%list ->
      m1 (WrapText.line_text g) = m2 (WrapText.line_text g)) ->
  forall ws pre cur,
    all = (pre ++ cur ++ ws)%list ->
    WrapText.greedy m1 maxW cur ws = WrapText.greedy m2 maxW cur ws.
Proof.
  intros Hm. induction ws as [|w rest IH]; intros pre cur Hall.
  - reflexivity.
  - destruct cur as [|c cur'].
    + cbn [WrapText.greedy]. apply (IH pre [w]). exact Hall.
    + cbn [WrapText.greedy]. unfold WrapText.fits.
      assert (all = (pre ++ ((c :: cur') ++ [w]) ++ rest)%list) as Hall'.
      { rewrite Hall. now rewrite <- (app_assoc (c :: cur') [w] rest). }
      rewrite (Hm pre ((c :: cur') ++ [w])%list rest Hall').
      destruct (Qle_bool _ maxW).
      * apply (IH pre). exact Hall'.
      * f_equal. apply (IH (pre ++ c :: cur')%list [w]).
        rewrite Hall. now rewrite <- app_assoc.
Qed.

Lemma wrapText_agree (m1 m2 : string -> Q) (maxW : Q) (text : string)
      (x y lineH : Q) :
  (forall pre g post,
      JsString.split " " text = (pre ++ g ++ post)%list ->
      m1 (WrapText.line_text g) = m2 (WrapText.line_text g)) ->
  WrapText.wrapText m1 maxW text x y lineH
  = WrapText.wrapText m2 maxW text x y lineH.
Proof.
  intros Hm. rewrite !WrapTextFacts.wrapText_greedy.
  now rewrite (greedy_agree m1 m2 maxW _ Hm (JsString.split " " text) [] []).
Qed.

(** The composed layers depend on the platform only through the width
    of the candidate lines of the headline in the headline font, of the
    CTA in the CTA font and of the tag in the tag font. *)
Lemma caption_layers_agree (env1 env2 : Platform) img text :
  (forall pre g post,
      JsString.split " " (headline text) = (pre ++ g ++ post)%list ->
      measureText env1 (headline_font (image_width img))
                  (WrapText.line_text g)
      = measureText env2 (headline_font (image_width img))
                    (WrapText.line_text g)) ->
  measureText env1 (cta_font (image_width img)) (cta text)
  = measureText env2 (cta_font (image_width img)) (cta text) ->
  measureText env1 (tag_font (image_width img)) (tag text)
  = measureText env2 (tag_font (image_width img)) (tag text) ->
  caption_layers env1 img text = caption_layers env2 img text.
Proof.
  intros Eh Ec Et. unfold caption_layers, headline_lines.
  rewrite (wrapText_agree _ _ _ _ _ _ _ Eh).
  now rewrite Ec, Et.
Qed.

(** C9.  Two calls of compose with the same image, mime type and
    caption settle alike -- with the same encoded image, or the same
    rejection -- in any two platforms that decode this image alike,
    encode surfaces alike, and agree on the text measurements the
    compositor makes: the candidate lines of the headline in the
    headline font, the CTA in the CTA font and the tag in the tag font;
    the platforms may differ in every other measurement, that of the
    font a context starts with included.  And what is painted on the
    cleared canvas is the same whatever registers and path an earlier
    use left in the context: the compositor sets each register before
    it paints with it, and carries nothing from one call to the next. *)
Theorem mergeTextAndImage_deterministic (env1 env2 : Platform)
        (base64Image mimeType : string) (text : StructuredText) :
  let url := data_url mimeType base64Image in
  getContext2d env1 = getContext2d env2 ->
  loadImage env1 url = loadImage env2 url ->
  (forall surface, toDataURL env1 surface = toDataURL env2 surface) ->
  (forall img,
      loadImage env1 url = Loaded img ->
      let w := image_width img in
      (forall pre g post,
          JsString.split " " (headline text) = (pre ++ g ++ post)%list ->
          measureText env1 (headline_font w) (WrapText.line_text g)
          = measureText env2 (headline_font w) (WrapText.line_text g))
      /\ measureText env1 (cta_font w) (cta text)
         = measureText env2 (cta_font w) (cta text)
      /\ measureText env1 (tag_font w) (tag text)
         = measureText env2 (tag_font w) (tag text)) ->
  mergeTextAndImage env1 base64Image mimeType text
  = mergeTextAndImage env2 base64Image mimeType text
  /\ forall (img : Image) (c1 c2 : Ctx2D),
      loadImage env1 url = Loaded img ->
      compose_surface_from env1 (cleared c1) img text
      = compose_surface_from env2 (cleared c2) img text.
Proof.
  intros url Ec El Eu Em.
  assert (forall img c1 c2,
             loadImage env1 url = Loaded img ->
             compose_surface_from env1 (cleared c1) img text
             = compose_surface_from env2 (cleared c2) img text) as Hs.
  { intros img c1 c2 Hl. destruct (Em img Hl) as (Eh & Ect & Et).
    unfold compose_surface_from.
    rewrite !draw_caption_log. cbn [cleared ctx_log app].
    now rewrite (caption_layers_agree env1 env2 img text Eh Ect Et). }
  split; [|exact Hs].
  unfold mergeTextAndImage. fold url. rewrite <- El, <- Ec.
  destruct (getContext2d env1); [|reflexivity]. cbn [negb].
  destruct (loadImage env1 url) as [img|ev] eqn:Hl; [|reflexivity].
  unfold compose_surface.
  change fresh_ctx with (cleared fresh_ctx).
  now rewrite (Hs img fresh_ctx fresh_ctx eq_refl), Eu.
Qed.

Lemma mergeTextAndImage_deterministic_witness :
  mergeTextAndImage Samples.decoding_platform "aW1n" "image/png"
                    Samples.sample_caption
  = mergeTextAndImage Samples.unlike_platform "aW1n" "image/png"
                      Samples.sample_caption
  /\ forall (c1 c2 : Ctx2D),
      compose_surface_from Samples.decoding_platform (cleared c1)
                           (Samples.square_image (data_url "image/png" "aW1n"))
                           Samples.sample_caption
      = compose_surface_from Samples.unlike_platform (cleared c2)
                             (Samples.square_image
                                (data_url "image/png" "aW1n"))
                             Samples.sample_caption.
Proof.
  destruct (mergeTextAndImage_deterministic Samples.decoding_platform
              Samples.unlike_platform "aW1n" "image/png"
              Samples.sample_caption) as [E S].
  - reflexivity.
  - reflexivity.
  - intros surface. reflexivity.
  - intros img Hl w. repeat split; intros; reflexivity.
  - split; [exact E|]. intros c1 c2. apply S. reflexivity.
Defined.

(** The two platforms of the witness do measure unlike each other. *)
Example unlike_platform_differs :
  ~ (measureText Samples.decoding_platform
                 {| font_weight := 400; font_px := 10 |} "SAIBA MAIS"
     == measureText Samples.unlike_platform
                    {| font_weight := 400; font_px := 10 |} "SAIBA MAIS").
Proof. vm_compute. discriminate. Qed.

(** And the measurements the compositor makes do matter: a platform
    whose glyphs are twice as wide wraps the headline into more lines. *)
Example measurement_matters :
  length (headline_lines Samples.decoding_platform (Samples.square_image "")
                         Samples.sample_caption) = 2%nat
  /\ length (headline_lines Samples.wide_platform (Samples.square_image "")
                            Samples.sample_caption) = 4%nat.
Proof. split; vm_compute; reflexivity. Qed.

End ComposeSpec.

(** ** The post card *)

Module PostCardSpec.
Import PostCard.

Lemma with_activeTextIndex_same (p : Post) :
  with_activeTextIndex p (activeTextIndex p) = p.
Proof. now destruct p. Qed.

Lemma cycled_with_index (p : Post) (j : Z) :
  cycled (with_activeTextIndex p j)
  = with_activeTextIndex p (Z.rem (j + 1) (Z.of_nat (length (texts p)))).
Proof. reflexivity. Qed.

(** After [k] clicks the index has advanced by [k], modulo the number
    of captions; nothing else has changed. *)
Lemma iter_cycled (p : Post) (k : nat) :
  texts p <> [] ->
  (0 <= activeTextIndex p < Z.of_nat (length (texts p)))%Z ->
  Nat.iter k cycled p
  = with_activeTextIndex p
      ((activeTextIndex p + Z.of_nat k) mod Z.of_nat (length (texts p)))%Z.
Proof.
  intros Hne Hi.
  assert (0 < Z.of_nat (length (texts p)))%Z as Hn by lia.
  induction k as [|k IH].
  - simpl. rewrite Z.add_0_r, Z.mod_small by lia.
    now rewrite with_activeTextIndex_same.
  - rewrite Nat.iter_succ, IH, cycled_with_index. f_equal.
    rewrite Z.rem_mod_nonneg.
    + rewrite Z.add_mod_idemp_l by lia. f_equal. lia.
    + pose proof (Z.mod_pos_bound (activeTextIndex p + Z.of_nat k)
                    (Z.of_nat (length (texts p))) Hn). lia.
    + lia.
Qed.

(** In the [posts] state a click replaces the post of the card by
    [cycled] of it and leaves the posts with other ids as they are. *)
Lemma cycle_click_cycled (p : Post) (before after : list Post) :
  (forall q, In q (before ++ after)%list -> id q <> id p) ->
  cycle_click (Some (before ++ p :: after)%list) p
  = Some (before ++ cycled p :: after)%list.
Proof.
  intros Hid. unfold cycle_click, handleCycleCaption, handleCaptionChange.
  f_equal. rewrite map_app. cbn [map]. rewrite String.eqb_refl.
  f_equal; [|f_equal].
  - rewrite <- (map_id before) at 2. apply map_ext_in. intros q Hq.
    destruct (String.eqb_spec (id q) (id p)) as [E|]; [|reflexivity].
    exfalso. apply (Hid q); [apply in_or_app; now left | exact E].
  - rewrite <- (map_id after) at 2. apply map_ext_in. intros q Hq.
    destruct (String.eqb_spec (id q) (id p)) as [E|]; [|reflexivity].
    exfalso. apply (Hid q); [apply in_or_app; now right | exact E].
Qed.

(** C7.  For a post with captions and a valid index [i]: after any
    number [k] of cycle steps the id, image, mime type and captions are
    those of the post, the index is [(i + k) mod len] and is valid;
    after [len] steps the post is the one started from, so a download
    composes what it would have composed at [i]. *)
Theorem caption_cycling_non_destructive (env : Platform) (p : Post) :
  texts p <> [] ->
  (0 <= activeTextIndex p < Z.of_nat (length (texts p)))%Z ->
  let len := length (texts p) in
  (forall k : nat,
      let q := Nat.iter k cycled p in
      id q = id p /\ image q = image p
      /\ imageMimeType q = imageMimeType p /\ texts q = texts p
      /\ activeTextIndex q
         = ((activeTextIndex p + Z.of_nat k) mod Z.of_nat len)%Z
      /\ (0 <= activeTextIndex q < Z.of_nat len)%Z
      /\ (0 <= snd (handleCycleCaption q) < Z.of_nat len)%Z)
  /\ Nat.iter len cycled p = p
  /\ handleDownload env (Nat.iter len cycled p) = handleDownload env p.
Proof.
  intros Hne Hi len.
  assert (0 < Z.of_nat len)%Z as Hn by (unfold len; lia).
  assert (Nat.iter len cycled p = p) as Hback.
  { rewrite iter_cycled by assumption. fold len.
    replace (activeTextIndex p + Z.of_nat len)%Z
      with (activeTextIndex p + 1 * Z.of_nat len)%Z by lia.
    rewrite Z.mod_add, Z.mod_small by lia.
    apply with_activeTextIndex_same. }
  split; [|split; [exact Hback | now rewrite Hback]].
  intros k q. subst q. rewrite iter_cycled by assumption. fold len.
  cbn [with_activeTextIndex id image imageMimeType texts activeTextIndex
       handleCycleCaption snd].
  pose proof (Z.mod_pos_bound (activeTextIndex p + Z.of_nat k)
                (Z.of_nat len) Hn) as B.
  repeat split; try lia; fold len.
  - apply Z.rem_nonneg; lia.
  - rewrite Z.rem_mod_nonneg by lia. apply Z.mod_pos_bound. lia.
Qed.

Lemma caption_cycling_non_destructive_witness :
  Nat.iter 3 cycled three_caption_post = three_caption_post
  /\ handleDownload Samples.decoding_platform
                    (Nat.iter 3 cycled three_caption_post)
     = handleDownload Samples.decoding_platform three_caption_post.
Proof.
  apply (caption_cycling_non_destructive Samples.decoding_platform
           three_caption_post).
  - discriminate.
  - simpl. lia.
Defined.

Example cycling_visits_every_caption :
  map activeTextIndex
      [three_caption_post; cycled three_caption_post;
       cycled (cycled three_caption_post);
       cycled (cycled (cycled three_caption_post))]
  = [1; 2; 0; 1]%Z.
Proof. reflexivity. Qed.

(** The claim of C8 fails on a post with one caption and index 3: the
    download goes through, of the bare image, and nothing reports a
    failure. *)
Lemma stale_index_counterexample :
  activeTextIndex stale_post = 3%Z
  /\ length (texts stale_post) = 1%nat
  /\ handleDownload Samples.decoding_platform stale_post
     = [DownloadImage "data:image/png;base64,aW1n"
                      "genius-post-3f2b8c1a.png"]
  /\ existsb is_failure
             (handleDownload Samples.decoding_platform stale_post)
     = false.
Proof. repeat split. Qed.

(** C8, amended.  With captions present and the index outside them, a
    download raises nothing: it saves the image without a caption. *)
Theorem out_of_bounds_index_downloads_image (env : Platform) (p : Post) :
  texts p <> [] ->
  (activeTextIndex p < 0
   \/ Z.of_nat (length (texts p)) <= activeTextIndex p)%Z ->
  activeText p = None
  /\ handleDownload env p
     = [DownloadImage (FileUtils.data_url (imageMimeType p) (image p))
                      (fileName_of p)]
  /\ existsb is_failure (handleDownload env p) = false.
Proof.
  intros Hne Hout.
  assert (activeText p = None) as HA.
  { unfold activeText, js_index.
    destruct (texts p) as [|t ts] eqn:E; [contradiction|].
    cbn [length Nat.ltb Nat.leb].
    destruct (Z.ltb_spec (activeTextIndex p) 0) as [|Hpos]; [reflexivity|].
    apply nth_error_None. cbn [length] in *. lia. }
  split; [exact HA|].
  unfold handleDownload. rewrite HA. split; reflexivity.
Qed.

Lemma out_of_bounds_index_downloads_image_witness :
  activeText stale_post = None
  /\ handleDownload Samples.decoding_platform stale_post
     = [DownloadImage
          (FileUtils.data_url (imageMimeType stale_post) (image stale_post))
          (fileName_of stale_post)]
  /\ existsb is_failure
             (handleDownload Samples.decoding_platform stale_post) = false.
Proof.
  apply (out_of_bounds_index_downloads_image Samples.decoding_platform
           stale_post).
  - discriminate.
  - right. simpl. lia.
Defined.

End PostCardSpec.

(** ** Rounding to binary64 *)

Module JsNumberFacts.
Import JsNumber.

Lemma two_power_pos (k : Z) : 0 < 2 ^ k.
Proof. apply Qpower_0_lt. reflexivity. Qed.

Lemma two_power_plus (a b : Z) : 2 ^ (a + b) == 2 ^ a * 2 ^ b.
Proof. apply Qpower_plus. discriminate. Qed.

Lemma two_power_minus (a b : Z) : 2 ^ (a - b) == 2 ^ a / 2 ^ b.
Proof. apply Qpower_minus. discriminate. Qed.

Lemma two_power_succ (a : Z) : 2 ^ (a + 1) == 2 * 2 ^ a.
Proof. rewrite two_power_plus. change (2 ^ 1) with 2. ring. Qed.

Lemma two_power_le (a b : Z) : (a <= b)%Z -> 2 ^ a <= 2 ^ b.
Proof. intros H. apply Qpower_le_compat_l; [exact H | discriminate]. Qed.

Lemma two_power_lt (a b : Z) : (a < b)%Z -> 2 ^ a < 2 ^ b.
Proof. intros H. apply Qpower_lt_compat_l; [exact H | reflexivity]. Qed.

Lemma two_power_lt_inv (a b : Z) : 2 ^ a < 2 ^ b -> (a < b)%Z.
Proof. intros H. apply (Qpower_lt_compat_l_inv 2); [exact H | reflexivity]. Qed.

Lemma two_power_inject (n : Z) : (0 <= n)%Z -> inject_Z (2 ^ n) == 2 ^ n.
Proof. intros H. rewrite Zpower_Qpower by exact H. reflexivity. Qed.

(** [flog2 q] is the integer part of the binary logarithm of [q]. *)
Lemma flog2_spec (q : Q) :
  0 < q -> 2 ^ flog2 q <= q /\ q < 2 ^ (flog2 q + 1).
Proof.
  intros Hq. destruct q as [n d]. 
  assert (0 < n)%Z as Hn. { unfold Qlt in Hq. simpl in Hq. lia. }
  unfold flog2. cbn [Qnum Qden].
  set (a := Z.log2 n). set (b := Z.log2 (Zpos d)).
  destruct (Z.log2_spec n Hn) as [A1 A2]. fold a in A1, A2.
  destruct (Z.log2_spec (Zpos d) (Pos2Z.is_pos d)) as [B1 B2]. fold b in B1, B2.
  assert (0 <= a)%Z as Ha by apply Z.log2_nonneg.
  assert (0 <= b)%Z as Hb by apply Z.log2_nonneg.
  assert (2 ^ a <= inject_Z n) as QA1.
  { rewrite <- two_power_inject by exact Ha. rewrite <- Zle_Qle. exact A1. }
  assert (inject_Z n < 2 * 2 ^ a) as QA2.
  { rewrite <- two_power_succ, <- two_power_inject by lia. rewrite <- Zlt_Qlt.
    replace (a + 1)%Z with (Z.succ a) by lia. exact A2. }
  assert (2 ^ b <= inject_Z (Zpos d)) as QB1.
  { rewrite <- two_power_inject by exact Hb. rewrite <- Zle_Qle. exact B1. }
  assert (inject_Z (Zpos d) < 2 * 2 ^ b) as QB2.
  { rewrite <- two_power_succ, <- two_power_inject by lia. rewrite <- Zlt_Qlt.
    replace (b + 1)%Z with (Z.succ b) by lia. exact B2. }
  pose proof (two_power_pos a) as PA. pose proof (two_power_pos b) as PB.
  assert (n # d == inject_Z n / inject_Z (Zpos d)) as E by apply Qmake_Qdiv.
  assert (0 < inject_Z (Zpos d)) as PD by reflexivity.
  assert (n # d < 2 ^ (a - b + 1)) as Up.
  { rewrite E, two_power_succ, two_power_minus.
    apply Qlt_shift_div_r; [exact PD|].
    setoid_replace (2 * (2 ^ a / 2 ^ b) * inject_Z (Z.pos d))
      with ((2 * 2 ^ a) * (inject_Z (Z.pos d) / 2 ^ b)) by (field; lra).
    assert (1 <= inject_Z (Z.pos d) / 2 ^ b) as L1.
    { apply Qle_shift_div_l; [exact PB | lra]. }
    nra. }
  assert (2 ^ (a - b - 1) < n # d) as Lo.
  { rewrite E. 
    replace (a - b - 1)%Z with (a - (b + 1))%Z by lia.
    rewrite two_power_minus, two_power_succ.
    apply Qlt_shift_div_l; [exact PD|].
    setoid_replace (2 ^ a / (2 * 2 ^ b) * inject_Z (Z.pos d))
      with (2 ^ a * (inject_Z (Z.pos d) / (2 * 2 ^ b))) by (field; lra).
    assert (inject_Z (Z.pos d) / (2 * 2 ^ b) < 1) as L1.
    { apply Qlt_shift_div_r; lra. }
    nra. }
  destruct (Qle_bool (2 ^ (a - b)) (n # d)) eqn:T.
  - apply Qle_bool_iff in T. split; assumption.
  - assert (n # d < 2 ^ (a - b)) as T'.
    { apply Qnot_le_lt. intros L. apply Qle_bool_iff in L. congruence. }
    replace (a - b - 1 + 1)%Z with (a - b)%Z by lia.
    split; [apply Qlt_le_weak|]; assumption.
Qed.

Lemma flog2_unique (q : Q) (k : Z) :
  2 ^ k <= q -> q < 2 ^ (k + 1) -> flog2 q = k.
Proof.
  intros L U.
  assert (0 < q) as Hq by (pose proof (two_power_pos k); lra).
  destruct (flog2_spec q Hq) as [L' U'].
  assert (2 ^ k < 2 ^ (flog2 q + 1)) as A by lra.
  assert (2 ^ flog2 q < 2 ^ (k + 1)) as B by lra.
  apply two_power_lt_inv in A. apply two_power_lt_inv in B. lia.
Qed.

Lemma flog2_comp (p q : Q) : 0 < p -> p == q -> flog2 p = flog2 q.
Proof.
  intros Hp E. destruct (flog2_spec p Hp) as [L U].
  symmetry. apply flog2_unique; rewrite <- E; assumption.
Qed.

Lemma flog2_mono (p q : Q) : 0 < p -> p <= q -> (flog2 p <= flog2 q)%Z.
Proof.
  intros Hp L.
  destruct (flog2_spec p Hp) as [L1 U1].
  destruct (flog2_spec q) as [L2 U2]; [lra|].
  assert (2 ^ flog2 p < 2 ^ (flog2 q + 1)) as A by lra.
  apply two_power_lt_inv in A. lia.
Qed.

(** *** Rounding to an integer *)

Lemma round_half_even_comp (x y : Q) :
  x == y -> round_half_even x = round_half_even y.
Proof.
  intros E. unfold round_half_even.
  rewrite (Qfloor_comp x y E).
  assert (x - inject_Z (Qfloor y) == y - inject_Z (Qfloor y)) as E'
      by (rewrite E; reflexivity).
  rewrite (Qcompare_comp _ _ E' _ _ (Qeq_refl (1 # 2))). reflexivity.
Qed.

Lemma round_half_even_cases (x : Q) :
  (round_half_even x = Qfloor x /\ x - inject_Z (Qfloor x) <= 1 # 2)
  \/ (round_half_even x = (Qfloor x + 1)%Z
      /\ (1 # 2) <= x - inject_Z (Qfloor x)).
Proof.
  unfold round_half_even.
  destruct (Qcompare (x - inject_Z (Qfloor x)) (1 # 2)) eqn:C.
  - apply Qeq_alt in C.
    destruct (Z.even (Qfloor x)); [left | right]; split; auto; lra.
  - apply Qlt_alt in C. left. split; auto; lra.
  - apply Qgt_alt in C. right. split; auto; lra.
Qed.

Lemma round_half_even_near (x : Q) :
  x - (1 # 2) <= inject_Z (round_half_even x)
  /\ inject_Z (round_half_even x) <= x + (1 # 2).
Proof.
  pose proof (Qfloor_le x) as F1. pose proof (Qlt_floor x) as F2.
  rewrite inject_Z_plus in F2. change (inject_Z 1) with 1 in F2.
  destruct (round_half_even_cases x) as [[-> H]|[-> H]].
  - split; lra.
  - rewrite inject_Z_plus. change (inject_Z 1) with 1. split; lra.
Qed.

Lemma round_half_even_Z (z : Z) : round_half_even (inject_Z z) = z.
Proof.
  unfold round_half_even. rewrite Qfloor_Z.
  assert (inject_Z z - inject_Z z == 0) as E by ring.
  rewrite (Qcompare_comp _ _ E _ _ (Qeq_refl (1 # 2))). reflexivity.
Qed.

Lemma round_half_even_mono (x y : Q) :
  x <= y -> (round_half_even x <= round_half_even y)%Z.
Proof.
  intros L. pose proof (Qfloor_resp_le x y L) as FL.
  destruct (Z.eq_dec (Qfloor x) (Qfloor y)) as [E|NE].
  - unfold round_half_even. rewrite <- E.
    destruct (Qcompare (x - inject_Z (Qfloor x)) (1 # 2)) eqn:Cx;
    destruct (Qcompare (y - inject_Z (Qfloor x)) (1 # 2)) eqn:Cy;
    try (destruct (Z.even (Qfloor x))); try lia;
    first [apply Qeq_alt in Cx | apply Qlt_alt in Cx | apply Qgt_alt in Cx];
    first [apply Qeq_alt in Cy | apply Qlt_alt in Cy | apply Qgt_alt in Cy];
    exfalso; lra.
  - destruct (round_half_even_cases x) as [[-> _]|[-> _]];
    destruct (round_half_even_cases y) as [[-> _]|[-> _]]; lia.
Qed.


(** *** Rounding to binary64 *)

Lemma normal_pos (q : Q) : normal q -> 0 < q.
Proof. unfold normal. pose proof (two_power_pos (-1022)). lra. Qed.

Lemma binary64_pos (q : Q) : 0 < q -> binary64 q = round_pos q.
Proof.
  intros H. unfold binary64. apply Qgt_alt in H. now rewrite H.
Qed.

Lemma ulp_exponent_comp (p q : Q) :
  0 < p -> p == q -> ulp_exponent p = ulp_exponent q.
Proof. intros H E. unfold ulp_exponent. now rewrite (flog2_comp p q H E). Qed.

Lemma round_pos_comp (p q : Q) :
  0 < p -> p == q -> round_pos p == round_pos q.
Proof.
  intros H E. unfold round_pos.
  rewrite (ulp_exponent_comp p q H E).
  rewrite (round_half_even_comp (p / 2 ^ ulp_exponent q)
                                (q / 2 ^ ulp_exponent q)).
  - reflexivity.
  - now rewrite E.
Qed.

Lemma binary64_comp (p q : Q) : p == q -> binary64 p == binary64 q.
Proof.
  intros E. unfold binary64.
  rewrite (Qcompare_comp _ _ E _ _ (Qeq_refl 0)).
  destruct (Qcompare q 0) eqn:C.
  - reflexivity.
  - apply Qlt_alt in C. 
    rewrite (round_pos_comp (- p) (- q)); [reflexivity | lra | now rewrite E].
  - apply Qgt_alt in C.
    apply round_pos_comp; [lra | exact E].
Qed.

Lemma ulp_exponent_mono (p q : Q) :
  0 < p -> p <= q -> (ulp_exponent p <= ulp_exponent q)%Z.
Proof.
  intros H L. unfold ulp_exponent.
  pose proof (flog2_mono p q H L). lia.
Qed.

Lemma ulp_exponent_normal (q : Q) :
  normal q -> ulp_exponent q = (flog2 q - 52)%Z.
Proof.
  intros N. pose proof (normal_pos q N) as H.
  destruct (flog2_spec q H) as [_ U].
  assert (2 ^ (-1022) < 2 ^ (flog2 q + 1)) as A by (unfold normal in N; lra).
  apply two_power_lt_inv in A. unfold ulp_exponent. lia.
Qed.

(** The scaled value lies below [2^53], and in the normal range at or
    above [2^52]. *)
Lemma scaled_upper (q : Q) :
  0 < q -> q / 2 ^ ulp_exponent q < 2 ^ 53.
Proof.
  intros H. destruct (flog2_spec q H) as [_ U].
  pose proof (two_power_pos (ulp_exponent q)) as P.
  apply Qlt_shift_div_r; [exact P|].
  rewrite <- two_power_plus.
  eapply Qlt_le_trans; [exact U|].
  apply two_power_le. unfold ulp_exponent. lia.
Qed.

Lemma scaled_lower (q : Q) :
  normal q -> 2 ^ 52 <= q / 2 ^ ulp_exponent q.
Proof.
  intros N. pose proof (normal_pos q N) as H.
  destruct (flog2_spec q H) as [L _].
  pose proof (two_power_pos (ulp_exponent q)) as P.
  apply Qle_shift_div_l; [exact P|].
  rewrite <- two_power_plus, (ulp_exponent_normal q N).
  replace (52 + (flog2 q - 52))%Z with (flog2 q) by lia. exact L.
Qed.

Lemma mantissa_upper (q : Q) :
  0 < q -> (round_half_even (q / 2 ^ ulp_exponent q) <= 2 ^ 53)%Z.
Proof.
  intros H.
  rewrite <- (round_half_even_Z (2 ^ 53)).
  apply round_half_even_mono.
  rewrite two_power_inject by lia.
  apply Qlt_le_weak, scaled_upper, H.
Qed.

Lemma mantissa_lower (q : Q) :
  normal q -> (2 ^ 52 <= round_half_even (q / 2 ^ ulp_exponent q))%Z.
Proof.
  intros N.
  rewrite <- (round_half_even_Z (2 ^ 52)) at 1.
  apply round_half_even_mono.
  rewrite two_power_inject by lia.
  apply scaled_lower, N.
Qed.

Lemma round_pos_upper (q : Q) :
  0 < q -> round_pos q <= 2 ^ (ulp_exponent q + 53).
Proof.
  intros H. unfold round_pos.
  pose proof (mantissa_upper q H) as M.
  rewrite Zle_Qle in M. rewrite two_power_inject in M by lia.
  pose proof (two_power_pos (ulp_exponent q)) as P.
  rewrite two_power_plus. 
  setoid_replace (2 ^ ulp_exponent q * 2 ^ 53)
    with (2 ^ 53 * 2 ^ ulp_exponent q) by ring.
  apply Qmult_le_compat_r; [exact M | lra].
Qed.

Lemma round_pos_lower (q : Q) :
  normal q -> 2 ^ flog2 q <= round_pos q.
Proof.
  intros N. unfold round_pos.
  pose proof (mantissa_lower q N) as M.
  rewrite Zle_Qle in M. rewrite two_power_inject in M by lia.
  pose proof (two_power_pos (ulp_exponent q)) as P.
  replace (flog2 q) with (52 + ulp_exponent q)%Z at 1
    by (rewrite (ulp_exponent_normal q N); lia).
  rewrite two_power_plus.
  apply Qmult_le_compat_r; [exact M | lra].
Qed.

Lemma round_pos_normal (q : Q) : normal q -> normal (round_pos q).
Proof.
  intros N. unfold normal.
  eapply Qle_trans; [|apply round_pos_lower, N].
  pose proof (normal_pos q N) as H.
  destruct (flog2_spec q H) as [_ U].
  assert (2 ^ (-1022) < 2 ^ (flog2 q + 1)) as A by (unfold normal in N; lra).
  apply two_power_lt_inv in A. apply two_power_le. lia.
Qed.

(** Rounding is monotone. *)
Lemma round_pos_mono (p q : Q) :
  0 < p -> p <= q -> round_pos p <= round_pos q.
Proof.
  intros H L.
  pose proof (ulp_exponent_mono p q H L) as E.
  destruct (Z.eq_dec (ulp_exponent p) (ulp_exponent q)) as [Eq|Ne].
  - unfold round_pos. rewrite Eq.
    pose proof (two_power_pos (ulp_exponent q)) as P.
    apply Qmult_le_compat_r; [|lra].
    rewrite <- Zle_Qle. apply round_half_even_mono.
    apply Qmult_le_compat_r; [exact L|].
    apply Qlt_le_weak, Qinv_lt_0_compat, P.
  - assert (ulp_exponent p + 1 <= ulp_exponent q)%Z as Lt by lia.
    assert (0 < q) as Hq by lra.
    assert (ulp_exponent q = flog2 q - 52)%Z as Eq
        by (unfold ulp_exponent in *; lia).
    assert (normal q) as N.
    { unfold normal. destruct (flog2_spec q Hq) as [Lq _].
      eapply Qle_trans; [|exact Lq]. apply two_power_le.
      unfold ulp_exponent in *. lia. }
    eapply Qle_trans; [apply round_pos_upper, H|].
    eapply Qle_trans; [|apply round_pos_lower, N].
    apply two_power_le. lia.
Qed.

Lemma binary64_mono (p q : Q) :
  0 < p -> p <= q -> binary64 p <= binary64 q.
Proof.
  intros H L. rewrite !binary64_pos by lra. now apply round_pos_mono.
Qed.

(** A representable number is its own rounding. *)
Lemma round_pos_representable (x : Q) :
  representable x -> round_pos x == x.
Proof.
  intros [m E]. unfold round_pos.
  pose proof (two_power_pos (ulp_exponent x)) as P.
  rewrite (round_half_even_comp _ (inject_Z m)).
  - rewrite round_half_even_Z. now rewrite <- E.
  - rewrite E at 1. field. lra.
Qed.

Lemma representable_round_pos (q : Q) :
  normal q -> representable (round_pos q).
Proof.
  intros N. pose proof (normal_pos q N) as H.
  pose proof (mantissa_lower q N) as ML.
  pose proof (mantissa_upper q H) as MU.
  set (e := ulp_exponent q) in *.
  set (m := round_half_even (q / 2 ^ e)) in *.
  assert (round_pos q == inject_Z m * 2 ^ e) as R by reflexivity.
  assert (-1074 <= e)%Z as He by (unfold e, ulp_exponent; lia).
  pose proof (two_power_pos e) as P.
  destruct (Z.eq_dec m (2 ^ 53)) as [Top|NTop].
  - exists (2 ^ 52)%Z.
    assert (round_pos q == 2 ^ (e + 53)) as R'.
    { rewrite R, Top, two_power_inject, two_power_plus by lia. ring. }
    assert (flog2 (round_pos q) = e + 53)%Z as F.
    { apply flog2_unique; rewrite R'.
      - apply Qle_refl.
      - apply two_power_lt. lia. }
    unfold ulp_exponent. rewrite F.
    replace (Z.max (e + 53 - 52) (-1074)) with (e + 1)%Z by lia.
    rewrite R', two_power_inject by lia. rewrite <- two_power_plus.
    replace (52 + (e + 1))%Z with (e + 53)%Z by lia. reflexivity.
  - exists m.
    assert (flog2 (round_pos q) = 52 + e)%Z as F.
    { apply flog2_unique; rewrite R.
      - rewrite two_power_plus. apply Qmult_le_compat_r; [|lra].
        rewrite <- two_power_inject by lia. rewrite <- Zle_Qle. exact ML.
      - replace (52 + e + 1)%Z with (53 + e)%Z by lia. rewrite two_power_plus.
        apply Qmult_lt_compat_r; [exact P|].
        rewrite <- two_power_inject by lia. rewrite <- Zlt_Qlt. lia. }
    unfold ulp_exponent. rewrite F.
    replace (Z.max (52 + e - 52) (-1074)) with e by lia.
    exact R.
Qed.

Lemma binary64_idempotent (q : Q) :
  normal q -> binary64 (binary64 q) == binary64 q.
Proof.
  intros N. pose proof (normal_pos q N) as H.
  rewrite (binary64_pos q H).
  pose proof (normal_pos _ (round_pos_normal q N)) as H'.
  rewrite (binary64_pos _ H').
  apply round_pos_representable, representable_round_pos, N.
Qed.

(** Integers below [2^53] are representable. *)
Lemma representable_Z (z : Z) :
  (0 < z < 2 ^ 53)%Z -> representable (inject_Z z).
Proof.
  intros [Hz Hz'].
  assert (0 < inject_Z z) as Q0.
  { change 0 with (inject_Z 0). rewrite <- Zlt_Qlt. exact Hz. }
  destruct (flog2_spec _ Q0) as [L _].
  assert (2 ^ flog2 (inject_Z z) < 2 ^ 53) as A.
  { eapply Qle_lt_trans; [exact L|].
    rewrite <- two_power_inject by lia. rewrite <- Zlt_Qlt. exact Hz'. }
  apply two_power_lt_inv in A.
  set (e := ulp_exponent (inject_Z z)).
  assert (e <= 0)%Z as He by (unfold e, ulp_exponent; lia).
  exists (z * 2 ^ (- e))%Z. fold e.
  rewrite inject_Z_mult, two_power_inject by lia.
  rewrite <- Qmult_assoc, <- two_power_plus.
  replace (- e + e)%Z with 0%Z by lia. change (2 ^ 0) with 1. ring.
Qed.

Lemma binary64_Z (z : Z) :
  (0 < z < 2 ^ 53)%Z -> binary64 (inject_Z z) == inject_Z z.
Proof.
  intros Hz.
  assert (0 < inject_Z z) as Q0.
  { change 0 with (inject_Z 0). rewrite <- Zlt_Qlt. lia. }
  rewrite (binary64_pos _ Q0).
  apply round_pos_representable, representable_Z, Hz.
Qed.

(** The rounding error is at most half a unit in the last place. *)
Lemma round_pos_error (q : Q) :
  normal q ->
  q * (1 - 2 ^ (-53)) <= round_pos q /\ round_pos q <= q * (1 + 2 ^ (-53)).
Proof.
  intros N. pose proof (normal_pos q N) as H.
  unfold round_pos.
  set (e := ulp_exponent q).
  pose proof (two_power_pos e) as P.
  destruct (round_half_even_near (q / 2 ^ e)) as [A B].
  destruct (flog2_spec q H) as [L _].
  assert (2 ^ e * (1 # 2) <= q * 2 ^ (-53)) as U.
  { assert (2 ^ e == 2 ^ flog2 q * 2 ^ (-52)) as E.
    { rewrite <- two_power_plus. unfold e. rewrite (ulp_exponent_normal q N).
      replace (flog2 q + -52)%Z with (flog2 q - 52)%Z by lia. reflexivity. }
    rewrite E.
    assert (2 ^ (-52) * (1 # 2) == 2 ^ (-53)) as E2 by reflexivity.
    setoid_replace (2 ^ flog2 q * 2 ^ (-52) * (1 # 2))
      with (2 ^ flog2 q * 2 ^ (-53)) by (rewrite <- E2; ring).
    apply Qmult_le_compat_r; [exact L|]. discriminate. }
  assert (q / 2 ^ e * 2 ^ e == q) as S by (field; lra).
  set (m := inject_Z (round_half_even (q / 2 ^ e))) in *.
  set (x := q / 2 ^ e) in *.
  assert ((x - (1 # 2)) * 2 ^ e <= m * 2 ^ e) as A'
      by (apply Qmult_le_compat_r; lra).
  assert (m * 2 ^ e <= (x + (1 # 2)) * 2 ^ e) as B'
      by (apply Qmult_le_compat_r; lra).
  split; lra.
Qed.

Lemma binary64_error (q : Q) :
  normal q ->
  q * (1 - 2 ^ (-53)) <= binary64 q /\ binary64 q <= q * (1 + 2 ^ (-53)).
Proof.
  intros N. rewrite (binary64_pos q (normal_pos q N)).
  now apply round_pos_error.
Qed.

(** Two distinct representable numbers are at least one unit in the
    last place of the smaller apart. *)
Lemma representable_gap (a b : Q) :
  0 < a -> a < b -> representable a -> representable b ->
  a * (1 + 2 ^ (-53)) < b.
Proof.
  intros Ha Lt [ma Ea] [mb Eb].
  pose proof (ulp_exponent_mono a b Ha (Qlt_le_weak _ _ Lt)) as E.
  set (ea := ulp_exponent a) in *. set (eb := ulp_exponent b) in *.
  pose proof (two_power_pos ea) as Pa.
  assert (b == inject_Z (mb * 2 ^ (eb - ea)) * 2 ^ ea) as Eb'.
  { rewrite Eb, inject_Z_mult, two_power_inject by lia.
    rewrite <- Qmult_assoc, <- two_power_plus.
    replace (eb - ea + ea)%Z with eb by lia. reflexivity. }
  assert (ma < mb * 2 ^ (eb - ea))%Z as Lm.
  { rewrite Zlt_Qlt.
    apply (Qmult_lt_r _ _ (2 ^ ea) Pa). rewrite <- Ea, <- Eb'. exact Lt. }
  assert (inject_Z ma + 1 <= inject_Z (mb * 2 ^ (eb - ea))) as Lm'.
  { change 1 with (inject_Z 1). rewrite <- inject_Z_plus, <- Zle_Qle. lia. }
  assert (a + 2 ^ ea <= b) as G.
  { rewrite Ea at 1. rewrite Eb'.
    setoid_replace (inject_Z ma * 2 ^ ea + 2 ^ ea)
      with ((inject_Z ma + 1) * 2 ^ ea) by ring.
    apply Qmult_le_compat_r; lra. }
  destruct (flog2_spec a Ha) as [_ U].
  assert (a * 2 ^ (-53) < 2 ^ ea) as S.
  { assert (2 ^ (flog2 a + 1) <= 2 ^ (ea + 53)) as M
        by (apply two_power_le; unfold ea, ulp_exponent; lia).
    assert (2 ^ (ea + 53) * 2 ^ (-53) == 2 ^ ea) as M2.
    { rewrite <- two_power_plus. replace (ea + 53 + -53)%Z with ea by lia.
      reflexivity. }
    rewrite <- M2.
    apply Qmult_lt_compat_r; [reflexivity | lra]. }
  lra.
Qed.

End JsNumberFacts.

(** ** The touch-up editor *)

Module ComicEditorSpec.
Import Canvas2D ComicEditor JsNumber JsNumberFacts.

(** *** Compositing mode across strokes *)

Lemma stopDrawing_resets (s : Editor) :
  isDrawing s = true ->
  isDrawing (stopDrawing s) = false
  /\ forall c, context (stopDrawing s) = Some c ->
               globalCompositeOperation c = SourceOver.
Proof.
  intros Hd. unfold stopDrawing. rewrite Hd.
  destruct (context s) as [c0|] eqn:E; cbn; split; auto.
  - intros c [= <-]. reflexivity.
  - rewrite E. discriminate.
Qed.

Lemma step_idle_source_over (url : string) (s : Editor) (ev : Event) :
  idle_source_over s -> idle_source_over (step url s ev).
Proof.
  unfold idle_source_over. intros Inv.
  destruct ev as [e|e| | | | |col|n|vp img|]; cbn [step]; try exact Inv.
  - (* mouse down *) cbn. discriminate.
  - (* mouse move *)
    unfold draw. destruct (isDrawing s) eqn:Hd; cbn [negb].
    + destruct (context s); cbn; rewrite ?Hd; discriminate.
    + intros _. exact (Inv eq_refl).
  - (* mouse up *)
    destruct (isDrawing s) eqn:Hd.
    + intros _. now apply stopDrawing_resets.
    + unfold stopDrawing. rewrite Hd. intros _. exact (Inv eq_refl).
  - (* mouse leave *)
    destruct (isDrawing s) eqn:Hd.
    + intros _. now apply stopDrawing_resets.
    + unfold stopDrawing. rewrite Hd. intros _. exact (Inv eq_refl).
  - (* image loaded *)
    destruct (context s) eqn:E.
    + unfold onload. destruct (display_size vp img) as [w h]. cbn.
      intros _ c [= <-]. reflexivity.
    + intros _ c Hc. rewrite E in Hc. discriminate.
Qed.

Lemma run_idle_source_over (url : string) (evs : list Event) :
  forall s, idle_source_over s -> idle_source_over (run url s evs).
Proof.
  induction evs as [|ev evs IH]; intros s Inv; [exact Inv|].
  apply IH, step_idle_source_over, Inv.
Qed.

Lemma mount_idle_source_over (has_context : bool) :
  idle_source_over (mount has_context).
Proof.
  intros _ c. destruct has_context; cbn; [|discriminate].
  intros [= <-]. reflexivity.
Qed.

(** Once the canvas has a context it keeps one. *)
Lemma step_keeps_context (url : string) (s : Editor) (ev : Event) :
  (context s = None <-> context (step url s ev) = None).
Proof.
  destruct ev as [e|e| | | | |col|n|vp img|]; cbn [step]; try reflexivity.
  - unfold draw. destruct (isDrawing s); cbn [negb]; [|reflexivity].
    destruct (context s) eqn:E; cbn; [|now rewrite E].
    split; discriminate.
  - unfold stopDrawing. destruct (isDrawing s); [|reflexivity].
    destruct (context s) eqn:E; cbn; [|now rewrite E].
    split; discriminate.
  - unfold stopDrawing. destruct (isDrawing s); [|reflexivity].
    destruct (context s) eqn:E; cbn; [|now rewrite E].
    split; discriminate.
  - destruct (context s) eqn:E; [|now rewrite E].
    unfold onload. destruct (display_size vp img) as [w h]. cbn.
    split; discriminate.
Qed.

Lemma run_keeps_context (url : string) (evs : list Event) :
  forall s, context s = None <-> context (run url s evs) = None.
Proof.
  induction evs as [|ev evs IH]; intros s; [reflexivity|].
  cbn [run fold_left]. fold (run url (step url s ev) evs).
  rewrite <- IH. apply step_keeps_context.
Qed.

(** C4.  A pointer-up or pointer-leave that ends a stroke keeps the
    context and sets it to source-over, its other registers and what is
    painted untouched; and over every sequence of events from mounting,
    whenever no stroke is in progress -- in particular when the next
    stroke starts -- the context of a canvas that has one is there in
    source-over mode, and pressing the pointer leaves it as it is. *)
Theorem compositing_reset_after_stroke (url : string) :
  (forall (s : Editor) (ev : Event),
      ev = MouseUp \/ ev = MouseLeave ->
      isDrawing s = true ->
      isDrawing (step url s ev) = false
      /\ context (step url s ev)
         = option_map (set_gco SourceOver) (context s))
  /\ (forall (has_context : bool) (evs : list Event) (e : MouseEvent),
         let s := run url (mount has_context) evs in
         isDrawing s = false ->
         option_map globalCompositeOperation (context s)
         = (if has_context then Some SourceOver else None)
         /\ context (step url s (MouseDown e)) = context s).
Proof.
  split.
  - intros s ev [-> | ->] Hd; cbn [step]; unfold stopDrawing; rewrite Hd;
      destruct (context s) eqn:E; cbn; rewrite ?E; split; reflexivity.
  - intros has_context evs e s Hidle.
    pose proof (run_idle_source_over url evs _
                  (mount_idle_source_over has_context) Hidle) as Inv.
    pose proof (run_keeps_context url evs (mount has_context)) as Keep.
    fold s in Inv, Keep. split; [|reflexivity].
    destruct (context s) as [c|] eqn:E.
    + cbn [option_map]. rewrite (Inv c eq_refl).
      destruct has_context; [reflexivity|].
      exfalso. destruct Keep as [K _]. discriminate (K eq_refl).
    + destruct has_context; [|reflexivity].
      exfalso. destruct Keep as [_ K]. discriminate (K eq_refl).
Qed.

Lemma compositing_reset_after_stroke_witness :
  let url := "data:image/png;base64,aW1n" in
  let erasing := [ClickEraser; MouseDown pointer_a; MouseMove pointer_b] in
  (isDrawing (step url (run url (mount true) erasing) MouseUp) = false
   /\ context (step url (run url (mount true) erasing) MouseUp)
      = option_map (set_gco SourceOver)
                   (context (run url (mount true) erasing)))
  /\ option_map globalCompositeOperation
       (context (run url (mount true) (erasing ++ [MouseUp])))
     = Some SourceOver.
Proof.
  intros url erasing.
  destruct (compositing_reset_after_stroke url) as [Hend Hidle].
  split.
  - apply (Hend (run url (mount true) erasing) MouseUp).
    + left. reflexivity.
    + reflexivity.
  - apply (Hidle true (erasing ++ [MouseUp])%list pointer_a). reflexivity.
Defined.

(** While the eraser stroke is in progress the mode is destination-out:
    the reset at the end of the stroke is what restores it. *)
Example eraser_stroke_in_progress :
  option_map globalCompositeOperation
    (context (run "" (mount true)
                  [ClickEraser; MouseDown pointer_a;
                   MouseMove pointer_b]))
  = Some DestinationOut.
Proof. reflexivity. Qed.

Example eraser_then_brush_log :
  option_map edit_log
    (context (run "" (mount true)
                  [ClickEraser; MouseDown pointer_a;
                   MouseMove pointer_b; MouseLeave;
                   ClickBrush; MouseDown pointer_b;
                   MouseMove pointer_a; MouseUp]))
  = Some [Stroke DestinationOut "#000000" 10 CapRound JoinRound
                 (getMousePos pointer_a)
                 (getMousePos pointer_b);
          Stroke SourceOver "#000000" 10 CapRound JoinRound
                 (getMousePos pointer_b)
                 (getMousePos pointer_a)].
Proof. reflexivity. Qed.

(** *** Opening *)

Lemma Qgtb_true (a b : Q) : Qgtb a b = true -> b < a.
Proof.
  unfold Qgtb. rewrite negb_true_iff. intros Hf.
  apply Qnot_le_lt. intros L. apply Qle_bool_iff in L. congruence.
Qed.

Lemma Qgtb_false (a b : Q) : Qgtb a b = false -> a <= b.
Proof. unfold Qgtb. rewrite negb_false_iff. apply Qle_bool_iff. Qed.

Lemma normal_above (q : Q) : (1 # 1099511627776) <= q -> normal q.
Proof.
  intros L. unfold normal. eapply Qle_trans; [|exact L].
  change (1 # 1099511627776) with (2 ^ (-40)). apply two_power_le. lia.
Qed.

Lemma binary64_near (q : Q) :
  (1 # 1099511627776) <= q ->
  q * (1 - (1 # 9007199254740992)) <= binary64 q
  /\ binary64 q <= q * (1 + (1 # 9007199254740992)).
Proof. intros L. apply (binary64_error q), normal_above, L. Qed.

Lemma binary64_fixed (q : Q) :
  (1 # 1099511627776) <= q -> binary64 (binary64 q) == binary64 q.
Proof. intros L. apply binary64_idempotent, normal_above, L. Qed.

Lemma binary64_representable (q : Q) :
  (1 # 1099511627776) <= q -> representable (binary64 q).
Proof.
  intros L. pose proof (normal_above q L) as N.
  rewrite (binary64_pos q (normal_pos q N)).
  now apply representable_round_pos.
Qed.

Lemma inject_Z_pos (z : Z) : (0 < z)%Z -> 1 <= inject_Z z.
Proof. intros H. change 1 with (inject_Z 1). rewrite <- Zle_Qle. lia. Qed.

Lemma inject_Z_below (z b : Z) : (z < b)%Z -> inject_Z z <= inject_Z b - 1.
Proof.
  intros H. change 1 with (inject_Z 1).
  unfold Qminus. rewrite <- inject_Z_opp, <- inject_Z_plus, <- Zle_Qle. lia.
Qed.

(** A window bound: the product of a window dimension and the literal,
    rounded. *)
Lemma bound_near (v : Z) (c : Q) :
  (0 < v < 2 ^ 31)%Z -> (7 # 10) <= c -> c <= (8 # 10) ->
  let m := mul (inject_Z v) (binary64 c) in
  inject_Z v * c * (1 - (1 # 2251799813685248)) <= m
  /\ m <= inject_Z v * c * (1 + (1 # 2251799813685248))
  /\ (1 # 2) <= m /\ m <= 2147483647
  /\ binary64 m == m /\ representable m.
Proof.
  intros [V0 V1] C0 C1 m.
  pose proof (inject_Z_pos v V0) as Q0.
  pose proof (inject_Z_below v _ V1) as Q1.
  change (inject_Z (2 ^ 31)) with 2147483648 in Q1.
  destruct (binary64_near c) as [A B]; [lra|].
  assert ((1 # 1099511627776) <= inject_Z v * binary64 c) as Np by nra.
  destruct (binary64_near _ Np) as [A' B']. fold (mul (inject_Z v) (binary64 c)) in A', B'.
  fold m in A', B'.
  repeat split.
  - nra.
  - nra.
  - nra.
  - nra.
  - apply binary64_fixed, Np.
  - apply binary64_representable, Np.
Qed.


Section DisplaySize.
Variable vp : Viewport.
Variable img : Image.
Hypothesis Hvw : (0 < innerWidth vp < 2 ^ 31)%Z.
Hypothesis Hvh : (0 < innerHeight vp < 2 ^ 31)%Z.
Hypothesis Hw : (0 < image_width img < 2 ^ 32)%Z.
Hypothesis Hh : (0 < image_height img < 2 ^ 32)%Z.

Let W := inject_Z (image_width img).
Let H := inject_Z (image_height img).
Let maxW := mul (inject_Z (innerWidth vp)) (binary64 0.8).
Let maxH := mul (inject_Z (innerHeight vp)) (binary64 0.7).
Let ratio := div W H.
Let u := 1 # 9007199254740992.
Let eps := 1 # 2251799813685248.

Lemma W_range : 1 <= W /\ W <= 4294967295.
Proof.
  split; [apply inject_Z_pos; lia|].
  pose proof (inject_Z_below (image_width img) _ (proj2 Hw)) as B.
  change (inject_Z (2 ^ 32)) with 4294967296 in B. unfold W. lra.
Qed.

Lemma H_range : 1 <= H /\ H <= 4294967295.
Proof.
  split; [apply inject_Z_pos; lia|].
  pose proof (inject_Z_below (image_height img) _ (proj2 Hh)) as B.
  change (inject_Z (2 ^ 32)) with 4294967296 in B. unfold H. lra.
Qed.

Lemma quotient_range :
  (1 # 4294967296) <= W / H /\ W / H <= 4294967296.
Proof.
  destruct W_range, H_range. split.
  - apply Qle_shift_div_l; [lra | nra].
  - apply Qle_shift_div_r; [lra | nra].
Qed.

Lemma ratio_near :
  W / H * (1 - u) <= ratio /\ ratio <= W / H * (1 + u)
  /\ (1 # 8589934592) <= ratio /\ ratio <= 8589934592.
Proof.
  destruct quotient_range as [A B].
  destruct (binary64_near (W / H)) as [C D]; [lra|].
  fold (div W H) in C, D. fold ratio in C, D. unfold u.
  repeat split; try assumption; nra.
Qed.

Lemma ratio_times_H :
  W * (1 - u) <= ratio * H /\ ratio * H <= W * (1 + u).
Proof.
  destruct ratio_near as (A & B & _). destruct H_range as [H0 _].
  assert (W / H * H == W) as E by (field; lra).
  split.
  - setoid_replace (W * (1 - u)) with (W / H * (1 - u) * H) by (rewrite <- E at 1; ring).
    apply Qmult_le_compat_r; lra.
  - setoid_replace (W * (1 + u)) with (W / H * (1 + u) * H) by (rewrite <- E at 1; ring).
    apply Qmult_le_compat_r; lra.
Qed.

Lemma maxW_facts :
  inject_Z (innerWidth vp) * 0.8 * (1 - eps) <= maxW
  /\ maxW <= inject_Z (innerWidth vp) * 0.8 * (1 + eps)
  /\ (1 # 2) <= maxW /\ maxW <= 2147483647
  /\ binary64 maxW == maxW /\ representable maxW.
Proof. apply (bound_near (innerWidth vp) 0.8 Hvw); lra. Qed.

Lemma maxH_facts :
  inject_Z (innerHeight vp) * 0.7 * (1 - eps) <= maxH
  /\ maxH <= inject_Z (innerHeight vp) * 0.7 * (1 + eps)
  /\ (1 # 2) <= maxH /\ maxH <= 2147483647
  /\ binary64 maxH == maxH /\ representable maxH.
Proof. apply (bound_near (innerHeight vp) 0.7 Hvh); lra. Qed.

(** Scaling to the height bound never widens beyond the width bound. *)
Lemma scaled_width_below (bound : Q) :
  0 < bound -> binary64 bound == bound ->
  maxH * ratio <= bound -> mul maxH ratio <= bound.
Proof.
  intros B0 Bf L.
  destruct maxH_facts as (_ & _ & M0 & _). destruct ratio_near as (_ & _ & R0 & _).
  rewrite <- Bf. apply binary64_mono; [nra | exact L].
Qed.

Let h1 := div maxW ratio.

Lemma display_size_cases :
  (W <= maxW /\ H <= maxH /\ display_size vp img = (W, H))
  \/ (maxW < W /\ h1 <= maxH /\ display_size vp img = (maxW, h1))
  \/ ((W <= maxW /\ maxH < H \/ maxW < W /\ maxH < h1)
      /\ display_size vp img = (mul maxH ratio, maxH)).
Proof.
  unfold display_size. fold W H. fold maxW maxH. fold ratio. fold h1.
  destruct (Qgtb W maxW) eqn:A.
  - apply Qgtb_true in A.
    destruct (Qgtb h1 maxH) eqn:B.
    + apply Qgtb_true in B. right. right. split; [right; split; assumption|].
      reflexivity.
    + apply Qgtb_false in B. right. left. repeat split; assumption.
  - apply Qgtb_false in A.
    destruct (Qgtb H maxH) eqn:B.
    + apply Qgtb_true in B. right. right. split; [left; split; assumption|].
      reflexivity.
    + apply Qgtb_false in B. left. repeat split; assumption.
Qed.

Lemma W_fixed : binary64 W == W.
Proof. apply binary64_Z. lia. Qed.

Lemma H_representable : representable H.
Proof. apply representable_Z. lia. Qed.

Lemma h1_near :
  maxW / ratio * (1 - u) <= h1 /\ h1 <= maxW / ratio * (1 + u)
  /\ 0 < maxW / ratio.
Proof.
  destruct maxW_facts as (_ & _ & M0 & M1 & _).
  destruct ratio_near as (_ & _ & R0 & R1).
  assert ((1 # 1099511627776) <= maxW / ratio) as N.
  { apply Qle_shift_div_l; [lra | nra]. }
  destruct (binary64_near _ N) as [A B].
  fold (div maxW ratio) in A, B. fold h1 in A, B.
  repeat split; try assumption. lra.
Qed.

(** In the third case the scaled width stays within the width bound. *)
Lemma scaled_width_bound :
  (W <= maxW /\ maxH < H \/ maxW < W /\ maxH < h1) ->
  mul maxH ratio <= maxW.
Proof.
  destruct maxW_facts as (_ & _ & M0 & _ & Mf & _).
  destruct maxH_facts as (_ & _ & N0 & _ & Nf & Nr).
  destruct ratio_near as (_ & _ & R0 & _).
  destruct W_range as [W0 _]. destruct H_range as [H0 _].
  intros [[A B] | [A B]].
  - eapply Qle_trans; [|exact A].
    apply scaled_width_below; [lra | exact W_fixed |].
    pose proof (representable_gap maxH H ltac:(lra) B Nr H_representable) as G.
    change (2 ^ (-53)) with u in G.
    destruct ratio_times_H as [_ RH].
    assert (maxH * ratio * H <= W * H) as K.
    { setoid_replace (maxH * ratio * H) with (maxH * (ratio * H)) by ring.
      apply Qle_trans with (maxH * (W * (1 + u))).
      - apply Qmult_le_l; lra.
      - setoid_replace (maxH * (W * (1 + u))) with (W * (maxH * (1 + u))) by ring.
        apply Qmult_le_l; lra. }
    apply (Qmult_le_r _ _ H); lra.
  - apply scaled_width_below; [lra | exact Mf |].
    destruct (Qlt_le_dec maxW (maxH * ratio)) as [C|C]; [|exact C].
    exfalso.
    destruct h1_near as (_ & _ & T0).
    assert (maxW / ratio <= maxH) as D.
    { apply Qle_shift_div_r; lra. }
    pose proof (binary64_mono _ _ T0 D) as E.
    fold (div maxW ratio) in E. fold h1 in E. rewrite Nf in E. lra.
Qed.

Lemma display_size_within :
  fst (display_size vp img) <= maxW
  /\ snd (display_size vp img) <= maxH.
Proof.
  destruct display_size_cases as [(A & B & ->) | [(A & B & ->) | (C & ->)]];
    cbn [fst snd].
  - split; assumption.
  - split; [apply Qle_refl | assumption].
  - split; [apply scaled_width_bound, C | apply Qle_refl].
Qed.

Lemma display_size_ratio :
  (1 - eps) * (snd (display_size vp img) * W)
  <= fst (display_size vp img) * H
  /\ fst (display_size vp img) * H
     <= (1 + eps) * (snd (display_size vp img) * W).
Proof.
  destruct maxW_facts as (_ & _ & M0 & _).
  destruct maxH_facts as (_ & _ & N0 & _).
  destruct ratio_near as (_ & _ & R0 & _).
  destruct W_range as [W0 _]. destruct H_range as [H0 _].
  destruct ratio_times_H as [RL RU].
  destruct display_size_cases as [(A & B & ->) | [(A & B & ->) | (C & ->)]];
    cbn [fst snd].
  - assert (0 <= H * W) by nra. unfold eps. split.
    + setoid_replace (W * H) with (H * W) by ring. lra.
    + setoid_replace (W * H) with (H * W) by ring. lra.
  - destruct h1_near as (TL & TU & T0).
    set (t := maxW / ratio) in *.
    assert (maxW == t * ratio) as Et by (unfold t; field; lra).
    assert (0 <= t * W) as P0 by nra.
    assert (t * W * (1 - u) <= h1 * W /\ h1 * W <= t * W * (1 + u)) as [Y1 Y2].
    { split.
      - setoid_replace (t * W * (1 - u)) with (t * (1 - u) * W) by ring.
        apply Qmult_le_compat_r; lra.
      - setoid_replace (t * W * (1 + u)) with (t * (1 + u) * W) by ring.
        apply Qmult_le_compat_r; lra. }
    assert (t * W * (1 - u) <= maxW * H /\ maxW * H <= t * W * (1 + u)) as [Z1 Z2].
    { rewrite Et. split.
      - setoid_replace (t * W * (1 - u)) with (t * (W * (1 - u))) by ring.
        setoid_replace (t * ratio * H) with (t * (ratio * H)) by ring.
        apply Qmult_le_l; lra.
      - setoid_replace (t * W * (1 + u)) with (t * (W * (1 + u))) by ring.
        setoid_replace (t * ratio * H) with (t * (ratio * H)) by ring.
        apply Qmult_le_l; lra. }
    clearbody t. unfold u, eps in *. split; lra.
  - assert ((1 # 1099511627776) <= maxH * ratio) as N by nra.
    destruct (binary64_near _ N) as [A B].
    fold (mul maxH ratio) in A, B.
    set (x := mul maxH ratio) in *.
    assert (0 <= maxH * W) as P0 by nra.
    assert (maxH * W * (1 - u) <= maxH * ratio * H
            /\ maxH * ratio * H <= maxH * W * (1 + u)) as [X1 X2].
    { split.
      - setoid_replace (maxH * W * (1 - u)) with (maxH * (W * (1 - u))) by ring.
        setoid_replace (maxH * ratio * H) with (maxH * (ratio * H)) by ring.
        apply Qmult_le_l; lra.
      - setoid_replace (maxH * W * (1 + u)) with (maxH * (W * (1 + u))) by ring.
        setoid_replace (maxH * ratio * H) with (maxH * (ratio * H)) by ring.
        apply Qmult_le_l; lra. }
    assert (maxH * ratio * H * (1 - (1 # 9007199254740992)) <= x * H
            /\ x * H <= maxH * ratio * H * (1 + (1 # 9007199254740992)))
      as [Y1 Y2].
    { split.
      - setoid_replace (maxH * ratio * H * (1 - (1 # 9007199254740992)))
          with (maxH * ratio * (1 - (1 # 9007199254740992)) * H) by ring.
        apply Qmult_le_compat_r; lra.
      - setoid_replace (maxH * ratio * H * (1 + (1 # 9007199254740992)))
          with (maxH * ratio * (1 + (1 # 9007199254740992)) * H) by ring.
        apply Qmult_le_compat_r; lra. }
    clearbody x. unfold u, eps in *. split; lra.
Qed.

Lemma display_size_keeps_native :
  W <= maxW -> H <= maxH -> display_size vp img = (W, H).
Proof.
  intros A B.
  destruct display_size_cases as [(_ & _ & E) | [(A' & _) | ([[_ C]|[C _]] & _)]];
    [exact E | exfalso; lra ..].
Qed.

Lemma strictly_inside_width : (10 * image_width img < 8 * innerWidth vp)%Z -> W <= maxW.
Proof.
  intros L. destruct maxW_facts as (A & _).
  assert (10 * W + 1 <= 8 * inject_Z (innerWidth vp)) as L'.
  { unfold W. change 10 with (inject_Z 10). change 8 with (inject_Z 8).
    change 1 with (inject_Z 1).
    rewrite <- !inject_Z_mult, <- inject_Z_plus, <- Zle_Qle. lia. }
  pose proof (inject_Z_below (innerWidth vp) _ (proj2 Hvw)) as V.
  change (inject_Z (2 ^ 31)) with 2147483648 in V.
  unfold eps in A. lra.
Qed.

Lemma strictly_inside_height : (10 * image_height img < 7 * innerHeight vp)%Z -> H <= maxH.
Proof.
  intros L. destruct maxH_facts as (A & _).
  assert (10 * H + 1 <= 7 * inject_Z (innerHeight vp)) as L'.
  { unfold H. change 10 with (inject_Z 10). change 7 with (inject_Z 7).
    change 1 with (inject_Z 1).
    rewrite <- !inject_Z_mult, <- inject_Z_plus, <- Zle_Qle. lia. }
  pose proof (inject_Z_below (innerHeight vp) _ (proj2 Hvh)) as V.
  change (inject_Z (2 ^ 31)) with 2147483648 in V.
  unfold eps in A. lra.
Qed.

Lemma display_size_positive :
  0 < fst (display_size vp img) /\ 0 < snd (display_size vp img).
Proof.
  destruct maxW_facts as (_ & _ & M0 & _).
  destruct maxH_facts as (_ & _ & N0 & _).
  destruct ratio_near as (_ & _ & R0 & _).
  destruct W_range as [W0 _]. destruct H_range as [H0 _].
  destruct display_size_cases as [(A & B & ->) | [(A & B & ->) | (C & ->)]];
    cbn [fst snd].
  - split; lra.
  - destruct h1_near as (TL & _ & T0). unfold u in TL. split; [lra | nra].
  - assert ((1 # 1099511627776) <= maxH * ratio) as N by nra.
    destruct (binary64_near _ N) as [A _].
    fold (mul maxH ratio) in A. split; [nra | lra].
Qed.

End DisplaySize.

Lemma canvas_dimension_floor (default : Z) (x : Q) :
  0 <= x -> x <= 2147483647 -> canvas_dimension default x = Qfloor x.
Proof.
  intros L U. unfold canvas_dimension, to_unsigned_long, integer_part.
  assert (Qle_bool 0 x = true) as -> by now apply Qle_bool_iff.
  pose proof (Qfloor_resp_le _ _ L) as F0.
  pose proof (Qfloor_resp_le _ _ U) as F1.
  change 0 with (inject_Z 0) in F0. rewrite Qfloor_Z in F0.
  change 2147483647 with (inject_Z 2147483647) in F1. rewrite Qfloor_Z in F1.
  rewrite Z.mod_small by lia.
  assert ((Qfloor x <=? 2147483647)%Z = true) as -> by (apply Z.leb_le; lia).
  reflexivity.
Qed.

(** The claim of C6 fails in three ways.  In a window of 1280 by 720 an
    image of 504 by 504 is within 80% of the width and 70% of the height
    ([0.7 * 720 = 504]), yet it is scaled down, since the number
    [720 * 0.7] is 503.99999999999994; the canvas becomes 503 by 503.
    In a window of 1366 by 768 an image of 1000 by 1000 is displayed at
    537.6 (rounded) by as much, a size the bitmap cannot have: the
    canvas becomes 537 by 537.  And an image of 1920 by 1080 in that
    window keeps its aspect ratio exactly neither in the display size
    nor in the bitmap (955 by 537). *)
Lemma open_display_size_counterexample :
  let opened vp img :=
    open (decoding_to img) vp "data:image/png;base64,aW1n" (mount true) in
  (inject_Z 504 <= inject_Z 1280 * 0.8 /\ inject_Z 504 <= inject_Z 720 * 0.7
   /\ snd (display_size hd_window (sized 504 504)) < 504
   /\ canvas_width (opened hd_window (sized 504 504)) = 503
   /\ canvas_height (opened hd_window (sized 504 504)) = 503)
  /\ (537 < fst (display_size laptop_window (sized 1000 1000))
      /\ fst (display_size laptop_window (sized 1000 1000)) < 538
      /\ canvas_width (opened laptop_window (sized 1000 1000)) = 537
      /\ canvas_height (opened laptop_window (sized 1000 1000)) = 537)
  /\ (~ (fst (display_size laptop_window (sized 1920 1080)) * 1080
         == snd (display_size laptop_window (sized 1920 1080)) * 1920)
      /\ canvas_width (opened laptop_window (sized 1920 1080)) = 955
      /\ canvas_height (opened laptop_window (sized 1920 1080)) = 537
      /\ (955 * 1080 <> 537 * 1920)%Z).
Proof.
  intros opened. subst opened. cbv beta.
  repeat split; try (vm_compute; reflexivity); vm_compute; discriminate.
Qed.

(** C6, amended.  For an image of positive size in a window of positive
    size, the display size computed on opening is positive and at most
    [maxWidth] by [maxHeight], the numbers [innerWidth * 0.8] and
    [innerHeight * 0.7], which exceed 80% and 70% of the window by at
    most the relative rounding error [2^-51]; it has the aspect ratio of
    the image up to that relative error; it is the native size when the
    image is within [maxWidth] and [maxHeight], which it is whenever it
    is strictly inside 80% and 70% of the window.  The container is
    given the display size and the image as its background; the canvas
    is given the integer part of the display size, less than one pixel
    below it, and holds a cleared bitmap into which the image is not
    drawn. *)
Theorem open_display_size (env : Platform) (vp : Viewport) (url : string)
        (img : Image) (s : Editor) :
  (0 < image_width img < 2 ^ 32)%Z -> (0 < image_height img < 2 ^ 32)%Z ->
  (0 < innerWidth vp < 2 ^ 31)%Z -> (0 < innerHeight vp < 2 ^ 31)%Z ->
  let W := inject_Z (image_width img) in
  let H := inject_Z (image_height img) in
  let maxWidth := mul (inject_Z (innerWidth vp)) (binary64 0.8) in
  let maxHeight := mul (inject_Z (innerHeight vp)) (binary64 0.7) in
  let eps := 2 ^ (-51) in
  let width := fst (display_size vp img) in
  let height := snd (display_size vp img) in
  (0 < width /\ width <= maxWidth /\ 0 < height /\ height <= maxHeight)
  /\ (maxWidth <= inject_Z (innerWidth vp) * 0.8 * (1 + eps)
      /\ maxHeight <= inject_Z (innerHeight vp) * 0.7 * (1 + eps))
  /\ ((1 - eps) * (height * W) <= width * H
      /\ width * H <= (1 + eps) * (height * W))
  /\ (W <= maxWidth -> H <= maxHeight -> width = W /\ height = H)
  /\ ((10 * image_width img < 8 * innerWidth vp)%Z ->
      (10 * image_height img < 7 * innerHeight vp)%Z ->
      width = W /\ height = H)
  /\ (context s <> None -> loadImage env url = Loaded img ->
      let s' := open env vp url s in
      canvas_width s' = inject_Z (Qfloor width)
      /\ canvas_height s' = inject_Z (Qfloor height)
      /\ width - 1 < canvas_width s' /\ canvas_width s' <= width
      /\ height - 1 < canvas_height s' /\ canvas_height s' <= height
      /\ option_map edit_log (context s')
         = Some [ClearRect 0 0 width height]
      /\ container_style s'
         = Some {| style_width := width; style_height := height;
                   backgroundImage := "url(" ++ url ++ ")";
                   backgroundSize := "contain";
                   backgroundRepeat := "no-repeat";
                   backgroundPosition := "center" |}).
Proof.
  intros Hw Hh Hvw Hvh W H maxWidth maxHeight eps width height.
  change eps with (1 # 2251799813685248).
  destruct (display_size_positive vp img Hvw Hvh Hw Hh) as [P1 P2].
  destruct (display_size_within vp img Hvw Hvh Hw Hh) as [B1 B2].
  destruct (maxW_facts vp Hvw) as (_ & M1 & _ & M2 & _).
  destruct (maxH_facts vp Hvh) as (_ & N1 & _ & N2 & _).
  pose proof (display_size_ratio vp img Hvw Hvh Hw Hh) as R.
  pose proof (display_size_keeps_native vp img) as K.
  fold width height in P1, P2, B1, B2, R. fold W H in R, K.
  fold maxWidth in B1, M1, M2, K. fold maxHeight in B2, N1, N2, K.
  split; [repeat split; assumption|].
  split; [split; assumption|].
  split; [exact R|].
  split; [intros L1 L2; unfold width, height; now rewrite (K L1 L2)|].
  split.
  - intros L1 L2. unfold width, height.
    rewrite K; [split; reflexivity | |].
    + apply (strictly_inside_width vp img Hvw), L1.
    + apply (strictly_inside_height vp img Hvh), L2.
  - intros Hc Hl s'. subst s'. unfold open. rewrite Hl.
    destruct (context s); [|contradiction].
    unfold onload. fold width height.
    rewrite (surjective_pairing (display_size vp img)).
    fold width height. cbn [canvas_width canvas_height context container_style
                            option_map edit_log].
    rewrite !canvas_dimension_floor by lra.
    pose proof (Qfloor_le width) as F1. pose proof (Qlt_floor width) as F2.
    pose proof (Qfloor_le height) as G1. pose proof (Qlt_floor height) as G2.
    rewrite inject_Z_plus in F2, G2.
    change (inject_Z 1) with 1 in F2, G2.
    repeat split; try reflexivity; lra.
Qed.

Lemma open_display_size_witness :
  let img := sized 1000 1000 in
  let s' := open (decoding_to img) laptop_window
                 "data:image/png;base64,aW1n" (mount true) in
  fst (display_size laptop_window img)
  <= mul (inject_Z 1366) (binary64 0.8)
  /\ snd (display_size laptop_window img)
     <= mul (inject_Z 768) (binary64 0.7)
  /\ canvas_width s' = inject_Z (Qfloor (fst (display_size laptop_window img)))
  /\ canvas_height s' = inject_Z (Qfloor (snd (display_size laptop_window img))).
Proof.
  intros img s'.
  destruct (open_display_size (decoding_to img) laptop_window
              "data:image/png;base64,aW1n" img (mount true))
    as ((_ & B1 & _ & B2) & _ & _ & _ & _ & C).
  - split; reflexivity.
  - split; reflexivity.
  - split; reflexivity.
  - split; reflexivity.
  - destruct C as (C1 & C2 & _).
    + discriminate.
    + reflexivity.
    + repeat split; assumption.
Defined.

(** The rounding agrees with the Standard Library's specification of
    IEEE 754 on the numbers of the examples. *)
Example binary64_agrees_with_ieee :
  ieee_agrees (ieee_div (ieee_of_Z 8) (ieee_of_Z 10)) (binary64 0.8) = true
  /\ ieee_agrees (ieee_div (ieee_of_Z 7) (ieee_of_Z 10)) (binary64 0.7) = true
  /\ ieee_agrees (ieee_mul (ieee_of_Z 720)
                           (ieee_div (ieee_of_Z 7) (ieee_of_Z 10)))
                 (mul 720 (binary64 0.7)) = true
  /\ ieee_agrees (ieee_mul (ieee_of_Z 768)
                           (ieee_div (ieee_of_Z 7) (ieee_of_Z 10)))
                 (mul 768 (binary64 0.7)) = true
  /\ ieee_agrees (ieee_div (ieee_of_Z 1920) (ieee_of_Z 1080))
                 (div 1920 1080) = true
  /\ ieee_agrees (ieee_mul (ieee_mul (ieee_of_Z 768)
                                     (ieee_div (ieee_of_Z 7) (ieee_of_Z 10)))
                           (ieee_div (ieee_of_Z 1920) (ieee_of_Z 1080)))
                 (fst (display_size laptop_window (sized 1920 1080))) = true.
Proof. repeat split; vm_compute; reflexivity. Qed.

Example display_size_scaled :
  let '(w, h) := display_size sample_viewport (Samples.square_image "") in
  w == 560 /\ h == 560.
Proof. vm_compute. split; reflexivity. Qed.

Example display_size_native :
  let '(w, h) := display_size {| innerWidth := 2000; innerHeight := 2000 |}
                              (Samples.square_image "") in
  w == 1000 /\ h == 1000.
Proof. vm_compute. split; reflexivity. Qed.

(** *** Saving *)

(** Saving decodes the data URL anew and hands the flattened image to
    [onSave]. *)
Lemma handleSave_decodes (env : Platform) (url : string) (s : Editor)
      (img : Image) :
  getContext2d env = true ->
  loadImage env url = Loaded img ->
  exists drawing data,
    handleSave env url s = [OnSave data]
    /\ data
       = nth_error
           (JsString.split ","
              (toDataURL env
                 {| surface_width := canvas_width s;
                    surface_height := canvas_height s;
                    surface_ops :=
                      [DrawImageScaled img 0 0 (canvas_width s)
                                       (canvas_height s);
                       DrawCanvas drawing 0 0 (canvas_width s)
                                  (canvas_height s)] |})) 1.
Proof.
  intros Hc Hl. unfold handleSave. rewrite Hc, Hl.
  eexists. eexists. split; reflexivity.
Qed.

(** The image created on opening has no error handler either. *)
Lemma open_decode_failure_silent (env : Platform) (vp : Viewport)
      (url : string) (s : Editor) (event : string) :
  loadImage env url = LoadError event -> open env vp url s = s.
Proof.
  intros Hl. unfold open. rewrite Hl. now destruct (context s).
Qed.

(** The claim of C10 fails in its comparison with opening.  On a
    platform where the data URL does not decode, opening the editor
    reports nothing and leaves the editor as mounted, exactly as saving
    invokes nothing: opening is no more fail-fast than saving.  Compose
    alone rejects. *)
Lemma open_not_fail_fast_counterexample :
  let url := FileUtils.data_url "image/png" "Z2FyYmFnZQ==" in
  loadImage Samples.failing_platform url = LoadError "error"
  /\ open Samples.failing_platform sample_viewport url (mount true)
     = mount true
  /\ handleSave Samples.failing_platform url (mount true) = []
  /\ FileUtils.mergeTextAndImage Samples.failing_platform "Z2FyYmFnZQ=="
                                 "image/png" Samples.sample_caption
     = Rejected (ErrorEvent "error").
Proof. repeat split. Qed.

(** C10, amended.  When the data URL does not decode at save time,
    [handleSave] invokes no callback -- neither [onSave] nor anything
    that reports the failure -- and the editor stays as it is; compose,
    on the same undecodable data, rejects; opening, like saving, has no
    error handler and leaves the editor as it was. *)
Theorem handleSave_decode_failure_silent (env : Platform) (url : string)
        (s : Editor) (event : string) :
  loadImage env url = LoadError event ->
  handleSave env url s = []
  /\ step url s ClickSave = s
  /\ (forall mimeType base64Image text,
        url = FileUtils.data_url mimeType base64Image ->
        getContext2d env = true ->
        FileUtils.mergeTextAndImage env base64Image mimeType text
        = Rejected (ErrorEvent event))
  /\ forall vp, open env vp url s = s.
Proof.
  intros Hl. split; [|split; [|split]].
  - unfold handleSave. rewrite Hl. now destruct (getContext2d env).
  - reflexivity.
  - intros mimeType base64Image text -> Hc.
    unfold FileUtils.mergeTextAndImage. now rewrite Hc, Hl.
  - intros vp. apply (open_decode_failure_silent env vp url s event Hl).
Qed.

Lemma handleSave_decode_failure_silent_witness :
  handleSave Samples.failing_platform "data:image/png;base64,Z2FyYmFnZQ=="
             (run "data:image/png;base64,Z2FyYmFnZQ==" (mount true)
                  [MouseDown pointer_a; MouseMove pointer_b; MouseUp])
  = [].
Proof.
  apply (handleSave_decode_failure_silent Samples.failing_platform
           "data:image/png;base64,Z2FyYmFnZQ==" _ "error").
  reflexivity.
Defined.

End ComicEditorSpec.

(* ================================================================== *)
(** * Part III: further properties of the code                         *)
(* ================================================================== *)

(** ** More on word wrapping *)

Module WrapTextLines.
Import JsString WrapText WrapTextFacts.

Lemma trimStart_suffix (s : string) : exists a, s = a ++ trimStart s.
Proof.
  induction s as [|c s [a IH]]; simpl.
  - exists "". reflexivity.
  - destruct (is_white_space c).
    + exists (String c a). simpl. now rewrite <- IH.
    + exists "". reflexivity.
Qed.

Lemma trimEnd_prefix (s : string) : exists c, s = trimEnd s ++ c.
Proof.
  induction s as [|ch s [c IH]]; simpl.
  - exists "". reflexivity.
  - destruct (trimEnd s) as [|ch' r] eqn:E.
    + destruct (is_white_space ch).
      * exists (String ch s). reflexivity.
      * exists c. simpl. simpl in IH. now rewrite <- IH.
    + exists c. simpl. simpl in IH. now rewrite <- IH.
Qed.

(** A trimmed string sits inside the string it was trimmed from. *)
Lemma trim_inside (s : string) : exists a c, s = a ++ trim s ++ c.
Proof.
  destruct (trimStart_suffix s) as [a Ha].
  destruct (trimEnd_prefix (trimStart s)) as [c Hc].
  exists a, c. unfold trim. now rewrite <- Hc.
Qed.

Section Runs.
Variable measure : string -> Q.
Variable maxW : Q.

(** The first run of a layout extends the run it started from. *)
Lemma greedy_head (ws cur : list string) :
  exists p tl, greedy measure maxW cur ws = (cur ++ p)%list :: tl.
Proof.
  revert cur. induction ws as [|w rest IH]; intros cur.
  - exists [], []. simpl. now rewrite app_nil_r.
  - destruct cur as [|c cur'].
    + rewrite greedy_nil_cons. destruct (IH [w]) as (p & tl & E).
      exists (w :: p), tl. exact E.
    + rewrite greedy_cons_cons.
      destruct (fits measure maxW ((c :: cur') ++ [w])%list).
      * destruct (IH ((c :: cur') ++ [w])%list) as (p & tl & E).
        exists (w :: p), tl. rewrite E. now rewrite <- app_assoc.
      * exists [], (greedy measure maxW [w] rest). now rewrite app_nil_r.
Qed.

(** Runs of two or more words were accepted by the width test. *)
Lemma greedy_long_runs_fit (ws : list string) :
  forall cur,
    ((2 <= length cur)%nat -> fits measure maxW cur = true) ->
    forall g, In g (greedy measure maxW cur ws) ->
              (2 <= length g)%nat -> fits measure maxW g = true.
Proof.
  assert (forall w : string,
             (2 <= length [w])%nat -> fits measure maxW [w] = true) as One
      by (intros w H; simpl in H; lia).
  induction ws as [|w rest IH]; intros cur Hcur g Hin Hlen.
  - destruct Hin as [<-|[]]. now apply Hcur.
  - destruct cur as [|c cur'].
    + rewrite greedy_nil_cons in Hin. now apply (IH [w] (One w)).
    + rewrite greedy_cons_cons in Hin.
      destruct (fits measure maxW ((c :: cur') ++ [w])%list) eqn:F.
      * apply (IH ((c :: cur') ++ [w])%list); auto.
      * destruct Hin as [<-|Hin]; [now apply Hcur|].
        now apply (IH [w] (One w)).
Qed.

(** A run is closed only when the next word does not fit on it. *)
Lemma greedy_breaks_forced (ws : list string) :
  forall cur G1 g h G2,
    greedy measure maxW cur ws = (G1 ++ g :: h :: G2)%list ->
    exists w r, h = w :: r /\ fits measure maxW (g ++ [w])%list = false.
Proof.
  induction ws as [|w rest IH]; intros cur G1 g h G2 E.
  - simpl in E. destruct G1 as [|? [|? ?]]; discriminate.
  - destruct cur as [|c cur'].
    + rewrite greedy_nil_cons in E. now apply (IH _ _ _ _ _ E).
    + rewrite greedy_cons_cons in E.
      destruct (fits measure maxW ((c :: cur') ++ [w])%list) eqn:F.
      * now apply (IH _ _ _ _ _ E).
      * destruct G1 as [|g0 G1'].
        -- simpl in E. injection E as <- E.
           destruct (greedy_head rest [w]) as (p & tl & Eh).
           rewrite Eh in E. injection E as <- _.
           exists w, p. split; [reflexivity | exact F].
        -- simpl in E. injection E as _ E. now apply (IH _ _ _ _ _ E).
Qed.

Lemma greedy_length (ws : list string) :
  forall cur,
    (1 <= length (greedy measure maxW cur ws))%nat
    /\ (length (greedy measure maxW cur ws) <= 1 + length ws)%nat.
Proof.
  induction ws as [|w rest IH]; intros cur; [simpl; lia|].
  change (length (w :: rest)) with (S (length rest)).
  destruct cur as [|c cur'].
  - rewrite greedy_nil_cons. destruct (IH [w]). lia.
  - rewrite greedy_cons_cons.
    destruct (fits measure maxW ((c :: cur') ++ [w])%list).
    + destruct (IH ((c :: cur') ++ [w])%list). lia.
    + destruct (IH [w]). cbn [length]. lia.
Qed.

Lemma greedy_runs_nonempty (ws : list string) :
  forall cur, cur <> [] ->
    forall g, In g (greedy measure maxW cur ws) -> g <> [].
Proof.
  induction ws as [|w rest IH]; intros cur Hc g Hin.
  - destruct Hin as [<-|[]]. exact Hc.
  - destruct cur as [|c cur']; [contradiction|].
    rewrite greedy_cons_cons in Hin.
    destruct (fits measure maxW ((c :: cur') ++ [w])%list).
    + apply (IH ((c :: cur') ++ [w])%list); auto.
      destruct cur'; discriminate.
    + destruct Hin as [<-|Hin]; [discriminate|].
      apply (IH [w]); auto. discriminate.
Qed.

End Runs.

(** X1.  A line made of two or more words always passed the width test:
    what was measured for it is within [maxW]; so only a line of a single
    word can overflow.  When measuring is monotone the line as painted
    (trimmed) is within [maxW] too. *)
Theorem wrapText_multiword_lines_fit
        (measure : string -> Q) (maxW : Q) (text : string) (x y lineH : Q) :
  let runs := greedy measure maxW [] (split " " text) in
  wrapText measure maxW text x y lineH = map render_run runs
  /\ (forall g, In g runs -> (2 <= length g)%nat ->
                measure (line_text g) <= maxW)
  /\ ((forall a b c : string, measure b <= measure (a ++ b ++ c)) ->
      forall g, In g runs -> (2 <= length g)%nat ->
                measure (render_run g) <= maxW).
Proof.
  intros runs. split; [apply wrapText_greedy|].
  assert (forall g, In g runs ->
                    (2 <= length g)%nat -> measure (line_text g) <= maxW) as F.
  { intros g Hin Hlen. apply Qle_bool_iff.
    apply (greedy_long_runs_fit measure maxW (split " " text) []); auto.
    intros H. simpl in H. lia. }
  split; [exact F|].
  intros mono g Hin Hlen. unfold render_run.
  destruct (trim_inside (line_text g)) as (a & c & E).
  eapply Qle_trans; [|apply (F g Hin Hlen)].
  rewrite E at 2. apply mono.
Qed.

Lemma wrapText_multiword_lines_fit_witness :
  wrapText Samples.pitch_measure 10 "um dois extraordinariamente" 0 0 0
  = ["um dois"; "extraordinariamente"]
  /\ Samples.pitch_measure (line_text ["um"; "dois"]) <= 10
  /\ Samples.pitch_measure (render_run ["um"; "dois"]) <= 10.
Proof.
  destruct (wrapText_multiword_lines_fit Samples.pitch_measure 10
              "um dois extraordinariamente" 0 0 0) as (E & F & M).
  split; [rewrite E; vm_compute; reflexivity|]. split.
  - apply F; [vm_compute; left; reflexivity | simpl; lia].
  - apply M.
    + exact WrapTextSpec.pitch_measure_mono.
    + vm_compute. left. reflexivity.
    + simpl. lia.
Defined.

(** X2.  Lines are broken only when forced: wherever one line ends and
    the next begins, the first word of the next line, added to the line
    before it, would have measured more than [maxW]. *)
Theorem wrapText_breaks_only_when_forced
        (measure : string -> Q) (maxW : Q) (text : string) (x y lineH : Q) :
  let runs := greedy measure maxW [] (split " " text) in
  wrapText measure maxW text x y lineH = map render_run runs
  /\ forall before g h after,
      runs = (before ++ g :: h :: after)%list ->
      exists w rest,
        h = w :: rest
        /\ maxW < measure (line_text (g ++ [w])%list).
Proof.
  intros runs. split; [apply wrapText_greedy|].
  intros before g h after E.
  destruct (greedy_breaks_forced measure maxW _ _ _ _ _ _ E) as (w & r & -> & F).
  exists w, r. split; [reflexivity|].
  apply Qnot_le_lt. intros L. apply Qle_bool_iff in L.
  unfold fits in F. congruence.
Qed.

Lemma wrapText_breaks_only_when_forced_witness :
  exists w rest,
    ["tres"; "um"] = w :: rest
    /\ 10 < Samples.pitch_measure (line_text (["um"; "dois"] ++ [w])%list).
Proof.
  destruct (wrapText_breaks_only_when_forced Samples.pitch_measure 10
              "um dois tres um" 0 0 0) as [_ B].
  apply (B [] ["um"; "dois"] ["tres"; "um"] []).
  vm_compute. reflexivity.
Defined.

(** X3.  [wrapText] returns at least one line and at most one line per
    word, and no line is made of no word. *)
Theorem wrapText_line_count
        (measure : string -> Q) (maxW : Q) (text : string) (x y lineH : Q) :
  let runs := greedy measure maxW [] (split " " text) in
  wrapText measure maxW text x y lineH = map render_run runs
  /\ (1 <= length (wrapText measure maxW text x y lineH))%nat
  /\ (length (wrapText measure maxW text x y lineH)
      <= length (split " " text))%nat
  /\ forall g, In g runs -> g <> [].
Proof.
  intros runs. split; [apply wrapText_greedy|].
  rewrite wrapText_greedy, length_map. fold runs. subst runs.
  destruct (split " " text) as [|w rest] eqn:E.
  - now destruct (split_nonempty " " text).
  - rewrite greedy_nil_cons.
    destruct (greedy_length measure maxW rest [w]) as [L1 L2].
    split; [exact L1|]. split; [simpl; lia|].
    apply greedy_runs_nonempty. discriminate.
Qed.

Lemma wrapText_line_count_witness :
  ["um"; "dois"] <> [].
Proof.
  destruct (wrapText_line_count Samples.pitch_measure 10
              "um dois extraordinariamente" 0 0 0) as (_ & _ & _ & N).
  apply N. vm_compute. left. reflexivity.
Defined.

End WrapTextLines.

(** ** More on the caption compositor *)

Module ComposeLayout.
Import Canvas2D FileUtils Layout Painted ComposeFacts.










Example sample_headline_wraps_in_two :
  headline_lines Samples.decoding_platform (Samples.square_image "")
                 Samples.sample_caption
  = ["Como crescer no"; "Instagram em 2024"].
Proof. vm_compute. reflexivity. Qed.


Lemma Math_round_mono (x y : Q) : x <= y -> (Math_round x <= Math_round y)%Z.
Proof. intros L. unfold Math_round. apply Qfloor_resp_le. lra. Qed.






(** X8.  For a non-negative width the three font sizes keep their
    hierarchy and their floors: [16 <= tag <= cta <= headline], with
    [18 <= cta] and [32 <= headline]; and each grows with the width. *)
Theorem font_sizes_hierarchy (w w' : Z) :
  (0 <= w <= w')%Z ->
  (16 <= tagFontSize_of w)%Z
  /\ (tagFontSize_of w <= ctaFontSize_of w)%Z
  /\ (18 <= ctaFontSize_of w)%Z
  /\ (ctaFontSize_of w <= headlineFontSize_of w)%Z
  /\ (32 <= headlineFontSize_of w)%Z
  /\ (tagFontSize_of w <= tagFontSize_of w')%Z
  /\ (ctaFontSize_of w <= ctaFontSize_of w')%Z
  /\ (headlineFontSize_of w <= headlineFontSize_of w')%Z.
Proof.
  intros [H0 Hle].
  assert (0 <= inject_Z w) as Q0
      by (change 0 with (inject_Z 0); now rewrite <- Zle_Qle).
  assert (inject_Z w <= inject_Z w') as Qle by now rewrite <- Zle_Qle.
  assert (forall a b : Q, a == b -> (Math_round a <= Math_round b)%Z) as Req
      by (intros a b E; apply Math_round_mono; rewrite E; apply Qle_refl).
  assert (Math_round (inject_Z w / 35) <= Math_round (inject_Z w / 30))%Z as A.
  { apply Math_round_mono.
    setoid_replace (inject_Z w / 35) with (inject_Z w * (1 # 35)) by field.
    setoid_replace (inject_Z w / 30) with (inject_Z w * (1 # 30)) by field.
    lra. }
  assert (Math_round (inject_Z w / 30) <= Math_round (inject_Z w / 15))%Z as B.
  { apply Math_round_mono.
    setoid_replace (inject_Z w / 30) with (inject_Z w * (1 # 30)) by field.
    setoid_replace (inject_Z w / 15) with (inject_Z w * (1 # 15)) by field.
    lra. }
  assert (forall d : Q, 0 < d ->
            (Math_round (inject_Z w / d) <= Math_round (inject_Z w' / d))%Z) as C.
  { intros d Hd. apply Math_round_mono.
    unfold Qdiv. apply Qmult_le_compat_r; [exact Qle|].
    apply Qlt_le_weak, Qinv_lt_0_compat, Hd. }
  pose proof (C 35 ltac:(lra)). pose proof (C 30 ltac:(lra)).
  pose proof (C 15 ltac:(lra)).
  unfold tagFontSize_of, ctaFontSize_of, headlineFontSize_of. lia.
Qed.

Lemma font_sizes_hierarchy_witness :
  (tagFontSize_of 1000 <= ctaFontSize_of 1000)%Z
  /\ (ctaFontSize_of 1000 <= headlineFontSize_of 1000)%Z
  /\ (headlineFontSize_of 1000 <= headlineFontSize_of 2000)%Z.
Proof.
  destruct (font_sizes_hierarchy 1000 2000) as (_ & A & _ & B & _ & _ & _ & C).
  - lia.
  - repeat split; assumption.
Defined.

End ComposeLayout.

(** ** The posts state and the card *)

Module AppSpec.
Import PostCard App.

Lemma set_part_at_length i part value ts :
  length (set_part_at i part value ts) = length ts.
Proof.
  revert i. induction ts as [|t rest IH]; intros [|i]; simpl; auto.
Qed.

Lemma set_part_at_same i part value ts t :
  nth_error ts i = Some t ->
  nth_error (set_part_at i part value ts) i = Some (set_part part value t).
Proof.
  revert i. induction ts as [|t0 rest IH]; intros [|i] H; simpl in *;
    try discriminate.
  - now injection H as ->.
  - now apply IH.
Qed.

Lemma set_part_at_other i j part value ts :
  i <> j ->
  nth_error (set_part_at i part value ts) j = nth_error ts j.
Proof.
  revert i j. induction ts as [|t0 rest IH]; intros [|i] [|j] H; simpl;
    try reflexivity; try contradiction.
  apply IH. congruence.
Qed.

Lemma set_part_at_twice i part v1 v2 ts :
  set_part_at i part v2 (set_part_at i part v1 ts) = set_part_at i part v2 ts.
Proof.
  revert i. induction ts as [|t rest IH]; intros [|i]; simpl; auto.
  - now destruct part.
  - now rewrite IH.
Qed.

Lemma set_part_at_commute i part1 part2 v1 v2 ts :
  part1 <> part2 ->
  set_part_at i part2 v2 (set_part_at i part1 v1 ts)
  = set_part_at i part1 v1 (set_part_at i part2 v2 ts).
Proof.
  intros Hp. revert i. induction ts as [|t rest IH]; intros [|i]; simpl; auto.
  - destruct part1, part2; try contradiction; reflexivity.
  - now rewrite IH.
Qed.

Lemma js_index_set_part_at i part value ts :
  js_index (set_part_at (Z.to_nat i) part value ts) i
  = option_map (set_part part value) (js_index ts i).
Proof.
  unfold js_index. destruct (i <? 0)%Z; [reflexivity|].
  destruct (nth_error ts (Z.to_nat i)) as [t|] eqn:E.
  - now rewrite (set_part_at_same _ _ _ _ _ E).
  - simpl. apply nth_error_None. rewrite set_part_at_length.
    now apply nth_error_None.
Qed.

Lemma map_unchanged {A} (f : A -> A) (l : list A) :
  (forall x, In x l -> f x = x) -> map f l = l.
Proof.
  intros H. rewrite <- (map_id l) at 2. apply map_ext_in. exact H.
Qed.

(** X10.  Editing a part of the caption of a card, with ids unique and
    the index on a caption: in the post of the card exactly that part of
    the active caption takes the new value -- the other two parts, the
    other captions, their number, the index, the image and the mime type
    stay -- and every other post is left as it is. *)
Theorem caption_part_edit_is_local (p : Post) (before after : list Post)
        (part : CaptionPart) (value : string) (t : StructuredText) :
  (forall q, In q (before ++ after)%list -> id q <> id p) ->
  activeText p = Some t ->
  exists p',
    handleCaptionPartChange (Some (before ++ p :: after)%list) (id p)
                            part value
    = Some (before ++ p' :: after)%list
    /\ activeText p' = Some (set_part part value t)
    /\ get_part part (set_part part value t) = value
    /\ (forall other, other <> part ->
          get_part other (set_part part value t) = get_part other t)
    /\ (forall j, j <> activeTextIndex p ->
          js_index (texts p') j = js_index (texts p) j)
    /\ length (texts p') = length (texts p)
    /\ id p' = id p /\ image p' = image p
    /\ imageMimeType p' = imageMimeType p
    /\ activeTextIndex p' = activeTextIndex p.
Proof.
  intros Hid Ht.
  assert (js_index (texts p) (activeTextIndex p) = Some t) as Hj.
  { unfold activeText in Ht. destruct (0 <? length (texts p))%nat;
      [exact Ht | discriminate]. }
  exists (with_texts p (set_part_at (Z.to_nat (activeTextIndex p)) part value
                          (texts p))).
  split; [|split; [|split; [|split; [|split; [|split]]]]].
  - unfold handleCaptionPartChange. f_equal. rewrite map_app. cbn [map].
    f_equal; [|f_equal].
    + apply map_unchanged. intros q Hq. unfold change_part.
      destruct (String.eqb_spec (id q) (id p)) as [E|]; [|reflexivity].
      exfalso. apply (Hid q); [apply in_or_app; now left | exact E].
    + unfold change_part. now rewrite String.eqb_refl, Hj.
    + apply map_unchanged. intros q Hq. unfold change_part.
      destruct (String.eqb_spec (id q) (id p)) as [E|]; [|reflexivity].
      exfalso. apply (Hid q); [apply in_or_app; now right | exact E].
  - unfold activeText. cbn [with_texts texts activeTextIndex].
    rewrite set_part_at_length, js_index_set_part_at, Hj.
    unfold activeText in Ht.
    destruct (0 <? length (texts p))%nat; [reflexivity | discriminate].
  - now destruct part.
  - intros other Ho. destruct part, other; try reflexivity; contradiction.
  - intros j Hjne. cbn [with_texts texts]. unfold js_index.
    destruct (Z.ltb_spec j 0) as [|Hj0]; [reflexivity|].
    unfold js_index in Hj.
    destruct (Z.ltb_spec (activeTextIndex p) 0) as [|Hi0]; [discriminate|].
    apply set_part_at_other. intros E. apply Hjne.
    apply Z2Nat.inj in E; lia.
  - cbn [with_texts texts]. apply set_part_at_length.
  - repeat split.
Qed.

Lemma caption_part_edit_is_local_witness :
  exists p',
    handleCaptionPartChange (Some two_posts) (id three_caption_post)
                            PartHeadline "Novo titulo"
    = Some ([] ++ p' :: tl two_posts)%list
    /\ activeText p'
       = Some (set_part PartHeadline "Novo titulo"
                        Samples.empty_headline_caption).
Proof.
  destruct (caption_part_edit_is_local three_caption_post [] (tl two_posts)
              PartHeadline "Novo titulo" Samples.empty_headline_caption)
    as (p' & E & A & _).
  - intros q [<-|[]]. discriminate.
  - reflexivity.
  - exists p'. split; assumption.
Defined.

(** X11.  Editing a caption part changes nothing when there is nothing
    to edit: no posts, no post with that id, or a post whose index is on
    no caption. *)
Theorem caption_part_edit_without_target (ps : list Post) (postId : string)
        (part : CaptionPart) (value : string) :
  (forall q, In q ps -> id q = postId -> activeText q = None) ->
  handleCaptionPartChange (Some ps) postId part value = Some ps
  /\ handleCaptionPartChange None postId part value = None.
Proof.
  intros H. split; [|reflexivity].
  unfold handleCaptionPartChange. f_equal. apply map_unchanged.
  intros q Hq. unfold change_part.
  destruct (String.eqb_spec (id q) postId) as [E|]; [|reflexivity].
  specialize (H q Hq E). unfold activeText in H.
  destruct (texts q) as [|t0 ts] eqn:Et.
  - unfold js_index. destruct (activeTextIndex q <? 0)%Z; [reflexivity|].
    now destruct (Z.to_nat (activeTextIndex q)).
  - cbn in H. now rewrite H.
Qed.

Lemma caption_part_edit_without_target_witness :
  handleCaptionPartChange (Some [stale_post]) (id stale_post) PartTag "X"
  = Some [stale_post].
Proof.
  apply (caption_part_edit_without_target [stale_post] (id stale_post)
           PartTag "X").
  intros q [<-|[]] _. reflexivity.
Defined.

(** X12.  Caption edits compose as writes to fields do: of two edits of
    the same part of the same card the later one wins, and edits of
    different parts can be made in either order. *)
Theorem caption_part_edits_compose (st : option (list Post))
        (postId : string) (part part' : CaptionPart) (v1 v2 : string) :
  handleCaptionPartChange (handleCaptionPartChange st postId part v1)
                          postId part v2
  = handleCaptionPartChange st postId part v2
  /\ (part <> part' ->
      handleCaptionPartChange (handleCaptionPartChange st postId part v1)
                              postId part' v2
      = handleCaptionPartChange (handleCaptionPartChange st postId part' v2)
                                postId part v1).
Proof.
  assert (forall pt v q,
             String.eqb (id (change_part postId pt v q)) postId
             = String.eqb (id q) postId) as Hid.
  { intros pt v q. unfold change_part.
    destruct (String.eqb (id q) postId) eqn:E; [|exact E].
    destruct (js_index (texts q) (activeTextIndex q)); exact E. }
  assert (forall pt pt' v v' q,
             change_part postId pt' v' (change_part postId pt v q)
             = if String.eqb (id q) postId then
                 match js_index (texts q) (activeTextIndex q) with
                 | Some _ =>
                     with_texts q
                       (set_part_at (Z.to_nat (activeTextIndex q)) pt' v'
                          (set_part_at (Z.to_nat (activeTextIndex q)) pt v
                             (texts q)))
                 | None => q
                 end
               else q) as Hcc.
  { intros pt pt' v v' q. unfold change_part at 1.
    rewrite Hid. unfold change_part.
    destruct (String.eqb (id q) postId) eqn:E; [|reflexivity].
    destruct (js_index (texts q) (activeTextIndex q)) as [t|] eqn:J.
    - cbn [with_texts texts activeTextIndex].
      rewrite js_index_set_part_at, J. reflexivity.
    - now rewrite J. }
  destruct st as [ps|]; [|split; reflexivity].
  unfold handleCaptionPartChange. split.
  - f_equal. rewrite map_map. apply map_ext. intros q.
    rewrite Hcc. unfold change_part.
    destruct (String.eqb (id q) postId); [|reflexivity].
    destruct (js_index (texts q) (activeTextIndex q)); [|reflexivity].
    now rewrite set_part_at_twice.
  - intros Hne. f_equal. rewrite !map_map. apply map_ext. intros q.
    rewrite !Hcc.
    destruct (String.eqb (id q) postId); [|reflexivity].
    destruct (js_index (texts q) (activeTextIndex q)); [|reflexivity].
    f_equal. apply set_part_at_commute. exact Hne.
Qed.

Lemma caption_part_edits_compose_witness :
  handleCaptionPartChange
    (handleCaptionPartChange (Some two_posts) (id three_caption_post)
                             PartTag "A")
    (id three_caption_post) PartCta "B"
  = handleCaptionPartChange
      (handleCaptionPartChange (Some two_posts) (id three_caption_post)
                               PartCta "B")
      (id three_caption_post) PartTag "A".
Proof.
  apply (caption_part_edits_compose (Some two_posts) (id three_caption_post)
           PartTag PartCta "A" "B").
  discriminate.
Defined.

Lemma unique_id (ps : list Post) (a b : Post) :
  NoDup (map id ps) -> In a ps -> In b ps -> id a = id b -> a = b.
Proof.
  induction ps as [|p ps IH]; intros Hnd Ha Hb E; [contradiction|].
  cbn [map] in Hnd. inversion Hnd as [|? ? Hnotin Hnd']; subst.
  destruct Ha as [<-|Ha], Hb as [<-|Hb]; auto.
  - exfalso. apply Hnotin. rewrite E. now apply in_map.
  - exfalso. apply Hnotin. rewrite <- E. now apply in_map.
Qed.

Lemma change_part_index_ok postId part value (q : Post) :
  index_ok q -> index_ok (change_part postId part value q).
Proof.
  intros H. unfold change_part.
  destruct (String.eqb (id q) postId); [|exact H].
  destruct (js_index (texts q) (activeTextIndex q)); [|exact H].
  unfold index_ok in *. cbn [with_texts texts activeTextIndex].
  rewrite set_part_at_length. destruct H as [E|B]; [|now right].
  left. rewrite E. now destruct (Z.to_nat (activeTextIndex q)).
Qed.

Lemma change_part_id postId part value (q : Post) :
  id (change_part postId part value q) = id q.
Proof.
  unfold change_part. destruct (String.eqb (id q) postId); [|reflexivity].
  now destruct (js_index (texts q) (activeTextIndex q)).
Qed.

(** X13.  Whatever the action -- a caption cycled, a caption part
    edited, an image edit that succeeded or failed -- the posts keep
    their ids, in order, and stay well-formed: ids remain unique and
    every index remains on a caption of its post. *)
Theorem posts_stay_well_formed (ps : list Post) (a : Action) :
  NoDup (map id ps) ->
  Forall index_ok ps ->
  enabled ps a ->
  map id (act ps a) = map id ps
  /\ NoDup (map id (act ps a))
  /\ Forall index_ok (act ps a).
Proof.
  intros Hnd Hok Hen.
  assert (map id (act ps a) = map id ps /\ Forall index_ok (act ps a)) as [Hi Hf].
  { destruct a as [post|postId part value|api postId prompt]; unfold act.
    - destruct Hen as [Hin Hlen].
      unfold cycle_click, handleCycleCaption, handleCaptionChange.
      cbn beta iota. split.
      + rewrite map_map. apply map_ext. intros q.
        now destruct (String.eqb (id q) (id post)).
      + apply Forall_forall. intros q' Hq'. apply in_map_iff in Hq'.
        destruct Hq' as (q & <- & Hq).
        pose proof (proj1 (Forall_forall _ _) Hok q Hq) as Oq.
        destruct (String.eqb_spec (id q) (id post)) as [E|]; [|exact Oq].
        assert (q = post) as -> by (apply (unique_id ps); auto).
        right. cbn [with_activeTextIndex texts activeTextIndex].
        destruct Oq as [E0|B]; [rewrite E0 in Hlen; simpl in Hlen; lia|].
        split.
        * apply Z.rem_nonneg; lia.
        * rewrite Z.rem_mod_nonneg by lia. apply Z.mod_pos_bound. lia.
    - unfold handleCaptionPartChange. cbn beta iota. split.
      + rewrite map_map. apply map_ext. intros q. apply change_part_id.
      + apply Forall_forall. intros q' Hq'. apply in_map_iff in Hq'.
        destruct Hq' as (q & <- & Hq). apply change_part_index_ok.
        exact (proj1 (Forall_forall _ _) Hok q Hq).
    - unfold handleImageEdit.
      destruct (find (fun p => String.eqb (id p) postId) ps) as [p|];
        [|split; [reflexivity | exact Hok]].
      destruct (api (image p) (imageMimeType p) prompt) as [img|e];
        [|split; [reflexivity | exact Hok]].
      cbn [fst]. cbn beta iota. split.
      + rewrite map_map. apply map_ext. intros q.
        now destruct (String.eqb (id q) postId).
      + apply Forall_forall. intros q' Hq'. apply in_map_iff in Hq'.
        destruct Hq' as (q & <- & Hq).
        pose proof (proj1 (Forall_forall _ _) Hok q Hq) as Oq.
        now destruct (String.eqb (id q) postId). }
  split; [exact Hi|]. split; [now rewrite Hi | exact Hf].
Qed.

Lemma posts_stay_well_formed_witness :
  Forall index_ok (act two_posts (CycleCaption three_caption_post))
  /\ Forall index_ok
       (act two_posts (EditImage (fun _ _ _ => Returned "bm92YQ==")
                                 (id three_caption_post) "mais cor")).
Proof.
  assert (NoDup (map id two_posts)) as Hnd.
  { repeat constructor; simpl; intuition discriminate. }
  assert (Forall index_ok two_posts) as Hok.
  { apply Forall_cons; [right; simpl; lia|].
    apply Forall_cons; [left; reflexivity | apply Forall_nil]. }
  split.
  - apply (posts_stay_well_formed two_posts (CycleCaption three_caption_post));
      auto.
    split; [left; reflexivity | simpl; lia].
  - apply (posts_stay_well_formed two_posts
             (EditImage (fun _ _ _ => Returned "bm92YQ==")
                        (id three_caption_post) "mais cor")); auto.
    exact I.
Defined.

(** X14.  An image edit asks the service with the image and mime type of
    the post as the handler saw it, and on success replaces the image --
    and only the image -- of the posts with that id in the current state;
    when the service fails the posts are untouched and the user is
    alerted with the error's message (a fixed text for a non-[Error]);
    for an unknown id the service is not asked and nothing happens. *)
Theorem image_edit_outcomes
        (api : string -> string -> string -> Outcome string)
        (posts current : list Post) (postId prompt : string) :
  let result :=
    handleImageEdit api (Some posts) (Some current) postId prompt in
  ((forall q, In q posts -> id q <> postId) ->
   result = (Some current, []))
  /\ (forall p,
        find (fun q => String.eqb (id q) postId) posts = Some p ->
        (forall img,
            api (image p) (imageMimeType p) prompt = Returned img ->
            exists next,
              result = (Some next, [])
              /\ length next = length current
              /\ forall k q, nth_error current k = Some q ->
                   exists q',
                     nth_error next k = Some q'
                     /\ id q' = id q /\ imageMimeType q' = imageMimeType q
                     /\ texts q' = texts q
                     /\ activeTextIndex q' = activeTextIndex q
                     /\ image q' = if String.eqb (id q) postId
                                   then img else image q)
        /\ (forall e,
              api (image p) (imageMimeType p) prompt = Threw e ->
              result
              = (Some current,
                 [LogError e;
                  ShowAlert
                    match e with
                    | ThrownError _ message => message
                    | ThrownValue _ =>
                        "Falha ao editar a imagem. Por favor, tente novamente."
                    end]))).
Proof.
  intros result. subst result. unfold handleImageEdit. split.
  - intros Hno.
    destruct (find (fun p => String.eqb (id p) postId) posts) as [p|] eqn:F;
      [|reflexivity].
    apply find_some in F. destruct F as [Hin E].
    apply String.eqb_eq in E. now destruct (Hno p Hin).
  - intros p ->. split.
    + intros img ->. eexists. split; [reflexivity|].
      split; [apply length_map|].
      intros k q Hk. rewrite nth_error_map, Hk. cbn [option_map].
      eexists. split; [reflexivity|].
      destruct (String.eqb (id q) postId); repeat split.
    + intros e ->. now destruct e.
Qed.

Lemma image_edit_outcomes_witness :
  handleImageEdit (fun _ _ _ => Threw (ThrownError "Error" "bloqueada"))
                  (Some two_posts) (Some two_posts)
                  (id three_caption_post) "mais cor"
  = (Some two_posts,
     [LogError (ThrownError "Error" "bloqueada"); ShowAlert "bloqueada"]).
Proof.
  destruct (image_edit_outcomes
              (fun _ _ _ => Threw (ThrownError "Error" "bloqueada"))
              two_posts two_posts (id three_caption_post) "mais cor")
    as [_ H].
  destruct (H three_caption_post eq_refl) as [_ Hf].
  apply (Hf (ThrownError "Error" "bloqueada")). reflexivity.
Defined.

(** X17.  Leaving a caption field reports an edit exactly when the text
    differs from the part shown (or the element has no text at all,
    which counts as the empty string); once the edit is applied, leaving
    the field again with the same text reports nothing. *)
Theorem text_update_only_on_change (p : Post) (part : CaptionPart)
        (t : StructuredText) (content : string) :
  activeText p = Some t ->
  (handleTextUpdate p part (Some content) = None
   <-> content = get_part part t)
  /\ (content <> get_part part t ->
      handleTextUpdate p part (Some content) = Some (id p, part, content))
  /\ handleTextUpdate p part None = Some (id p, part, "")
  /\ handleTextUpdate (change_part (id p) part content p) part (Some content)
     = None.
Proof.
  intros Ht.
  assert (js_index (texts p) (activeTextIndex p) = Some t
          /\ (0 <? length (texts p))%nat = true) as [Hj Hl].
  { unfold activeText in Ht. destruct (0 <? length (texts p))%nat;
      [split; [exact Ht | reflexivity] | discriminate]. }
  split; [|split; [|split]].
  - unfold handleTextUpdate. rewrite Ht.
    destruct (String.eqb_spec content (get_part part t)) as [E|N]; cbn [negb].
    + split; auto.
    + split; [discriminate | contradiction].
  - intros N. unfold handleTextUpdate. rewrite Ht.
    destruct (String.eqb_spec content (get_part part t)); [contradiction|].
    reflexivity.
  - unfold handleTextUpdate. now rewrite Ht.
  - unfold handleTextUpdate, change_part.
    rewrite String.eqb_refl, Hj. unfold activeText.
    cbn [with_texts texts activeTextIndex].
    rewrite set_part_at_length, Hl, js_index_set_part_at, Hj.
    cbn [option_map].
    replace (get_part part (set_part part content t)) with content
      by now destruct part.
    now rewrite String.eqb_refl.
Qed.

Lemma text_update_only_on_change_witness :
  handleTextUpdate three_caption_post PartTag (Some "DICA") = None
  /\ handleTextUpdate three_caption_post PartTag (Some "NOVA")
     = Some (id three_caption_post, PartTag, "NOVA").
Proof.
  destruct (text_update_only_on_change three_caption_post PartTag
              Samples.empty_headline_caption "DICA" eq_refl) as (A & _).
  destruct (text_update_only_on_change three_caption_post PartTag
              Samples.empty_headline_caption "NOVA" eq_refl) as (_ & B & _).
  split; [apply A; reflexivity | apply B; discriminate].
Defined.

End AppSpec.

(** ** The service client *)

Module GeminiSpec.
Import Gemini.

Lemma toLowerCase_app (a b : string) :
  toLowerCase (a ++ b) = toLowerCase a ++ toLowerCase b.
Proof. induction a as [|c a IH]; simpl; [reflexivity | now rewrite IH]. Qed.

Lemma prefix_app (n b : string) : String.prefix n (n ++ b) = true.
Proof.
  induction n as [|c n IH]; simpl.
  - now destruct b.
  - destruct (ascii_dec c c); [exact IH | contradiction].
Qed.

Lemma includes_prefix (h n : string) :
  String.prefix n h = true -> includes h n = true.
Proof. intros H. destruct h; cbn [includes]; now rewrite H. Qed.

Lemma includes_app (a n b : string) : includes (a ++ n ++ b) n = true.
Proof.
  induction a as [|c a IH].
  - change ("" ++ n ++ b) with (n ++ b).
    apply includes_prefix. apply prefix_app.
  - cbn [append includes]. rewrite IH. apply orb_true_r.
Qed.

(** X18.  An error is taken for a rate limit as soon as its text
    contains [429] or, in any letter case, [resource_exhausted],
    wherever in the text; a thrown [null] or [undefined] never is. *)
Theorem rate_limit_detection (e : Thrown) (text pre mid post : string) :
  thrown_toString e = Some text ->
  text = pre ++ mid ++ post ->
  toLowerCase mid = "429" \/ toLowerCase mid = "resource_exhausted" ->
  is_rate_limit e = true
  /\ is_rate_limit (ThrownValue None) = false.
Proof.
  intros Ht -> Hm. split; [|reflexivity].
  unfold is_rate_limit, errorMessage_of. rewrite Ht, !toLowerCase_app.
  destruct Hm as [-> | ->]; rewrite includes_app.
  - reflexivity.
  - apply orb_true_r.
Qed.

Lemma rate_limit_detection_witness :
  is_rate_limit (ThrownError "ApiError" "Quota: Resource_Exhausted (retry)")
  = true.
Proof.
  apply (rate_limit_detection
           (ThrownError "ApiError" "Quota: Resource_Exhausted (retry)")
           "ApiError: Quota: Resource_Exhausted (retry)"
           "ApiError: Quota: " "Resource_Exhausted" " (retry)");
    [reflexivity | reflexivity | right; reflexivity].
Defined.

Lemma attempts_retry i ds a m d trace :
  attempts (Attempt i :: Warn ds a m :: Sleep d :: trace)
  = i :: attempts trace.
Proof. reflexivity. Qed.

Lemma sleeps_retry i ds a m d trace :
  sleeps (Attempt i :: Warn ds a m :: Sleep d :: trace) = d :: sleeps trace.
Proof. reflexivity. Qed.

Section Retry.
Context {A : Type}.
Variable apiCall : nat -> Outcome A.

Let rate_limited (j : nat) : Prop :=
  exists e, apiCall j = Threw e /\ is_rate_limit e = true.

Let decisive (j : nat) : Prop :=
  match apiCall j with
  | Returned _ => True
  | Threw e => is_rate_limit e = false
  end.

(** The loop up to the first answer that is not a rate-limit error. *)
Lemma withRetry_from_decided (k : nat) :
  forall remaining i maxRetries d,
    (k < remaining)%nat ->
    (forall j, (j < k)%nat -> rate_limited (i + j)) ->
    decisive (i + k) ->
    let (result, trace) :=
      withRetry_from apiCall remaining i maxRetries d in
    result = apiCall (i + k)
    /\ attempts trace = seq i (S k)
    /\ sleeps trace = backoff d k.
Proof.
  induction k as [|k IH]; intros remaining i maxRetries d Hk Hrl Hdec.
  - destruct remaining as [|r]; [lia|]. cbn [withRetry_from].
    unfold decisive in Hdec. rewrite Nat.add_0_r in *.
    destruct (apiCall i) as [v|e].
    + repeat split.
    + rewrite Hdec. repeat split.
  - destruct remaining as [|r]; [lia|]. cbn [withRetry_from].
    destruct (Hrl 0%nat ltac:(lia)) as (e & He & Hr).
    rewrite Nat.add_0_r in He. rewrite He, Hr.
    specialize (IH r (S i) maxRetries (d * 2) ltac:(lia)).
    destruct (withRetry_from apiCall r (S i) maxRetries (d * 2))
      as [result trace].
    destruct IH as (R & At & Sl).
    + intros j Hj. replace (S i + j)%nat with (i + S j)%nat by lia.
      apply Hrl. lia.
    + now replace (S i + k)%nat with (i + S k)%nat by lia.
    + replace (S i + k)%nat with (i + S k)%nat in R by lia.
      split; [exact R|]. split.
      * rewrite attempts_retry, At. reflexivity.
      * rewrite sleeps_retry, Sl. reflexivity.
Qed.

(** The loop when every answer is a rate-limit error. *)
Lemma withRetry_from_exhausted (remaining : nat) :
  forall i maxRetries d,
    (forall j, (j < remaining)%nat -> rate_limited (i + j)) ->
    let (result, trace) :=
      withRetry_from apiCall remaining i maxRetries d in
    result = Threw (ThrownError "Error" RATE_LIMIT_MESSAGE)
    /\ attempts trace = seq i remaining
    /\ sleeps trace = backoff d remaining.
Proof.
  induction remaining as [|r IH]; intros i maxRetries d Hrl.
  - repeat split.
  - cbn [withRetry_from].
    destruct (Hrl 0%nat ltac:(lia)) as (e & He & Hr).
    rewrite Nat.add_0_r in He. rewrite He, Hr.
    specialize (IH (S i) maxRetries (d * 2)).
    destruct (withRetry_from apiCall r (S i) maxRetries (d * 2))
      as [result trace].
    destruct IH as (R & At & Sl).
    + intros j Hj. replace (S i + j)%nat with (i + S j)%nat by lia.
      apply Hrl. lia.
    + split; [exact R|]. split.
      * rewrite attempts_retry, At. reflexivity.
      * rewrite sleeps_retry, Sl. reflexivity.
Qed.

(** The loop never calls more often than it has iterations, calls in
    order, and waits longer each time. *)
Lemma withRetry_from_trace (remaining : nat) :
  forall i maxRetries d,
    let (result, trace) :=
      withRetry_from apiCall remaining i maxRetries d in
    (length (attempts trace) <= remaining)%nat
    /\ attempts trace = seq i (length (attempts trace))
    /\ sleeps trace = backoff d (length (sleeps trace))
    /\ (length (sleeps trace) <= length (attempts trace))%nat
    /\ (forall v, result = Returned v ->
          exists j, (i <= j < i + remaining)%nat
                    /\ apiCall j = Returned v).
Proof.
  induction remaining as [|r IH]; intros i maxRetries d.
  - cbn. repeat split; try lia. discriminate.
  - cbn [withRetry_from]. destruct (apiCall i) as [v|e] eqn:E.
    + cbn. repeat split; try lia.
      intros v' [= <-]. exists i. split; [lia | exact E].
    + destruct (is_rate_limit e).
      * specialize (IH (S i) maxRetries (d * 2)).
        destruct (withRetry_from apiCall r (S i) maxRetries (d * 2))
          as [result trace].
        destruct IH as (L & At & Sl & LS & Rv).
        rewrite attempts_retry, sleeps_retry. cbn [length seq backoff].
        split; [lia|]. split; [now rewrite <- At|].
        split; [now rewrite <- Sl|]. split; [lia|].
        intros v Hv. destruct (Rv v Hv) as (j & Hj & Ej).
        exists j. split; [lia | exact Ej].
      * cbn. repeat split; try lia. discriminate.
Qed.

End Retry.

Lemma total_backoff (d : Q) (k : nat) :
  total (backoff d k) == d * (pow2 k - 1).
Proof.
  revert d. induction k as [|k IH]; intros d; cbn [backoff total fold_right pow2].
  - ring.
  - fold (total (backoff (d * 2) k)). rewrite IH. ring.
Qed.

(** X19.  [withRetry] calls the wrapped function at most [maxRetries]
    times, one call after the other, and between calls waits
    [initialDelay], then twice that, then twice that again; it never
    waits more often than it has called. *)
Theorem withRetry_bounded {A} (apiCall : nat -> Outcome A)
        (maxRetries : nat) (initialDelay : Q) :
  let trace := snd (withRetry apiCall maxRetries initialDelay) in
  (length (attempts trace) <= maxRetries)%nat
  /\ attempts trace = seq 0 (length (attempts trace))
  /\ sleeps trace = backoff initialDelay (length (sleeps trace))
  /\ (length (sleeps trace) <= length (attempts trace))%nat.
Proof.
  intros trace. subst trace. unfold withRetry.
  pose proof (withRetry_from_trace apiCall maxRetries 0 maxRetries
                initialDelay) as H.
  destruct (withRetry_from apiCall maxRetries 0 maxRetries initialDelay)
    as [result trace].
  cbn [snd]. destruct H as (H1 & H2 & H3 & H4 & _). auto.
Qed.

(** X20.  The first answer that is not a rate-limit error decides: if
    the first [k] calls hit the rate limit and call [k] (with
    [k < maxRetries]) does not, [withRetry] ends as that call ends --
    with its value, or rethrowing its very error -- after [k + 1] calls
    and the [k] waits [initialDelay * 2^j]; no wait follows the deciding
    call. *)
Theorem withRetry_first_decisive_answer {A} (apiCall : nat -> Outcome A)
        (maxRetries : nat) (initialDelay : Q) (k : nat) :
  (k < maxRetries)%nat ->
  (forall j, (j < k)%nat ->
     exists e, apiCall j = Threw e /\ is_rate_limit e = true) ->
  match apiCall k with
  | Returned _ => True
  | Threw e => is_rate_limit e = false
  end ->
  fst (withRetry apiCall maxRetries initialDelay) = apiCall k
  /\ attempts (snd (withRetry apiCall maxRetries initialDelay))
     = seq 0 (S k)
  /\ sleeps (snd (withRetry apiCall maxRetries initialDelay))
     = backoff initialDelay k.
Proof.
  intros Hk Hrl Hdec. unfold withRetry.
  pose proof (withRetry_from_decided apiCall k maxRetries 0 maxRetries
                initialDelay Hk Hrl Hdec) as H.
  destruct (withRetry_from apiCall maxRetries 0 maxRetries initialDelay)
    as [result trace].
  exact H.
Qed.

Lemma withRetry_first_decisive_answer_witness :
  fst (editImage recovering_service "aW1n" "image/png" "mais cor")
  = Returned "QUJD"
  /\ sleeps (snd (withRetry_default
                    (generateContent recovering_service
                       (edit_request "aW1n" "image/png" "mais cor"))))
     = [5000].
Proof.
  destruct (withRetry_first_decisive_answer
              (generateContent recovering_service
                 (edit_request "aW1n" "image/png" "mais cor")) 3 5000 1)
    as (_ & _ & S).
  - lia.
  - intros j Hj. assert (j = 0%nat) as -> by lia.
    eexists. split; reflexivity.
  - exact I.
  - split; [reflexivity | exact S].
Defined.

(** X21.  When every one of the [maxRetries] calls hits the rate limit,
    [withRetry] gives up with its own error message, having called
    [maxRetries] times and waited after each call, the last one
    included: [initialDelay * (2^maxRetries - 1)] in all, 35 seconds
    with the defaults. *)
Theorem withRetry_exhausted {A} (apiCall : nat -> Outcome A)
        (maxRetries : nat) (initialDelay : Q) :
  (forall j, (j < maxRetries)%nat ->
     exists e, apiCall j = Threw e /\ is_rate_limit e = true) ->
  let (result, trace) := withRetry apiCall maxRetries initialDelay in
  result = Threw (ThrownError "Error" RATE_LIMIT_MESSAGE)
  /\ attempts trace = seq 0 maxRetries
  /\ sleeps trace = backoff initialDelay maxRetries
  /\ total (sleeps trace) == initialDelay * (pow2 maxRetries - 1).
Proof.
  intros Hrl. unfold withRetry.
  pose proof (withRetry_from_exhausted apiCall maxRetries 0 maxRetries
                initialDelay Hrl) as H.
  destruct (withRetry_from apiCall maxRetries 0 maxRetries initialDelay)
    as [result trace].
  destruct H as (R & At & Sl). repeat split; auto.
  rewrite Sl. apply total_backoff.
Qed.

Lemma withRetry_exhausted_witness :
  fst (editImage exhausted_service "aW1n" "image/png" "mais cor")
  = Threw (ThrownError "Error" RATE_LIMIT_MESSAGE)
  /\ total (sleeps (snd (editImage exhausted_service "aW1n" "image/png"
                                   "mais cor")))
     == 35000.
Proof.
  pose proof (withRetry_exhausted
                (generateContent exhausted_service
                   (edit_request "aW1n" "image/png" "mais cor")) 3 5000) as H.
  unfold editImage, withRetry_default. cbn [createAIInstance exhausted_service
    API_KEY truthy String.eqb negb].
  destruct (withRetry _ 3 5000) as [result trace].
  destruct H as (R & _ & _ & T).
  - intros j _. eexists. split; reflexivity.
  - rewrite R. cbn [fst snd]. split; [reflexivity|].
    rewrite T. vm_compute. reflexivity.
Defined.

Lemma find_first {X} (f : X -> bool) (l : list X) (x : X) :
  find f l = Some x <->
  exists before after,
    l = (before ++ x :: after)%list
    /\ f x = true /\ forall y, In y before -> f y = false.
Proof.
  split.
  - revert x. induction l as [|a l IH]; intros x H; [discriminate|].
    cbn [find] in H. destruct (f a) eqn:Fa.
    + injection H as <-. exists [], l. repeat split; auto.
      intros y [].
    + destruct (IH x H) as (b & af & -> & Fx & Hb).
      exists (a :: b), af. repeat split; auto.
      intros y [<-|Hy]; auto.
  - intros (b & af & -> & Fx & Hb).
    induction b as [|a b IH]; cbn [app find].
    + now rewrite Fx.
    + rewrite (Hb a (or_introl eq_refl)). apply IH.
      intros y Hy. apply Hb. now right.
Qed.

(** X22.  Reading the answer to an edit: the image returned is that of
    the first part that carries one, in the first candidate only; and it
    is returned exactly when the answer is not blocked, has a candidate,
    and that candidate did not finish with [NO_IMAGE].  A blocked answer
    is refused with the reason in the message even when it carries an
    image. *)
Theorem edit_response_reading (response : ContentResponse) :
  (forall d,
      read_edit_response response = Returned d <->
      truthy (blockReason response) = false
      /\ exists c others before p after img,
          candidates response = Some (c :: others)
          /\ finishReason c <> Some "NO_IMAGE"
          /\ content_parts c = Some (before ++ p :: after)%list
          /\ (forall q, In q before -> inlineData q = None)
          /\ inlineData p = Some img
          /\ d = inline_data img)
  /\ (forall reason,
        blockReason response = Some reason -> reason <> "" ->
        read_edit_response response
        = Threw (ThrownError "Error" (BLOCKED_MESSAGE reason))).
Proof.
  split.
  - intros d. unfold read_edit_response.
    destruct (truthy (blockReason response)) eqn:B.
    { split; [discriminate | intros [H _]; discriminate]. }
    split.
    + intros H. split; [reflexivity|].
      destruct (candidates response) as [[|c others]|] eqn:C;
        try discriminate.
      destruct (finishReason c) as [r|] eqn:F.
      * destruct (String.eqb_spec r "NO_IMAGE") as [->|N]; [discriminate|].
        destruct (content_parts c) as [parts|] eqn:P; [|discriminate].
        destruct (find _ parts) as [p|] eqn:Fd; [|discriminate].
        apply find_first in Fd. destruct Fd as (b & af & -> & Fp & Hb).
        destruct p as [[img|] txt]; [|discriminate].
        injection H as <-.
        exists c, others, b, {| inlineData := Some img; part_text := txt |},
          af, img.
        repeat split; auto.
        -- rewrite F. intros [= E]. contradiction.
        -- intros q Hq. specialize (Hb q Hq).
           now destruct (inlineData q).
      * destruct (content_parts c) as [parts|] eqn:P; [|discriminate].
        destruct (find _ parts) as [p|] eqn:Fd; [|discriminate].
        apply find_first in Fd. destruct Fd as (b & af & -> & Fp & Hb).
        destruct p as [[img|] txt]; [|discriminate].
        injection H as <-.
        exists c, others, b, {| inlineData := Some img; part_text := txt |},
          af, img.
        repeat split; auto.
        -- rewrite F. discriminate.
        -- intros q Hq. specialize (Hb q Hq).
           now destruct (inlineData q).
    + intros (_ & c & others & b & p & af & img & C & F & P & Hb & Hp & ->).
      rewrite C.
      assert (match finishReason c with
              | Some r => String.eqb r "NO_IMAGE"
              | None => false
              end = false) as ->.
      { destruct (finishReason c) as [r|]; [|reflexivity].
        apply String.eqb_neq. congruence. }
      rewrite P.
      assert (find (fun part => match inlineData part with
                                | Some _ => true
                                | None => false
                                end) (b ++ p :: af)%list = Some p) as ->.
      { apply find_first. exists b, af. repeat split.
        - now rewrite Hp.
        - intros q Hq. now rewrite (Hb q Hq). }
      destruct p as [i t]. cbn in Hp. now rewrite Hp.
  - intros reason Hr Hne. unfold read_edit_response. rewrite Hr.
    cbn [truthy]. apply String.eqb_neq in Hne. now rewrite Hne.
Qed.

Lemma edit_response_reading_witness :
  read_edit_response
    {| candidates :=
         Some [{| finishReason := Some "STOP";
                  content_parts := Some [image_part "QUJD"] |}];
       blockReason := Some "SAFETY" |}
  = Threw (ThrownError "Error" (BLOCKED_MESSAGE "SAFETY")).
Proof.
  apply (edit_response_reading
           {| candidates :=
                Some [{| finishReason := Some "STOP";
                         content_parts := Some [image_part "QUJD"] |}];
              blockReason := Some "SAFETY" |});
    [reflexivity | discriminate].
Defined.

(** X23.  [editImage] makes no request without an API key and fails
    with the key error; with one it makes at most three requests, all of
    them the one request built from its arguments for the editing model;
    and an image it returns was read from an actual, unblocked answer to
    that request. *)
Theorem editImage_requests (svc : Service)
        (base64Image mimeType editPrompt : string) :
  let request := edit_request base64Image mimeType editPrompt in
  let result := fst (editImage svc base64Image mimeType editPrompt) in
  let trace := snd (editImage svc base64Image mimeType editPrompt) in
  edit_model request = "gemini-2.5-flash-image"
  /\ edit_inlineData request = base64Image
  /\ edit_mimeType request = mimeType
  /\ edit_text request = editPrompt
  /\ (length (attempts trace) <= 3)%nat
  /\ (truthy (API_KEY svc) = false ->
      trace = []
      /\ result
         = Threw (ThrownError "Error"
                    "API_KEY environment variable is not set."))
  /\ (forall d, result = Returned d ->
        exists i response,
          (i < 3)%nat
          /\ generateContent svc request i = Returned response
          /\ truthy (blockReason response) = false
          /\ read_edit_response response = Returned d).
Proof.
  intros request result trace. subst result trace.
  do 4 (split; [reflexivity|]).
  unfold editImage, createAIInstance, withRetry_default, withRetry.
  fold request.
  destruct (truthy (API_KEY svc)).
  - pose proof (withRetry_from_trace (generateContent svc request) 3 0 3 5000)
      as H.
    destruct (withRetry_from (generateContent svc request) 3 0 3 5000)
      as [result trace].
    destruct H as (L & _ & _ & _ & Rv).
    destruct result as [response|e]; cbn [fst snd].
    + split; [exact L|]. split; [discriminate|].
      intros d Hd. destruct (Rv response eq_refl) as (j & Hj & Ej).
      exists j, response. split; [lia|]. split; [exact Ej|].
      split; [|exact Hd].
      destruct (truthy (blockReason response)) eqn:B; [|reflexivity].
      unfold read_edit_response in Hd. rewrite B in Hd. discriminate.
    + split; [exact L|]. split; [discriminate|]. discriminate.
  - cbn [fst snd]. split; [simpl; lia|]. split; [auto|]. discriminate.
Qed.

Lemma editImage_requests_witness :
  editImage {| generateContent := generateContent recovering_service;
               generateImages := generateImages recovering_service;
               API_KEY := Some "" |}
            "aW1n" "image/png" "mais cor"
  = (Threw (ThrownError "Error" "API_KEY environment variable is not set."),
     []).
Proof.
  destruct (editImage_requests
              {| generateContent := generateContent recovering_service;
                 generateImages := generateImages recovering_service;
                 API_KEY := Some "" |}
              "aW1n" "image/png" "mais cor")
    as (_ & _ & _ & _ & _ & K & _).
  destruct (K eq_refl) as [T R].
  destruct (editImage _ _ _ _) as [result trace]. cbn [fst snd] in *.
  now rewrite T, R.
Defined.

(** X24.  [generateImage] never asks for the ratio [4:5] -- it asks for
    [3:4] instead, and otherwise for the ratio it was given -- and a
    comic panel is always asked square.  What it returns is never empty:
    the bytes are the non-empty bytes of the first generated image of an
    actual answer, and the mime type is the one of that image or, when
    that is missing or empty, [image/png]. *)
Theorem generateImage_result (svc : Service) (prompt : string)
        (aspectRatio : AspectRatio) :
  let request := images_request prompt aspectRatio in
  let result := fst (generateImage svc prompt aspectRatio) in
  In (images_aspectRatio request) ["1:1"; "3:4"; "9:16"]
  /\ (aspectRatio = Ratio_4_5 -> images_aspectRatio request = "3:4")
  /\ (aspectRatio <> Ratio_4_5 ->
      images_aspectRatio request = ratio_string aspectRatio)
  /\ (forall description dialogue artStyle,
        generateHqPanel svc description dialogue artStyle
        = generateImage svc (panel_prompt description dialogue artStyle)
                        Ratio_1_1)
  /\ (forall bytes mime,
        result = Returned (bytes, mime) ->
        bytes <> "" /\ mime <> ""
        /\ exists i response g others,
            (i < 3)%nat
            /\ generateImages svc request i = Returned response
            /\ generatedImages response = Some (g :: others)
            /\ imageBytes g = Some bytes
            /\ (generated_mimeType g = Some mime
                \/ (truthy (generated_mimeType g) = false
                    /\ mime = "image/png"))).
Proof.
  intros request result. subst result.
  split; [destruct aspectRatio; simpl; auto|].
  split; [intros ->; reflexivity|].
  split; [destruct aspectRatio; [reflexivity | contradiction | reflexivity]|].
  split; [reflexivity|].
  intros bytes mime.
  unfold generateImage, createAIInstance, withRetry_default, withRetry.
  fold request.
  destruct (truthy (API_KEY svc)); [|discriminate].
  pose proof (withRetry_from_trace (generateImages svc request) 3 0 3 5000)
    as H.
  destruct (withRetry_from (generateImages svc request) 3 0 3 5000)
    as [result trace].
  destruct H as (_ & _ & _ & _ & Rv).
  destruct result as [response|e]; cbn [fst]; [|discriminate].
  intros Hd. destruct (Rv response eq_refl) as (j & Hj & Ej).
  unfold read_images_response in Hd.
  destruct (generatedImages response) as [[|g others]|] eqn:G;
    try discriminate.
  destruct (imageBytes g) as [b|] eqn:Bg; cbn [truthy] in Hd;
    [|discriminate].
  destruct (String.eqb_spec b "") as [->|Nb]; cbn [negb] in Hd;
    [discriminate|].
  injection Hd as <- Hm. symmetry in Hm.
  split; [exact Nb|].
  assert (mime <> ""
          /\ (generated_mimeType g = Some mime
              \/ truthy (generated_mimeType g) = false
                 /\ mime = "image/png")) as [Nm Hor].
  { destruct (generated_mimeType g) as [m|]; cbn [truthy] in *.
    - destruct (String.eqb m "") eqn:Em; cbn [negb] in *.
      + rewrite Hm. split; [discriminate | right; auto].
      + rewrite Hm. apply String.eqb_neq in Em.
        split; [exact Em | left; reflexivity].
    - rewrite Hm. split; [discriminate | right; auto]. }
  split; [exact Nm|].
  exists j, response, g, others. repeat split; auto. lia.
Qed.

Lemma generateImage_result_witness :
  images_aspectRatio (images_request "um gato" Ratio_9_16) = "9:16"
  /\ images_aspectRatio (images_request "um gato" Ratio_4_5) = "3:4"
  /\ fst (generateImage recovering_service "um gato" Ratio_4_5)
     = Returned ("aW1n", "image/png").
Proof.
  destruct (generateImage_result recovering_service "um gato" Ratio_9_16)
    as (_ & _ & R & _).
  destruct (generateImage_result recovering_service "um gato" Ratio_4_5)
    as (_ & R' & _).
  split; [apply R; discriminate|].
  split; [apply R'; reflexivity | reflexivity].
Defined.

End GeminiSpec.

(** ** The comic panels *)

Module ComicCreatorSpec.
Import ComicCreator.

Section Panels.
Variable gen : string -> list string -> string -> Outcome (string * string).
Variable style : string.

Lemma panel_step_number (s : Scene) (p : PanelState) :
  panel_sceneNumber (panel_step gen style s p) = panel_sceneNumber p.
Proof.
  unfold panel_step, panel_done, panel_failed.
  destruct (gen _ _ _) as [[i m]|e];
    destruct (has_isLoading p); cbn [andb]; try reflexivity;
    destruct (Z.eqb_spec (panel_sceneNumber p) (sceneNumber s));
    cbn [panel_sceneNumber]; congruence.
Qed.

Lemma panel_step_other (s : Scene) (p : PanelState) :
  panel_sceneNumber p <> sceneNumber s -> panel_step gen style s p = p.
Proof.
  intros N. apply Z.eqb_neq in N.
  unfold panel_step, panel_done, panel_failed. rewrite N, andb_false_r.
  now destruct (gen _ _ _) as [[i m]|e].
Qed.

Lemma panel_step_first (s : Scene) :
  panel_step gen style s (Placeholder true (sceneNumber s) None)
  = panel_of_scene gen style s.
Proof.
  unfold panel_step, panel_of_scene, panel_done, panel_failed.
  cbn [has_isLoading panel_sceneNumber andb]. rewrite Z.eqb_refl.
  now destruct (gen _ _ _) as [[i m]|e].
Qed.

Lemma panel_step_spinner_off (s : Scene) (p : PanelState) :
  shows_spinner p = false -> shows_spinner (panel_step gen style s p) = false.
Proof.
  intros H. unfold panel_step, panel_done, panel_failed.
  destruct (gen _ _ _) as [[i m]|e];
    destruct (has_isLoading p && _); auto.
Qed.

Lemma panel_step_spinner_done (s : Scene) (p : PanelState) :
  panel_sceneNumber p = sceneNumber s ->
  shows_spinner (panel_step gen style s p) = false.
Proof.
  intros E. unfold panel_step, panel_done, panel_failed.
  rewrite E, Z.eqb_refl, andb_true_r.
  destruct (gen _ _ _) as [[i m]|e]; destruct p; reflexivity.
Qed.

Lemma fold_spinner_off (scenes : list Scene) :
  forall p, shows_spinner p = false ->
    shows_spinner (fold_left (fun q s => panel_step gen style s q) scenes p)
    = false.
Proof.
  induction scenes as [|s rest IH]; intros p H; [exact H|].
  apply IH, panel_step_spinner_off, H.
Qed.

Lemma fold_spinner_done (scenes : list Scene) :
  forall p, In (panel_sceneNumber p) (map sceneNumber scenes) ->
    shows_spinner (fold_left (fun q s => panel_step gen style s q) scenes p)
    = false.
Proof.
  induction scenes as [|s rest IH]; intros p Hin; [contradiction|].
  cbn [fold_left].
  destruct (Z.eq_dec (panel_sceneNumber p) (sceneNumber s)) as [E|N].
  - apply fold_spinner_off, panel_step_spinner_done, E.
  - apply IH. rewrite panel_step_number.
    destruct Hin as [H|H]; [congruence | exact H].
Qed.

Lemma fold_number (scenes : list Scene) :
  forall p,
    panel_sceneNumber
      (fold_left (fun q s => panel_step gen style s q) scenes p)
    = panel_sceneNumber p.
Proof.
  induction scenes as [|s rest IH]; intros p; [reflexivity|].
  cbn [fold_left]. now rewrite IH, panel_step_number.
Qed.

Lemma fold_other (scenes : list Scene) :
  forall p, ~ In (panel_sceneNumber p) (map sceneNumber scenes) ->
    fold_left (fun q s => panel_step gen style s q) scenes p = p.
Proof.
  induction scenes as [|s rest IH]; intros p H; [reflexivity|].
  cbn [fold_left]. rewrite panel_step_other.
  - apply IH. intros Hin. apply H. now right.
  - intros E. apply H. left. now rewrite E.
Qed.

Lemma panel_of_scene_number (s : Scene) :
  panel_sceneNumber (panel_of_scene gen style s) = sceneNumber s.
Proof. unfold panel_of_scene. now destruct (gen _ _ _) as [[i m]|e]. Qed.

(** The loop maps every panel through the steps of all the scenes. *)
Lemma panels_loop_map (scenes : list Scene) :
  forall index panels,
    fst (panels_loop gen style scenes index panels)
    = map (fun p => fold_left (fun q s => panel_step gen style s q) scenes p)
          panels.
Proof.
  induction scenes as [|s rest IH]; intros index panels.
  - cbn. now rewrite map_id.
  - cbn [panels_loop fold_left]. specialize (IH (S index)
      (map (panel_step gen style s) panels)).
    destruct (panels_loop gen style rest (S index) _) as [final later].
    cbn [fst] in *. now rewrite IH, map_map.
Qed.

Lemma panels_loop_waits (scenes : list Scene) :
  forall index panels,
    snd (panels_loop gen style scenes (S index) panels)
    = repeat 2000 (length scenes).
Proof.
  induction scenes as [|s rest IH]; intros index panels; [reflexivity|].
  cbn [panels_loop]. specialize (IH (S index)
    (map (panel_step gen style s) panels)).
  destruct (panels_loop gen style rest (S (S index)) _) as [final later].
  cbn [snd] in *. rewrite IH. reflexivity.
Qed.

End Panels.

(** X25.  When the panels of a script have all been asked for, there is
    one panel per scene, in the order and with the numbers of the
    scenes, and no panel is left showing the spinner; a wait of two
    seconds precedes every request but the first; and with distinct
    scene numbers each panel is the image generated for its own scene,
    or the failure placeholder if that generation failed -- a failure
    does not stop the later scenes. *)
Theorem panels_follow_scenes
        (gen : string -> list string -> string -> Outcome (string * string))
        (style : string) (scenes : list Scene) :
  let final := fst (handleGeneratePanels gen style scenes) in
  let waits := snd (handleGeneratePanels gen style scenes) in
  map panel_sceneNumber final = map sceneNumber scenes
  /\ (forall p, In p final -> shows_spinner p = false)
  /\ waits = repeat 2000 (length scenes - 1)
  /\ (NoDup (map sceneNumber scenes) ->
      final = map (panel_of_scene gen style) scenes).
Proof.
  intros final waits. subst final waits.
  assert (fst (handleGeneratePanels gen style scenes)
          = map (fun s => fold_left (fun q s' => panel_step gen style s' q)
                            scenes (Placeholder true (sceneNumber s) None))
                scenes) as ->.
  { unfold handleGeneratePanels. now rewrite panels_loop_map, map_map. }
  unfold handleGeneratePanels.
  split; [|split; [|split]].
  - rewrite map_map. apply map_ext. intros s. now rewrite fold_number.
  - intros p Hin. apply in_map_iff in Hin. destruct Hin as (s & <- & Hs).
    apply fold_spinner_done. cbn [panel_sceneNumber]. now apply in_map.
  - destruct scenes as [|s rest]; [reflexivity|].
    cbn [panels_loop map length Nat.ltb Nat.leb].
    pose proof (panels_loop_waits gen style rest 0
                  (map (panel_step gen style s)
                       (Placeholder true (sceneNumber s) None
                        :: map (fun scene =>
                                  Placeholder true (sceneNumber scene) None)
                               rest))) as W.
    destruct (panels_loop gen style rest 1 _) as [final later].
    cbn [snd app] in *. rewrite W. f_equal. lia.
  - intros Hnd. apply map_ext_in. intros s Hs.
    destruct (in_split s scenes Hs) as (a & b & ->).
    rewrite map_app in Hnd. cbn [map] in Hnd.
    rewrite fold_left_app. cbn [fold_left].
    rewrite (fold_other gen style a).
    + rewrite panel_step_first. apply fold_other.
      rewrite panel_of_scene_number.
      apply NoDup_remove_2 in Hnd. intros Hin. apply Hnd.
      apply in_or_app. now right.
    + cbn [panel_sceneNumber]. apply NoDup_remove_2 in Hnd.
      intros Hin. apply Hnd. apply in_or_app. now left.
Qed.

Lemma panels_follow_scenes_witness :
  fst (handleGeneratePanels sample_generate "Cartoon" sample_scenes)
  = [GeneratedPanel "aW1n" "image/png" 1;
     Placeholder false 2 (Some "Falha ao gerar");
     GeneratedPanel "aW1n" "image/png" 3].
Proof.
  destruct (panels_follow_scenes sample_generate "Cartoon" sample_scenes)
    as (_ & _ & _ & F).
  rewrite F; [reflexivity|].
  repeat constructor; simpl; intuition discriminate.
Defined.

End ComicCreatorSpec.

(** ** Data URLs *)

Module DataUrlSpec.
Import JsString Upload.

Lemma split_without_sep (sep : ascii) (s : string) :
  occurs sep s = false -> split sep s = [s].
Proof.
  induction s as [|c s IH]; intros H; [reflexivity|].
  cbn [occurs] in H. apply orb_false_iff in H. destruct H as [Hc Hs].
  cbn [split]. rewrite Hc, (IH Hs). reflexivity.
Qed.

Lemma split_at_first_sep (sep : ascii) (a b : string) :
  occurs sep a = false ->
  split sep (a ++ String sep b) = a :: split sep b.
Proof.
  induction a as [|c a IH]; intros H.
  - cbn [append split]. now rewrite Ascii.eqb_refl.
  - cbn [occurs] in H. apply orb_false_iff in H. destruct H as [Hc Ha].
    cbn [append split]. rewrite Hc, (IH Ha). reflexivity.
Qed.

Lemma occurs_app (c : ascii) (a b : string) :
  occurs c (a ++ b) = occurs c a || occurs c b.
Proof.
  induction a as [|c' a IH]; [reflexivity|].
  cbn [append occurs]. now rewrite IH, orb_assoc.
Qed.

(** The payload of a data URL is what follows its first comma. *)
Lemma data_url_payload (mimeType base64 : string) :
  occurs "," mimeType = false ->
  occurs "," base64 = false ->
  nth_error (split "," (FileUtils.data_url mimeType base64)) 1
  = Some base64.
Proof.
  intros Hm Hb. unfold FileUtils.data_url.
  replace ("data:" ++ mimeType ++ ";base64," ++ base64)
    with (("data:" ++ mimeType ++ ";base64") ++ String "," base64).
  - rewrite split_at_first_sep.
    + now rewrite (split_without_sep _ _ Hb).
    + rewrite !occurs_app, Hm. reflexivity.
  - rewrite !WrapTextFacts.append_assoc. reflexivity.
Qed.

(** X26.  [fileToBase64] undoes the data-URL wrapping: from a read that
    yields [data:<mime>;base64,<payload>], with no comma in the mime type
    or the payload, it resolves with the payload, from which the same
    data URL is built again.  A read result without any comma resolves,
    with [undefined]; a failed read rejects. *)
Theorem fileToBase64_round_trip (mimeType base64 : string) :
  occurs "," mimeType = false ->
  occurs "," base64 = false ->
  fileToBase64 (ReadDone (FileUtils.data_url mimeType base64))
  = Resolved (Some base64)
  /\ (forall result, occurs "," result = false ->
        fileToBase64 (ReadDone result) = Resolved None)
  /\ (forall error,
        fileToBase64 (ReadFailed error) = Rejected (ErrorEvent error)).
Proof.
  intros Hm Hb. split; [|split].
  - unfold fileToBase64. now rewrite data_url_payload.
  - intros result Hr. unfold fileToBase64.
    now rewrite (split_without_sep _ _ Hr).
  - reflexivity.
Qed.

Lemma fileToBase64_round_trip_witness :
  fileToBase64 (ReadDone (FileUtils.data_url "image/jpeg" "/9j/4AAQSkZJRg=="))
  = Resolved (Some "/9j/4AAQSkZJRg==").
Proof.
  apply (fileToBase64_round_trip "image/jpeg" "/9j/4AAQSkZJRg==");
    reflexivity.
Defined.



End DataUrlSpec.

(** ** More on the touch-up editor *)

Module StrokesSpec.
Import Canvas2D ComicEditor Strokes.

(** X28.  Pointer, tool and save events never touch the background, the
    size of the canvas or what is already painted: they leave the
    container style and the canvas size as they are and at most add one
    stroke at the end of the log.  While no stroke is in progress,
    moving or releasing the pointer changes nothing at all. *)
Theorem events_only_append (url : string) (s : Editor) (ev : Event) :
  (forall vp img, ev <> ImageLoaded vp img) ->
  container_style (step url s ev) = container_style s
  /\ canvas_width (step url s ev) = canvas_width s
  /\ canvas_height (step url s ev) = canvas_height s
  /\ (exists added,
        option_map edit_log (context (step url s ev))
        = option_map (fun c => (edit_log c ++ added)%list) (context s)
        /\ (length added <= 1)%nat)
  /\ (isDrawing s = false ->
      (exists e, ev = MouseMove e) \/ ev = MouseUp \/ ev = MouseLeave
      \/ ev = ClickSave ->
      step url s ev = s).
Proof.
  intros Hnot.
  assert (exists added,
             option_map edit_log (context s)
             = option_map (fun c => (edit_log c ++ added)%list) (context s)
             /\ (length added <= 1)%nat) as Hsame.
  { exists []. split; [|simpl; lia].
    destruct (context s); cbn; [now rewrite app_nil_r | reflexivity]. }
  assert (forall s0 : Editor, stopDrawing s0 = s0 \/ isDrawing s0 = true)
    as Hstop.
  { intros s0. unfold stopDrawing. destruct (isDrawing s0); auto. }
  assert (container_style (stopDrawing s) = container_style s
          /\ canvas_width (stopDrawing s) = canvas_width s
          /\ canvas_height (stopDrawing s) = canvas_height s
          /\ exists added,
              option_map edit_log (context (stopDrawing s))
              = option_map (fun c => (edit_log c ++ added)%list) (context s)
              /\ (length added <= 1)%nat) as Hup.
  { unfold stopDrawing. destruct (isDrawing s); [|now repeat split].
    destruct (context s) as [c|] eqn:C; cbn; rewrite ?C;
      repeat split; exists []; cbn; rewrite ?app_nil_r;
      (split; [reflexivity | lia]). }
  destruct ev as [e|e| | | | |col|n|vp img|]; cbn [step].
  - (* mouse down *)
    repeat split; auto. intros _ [[e' H]|[H|[H|H]]]; discriminate.
  - (* mouse move *)
    unfold draw. destruct (isDrawing s) eqn:D; cbn [negb].
    + destruct (context s) as [c|] eqn:C.
      * destruct (tool s); cbn; repeat split; try discriminate;
          eexists; (split; [reflexivity | simpl; lia]).
      * rewrite <- C in Hsame |- *. repeat split; auto.
    + repeat split; auto.
  - (* mouse up *)
    destruct Hup as (U1 & U2 & U3 & U4). repeat split; auto.
    intros D _. destruct (Hstop s) as [E|E]; [exact E | congruence].
  - (* mouse leave *)
    destruct Hup as (U1 & U2 & U3 & U4). repeat split; auto.
    intros D _. destruct (Hstop s) as [E|E]; [exact E | congruence].
  - repeat split; auto. intros _ [[e' H]|[H|[H|H]]]; discriminate.
  - repeat split; auto. intros _ [[e' H]|[H|[H|H]]]; discriminate.
  - repeat split; auto. intros _ [[e' H]|[H|[H|H]]]; discriminate.
  - repeat split; auto. intros _ [[e' H]|[H|[H|H]]]; discriminate.
  - (* image loaded *)
    now destruct (Hnot vp img).
  - repeat split; auto.
Qed.

Lemma events_only_append_witness :
  step "" used_editor (MouseMove pointer_a) = used_editor
  /\ container_style (step "" used_editor (MouseDown pointer_a))
     = container_style used_editor.
Proof.
  split.
  - apply (events_only_append "" used_editor (MouseMove pointer_a)).
    + discriminate.
    + reflexivity.
    + left. now exists pointer_a.
  - apply (events_only_append "" used_editor (MouseDown pointer_a)).
    discriminate.
Defined.

Lemma last_nonempty_default {X} (l : list X) (x d1 d2 : X) :
  last (x :: l) d1 = last (x :: l) d2.
Proof.
  revert x. induction l as [|y l IH]; intros x; [reflexivity|].
  change (last (y :: l) d1 = last (y :: l) d2). apply IH.
Qed.

(** Moves during a stroke add the segments of the polyline. *)
Lemma moves_paint_polyline (url : string) (es : list MouseEvent) :
  forall (s : Editor) (c : EditCtx),
    isDrawing s = true ->
    context s = Some c ->
    let color := match tool s with
                 | Brush => brushColor s
                 | Eraser => strokeStyle c
                 end in
    let s' := run url s (map MouseMove es) in
    isDrawing s' = true /\ tool s' = tool s
    /\ brushSize s' = brushSize s /\ brushColor s' = brushColor s
    /\ lastPos s' = last_point (lastPos s) (map getMousePos es)
    /\ exists c',
        context s' = Some c'
        /\ edit_log c'
           = (edit_log c
              ++ segments (tool s) color (brushSize s) (lastPos s)
                          (map getMousePos es))%list.
Proof.
  induction es as [|e es IH]; intros s c D C color s'.
  - subst s'. cbn. repeat split; auto.
    exists c. split; [exact C | now rewrite app_nil_r].
  - subst s'. unfold run in *. cbn [map fold_left].
    set (s1 := step url s (MouseMove e)).
    assert (isDrawing s1 = true /\ tool s1 = tool s
            /\ brushSize s1 = brushSize s /\ brushColor s1 = brushColor s
            /\ lastPos s1 = getMousePos e
            /\ exists c1,
                context s1 = Some c1
                /\ match tool s with
                   | Brush => brushColor s
                   | Eraser => strokeStyle c1
                   end = color
                /\ edit_log c1
                   = (edit_log c
                      ++ [Stroke (match tool s with
                                  | Brush => SourceOver
                                  | Eraser => DestinationOut
                                  end) color (brushSize s) CapRound JoinRound
                                 (lastPos s) (getMousePos e)])%list)
      as (D1 & T1 & B1 & Col1 & L1 & c1 & C1 & K1 & E1).
    { subst s1 color. cbn [step]. unfold draw. rewrite D, C. cbn [negb].
      destruct (tool s) eqn:T; cbn; rewrite ?T; repeat split; auto;
        eexists; repeat split; reflexivity. }
    specialize (IH s1 c1 D1 C1). cbn zeta in IH.
    destruct IH as (D' & T' & B' & Col' & L' & c' & C' & E').
    rewrite T1, B1, Col1, L1 in *.
    repeat split; auto.
    + rewrite L'. unfold last_point. cbn [map].
      destruct (map getMousePos es) as [|q l]; [reflexivity|].
      change (last (q :: l) (getMousePos e) = last (q :: l) (lastPos s)).
      apply last_nonempty_default.
    + exists c'. split; [exact C'|].
      rewrite E', E1, <- app_assoc. cbn [app segments].
      rewrite K1. reflexivity.
Qed.

(** X29.  A stroke is a polyline: pressing the pointer and then moving
    it through a series of positions adds to the drawing, in order, the
    segments that join the positions one to the next, starting where the
    pointer was pressed -- each with round caps and joins at the brush
    size, the brush in source-over with the brush colour, the eraser in
    destination-out -- and nothing else; the stroke goes on from the last
    position. *)
Theorem stroke_is_polyline (url : string) (s : Editor) (c : EditCtx)
        (e0 : MouseEvent) (es : list MouseEvent) :
  context s = Some c ->
  let color := match tool s with
               | Brush => brushColor s
               | Eraser => strokeStyle c
               end in
  let s' := run url s (MouseDown e0 :: map MouseMove es) in
  isDrawing s' = true
  /\ lastPos s' = last_point (getMousePos e0) (map getMousePos es)
  /\ exists c',
      context s' = Some c'
      /\ edit_log c'
         = (edit_log c
            ++ segments (tool s) color (brushSize s) (getMousePos e0)
                        (map getMousePos es))%list.
Proof.
  intros C color s'. subst s'.
  pose proof (moves_paint_polyline url es (step url s (MouseDown e0)) c
                eq_refl C) as H.
  cbn zeta in H. unfold run in *. cbn [fold_left].
  destruct H as (D & _ & _ & _ & L & c' & C' & E).
  split; [exact D|]. split; [exact L|].
  exists c'. split; [exact C' | exact E].
Qed.

Lemma stroke_is_polyline_witness :
  exists c',
    context (run "" used_editor
                 (MouseDown pointer_b
                  :: map MouseMove [pointer_a; pointer_b])) = Some c'
    /\ edit_log c'
       = [Stroke SourceOver "#000000" 10 CapRound JoinRound
                 (getMousePos pointer_a) (getMousePos pointer_b);
          Stroke SourceOver "#000000" 10 CapRound JoinRound
                 (getMousePos pointer_b) (getMousePos pointer_a);
          Stroke SourceOver "#000000" 10 CapRound JoinRound
                 (getMousePos pointer_a) (getMousePos pointer_b)].
Proof.
  destruct (stroke_is_polyline "" used_editor
              {| globalCompositeOperation := SourceOver;
                 strokeStyle := "#000000"; lineWidth := 10;
                 lineCap := CapRound; lineJoin := JoinRound;
                 edit_log :=
                   [Stroke SourceOver "#000000" 10 CapRound JoinRound
                           (getMousePos pointer_a) (getMousePos pointer_b)] |}
              pointer_b [pointer_a; pointer_b] eq_refl)
    as (_ & _ & c' & C' & E').
  exists c'. split; [exact C' | exact E'].
Defined.

End StrokesSpec.
